(** * nanoPerplexityAI: evidence retrieval and citation renumbering

    A shallow embedding of [nanoPerplexityAI.py].  Python values are
    modelled as follows.

    - [str] is [string].  A Rocq character is one of the 256 code points
      of Latin-1; on that range the regular-expression class [\d] is
      exactly the ten ASCII digits.
    - [int] is [Z]; [str(n)] is the decimal numeral, [int(s)] reads one
      of at most 4300 digits and raises on a longer one (the default
      limit of CPython 3.11 and later).  [str(n)] is total: a number that
      the program formats is a rank among the markers of a text or a
      number that [int] has read, far below that limit.
    - [dict] is an association list in insertion order: assigning to an
      existing key keeps the key's position and replaces its value.
    - An exception is a value of [exn]; a computation that may raise has
      type [outcome A].
    - [time.time()] readings are rationals: the clock is an input of the
      model, it is never read from the machine.  The difference of two
      readings of one run is exact in floating point, so it is the
      difference of the rationals.
    - What the network, the search provider and the thread pool do is an
      explicit argument (the records [Invocation] and [Pool]).
    - So is what the user types and what the language model replies to
      each prompt (the record [World]); a reply is a [str].
    - Writing the output file is the value [save_markdown] returns: the
      path and the content.  The [print] calls are left out.

    The file has three parts: the program, the vocabulary in which its
    properties are stated, and the properties with their proofs. *)

From Stdlib Require Import ZArith QArith Qminmax Lqa String Ascii List Lia.
From Stdlib Require Import Decimal DecimalString DecimalZ DecimalN DecimalFacts.
From stdpp Require Import base list strings sorting gmap.

Open Scope string_scope.
Open Scope list_scope.

(** * The program *)

(** ** Exceptions and results *)

Module Py.

Inductive request_error :=
| ConnectionError   (* connection refused, DNS failure, malformed response *)
| HTTPError         (* raised by raise_for_status *)
| Timeout           (* connect or read timeout of requests.get *)
| InvalidURL.       (* MissingSchema, InvalidSchema, InvalidURL *)

Inductive exn :=
| RequestException (k : request_error)  (* requests.exceptions.RequestException *)
| TimeoutError                          (* the builtin, raised by the tracer *)
| IndexError
| AttributeError
| OtherError (name : string).           (* any other exception class *)

Inductive outcome (A : Type) :=
| Return (a : A)
| Raise (e : exn).
Arguments Return {A} a.
Arguments Raise {A} e.

Definition bind {A B} (m : outcome A) (f : A -> outcome B) : outcome B :=
  match m with
  | Return a => f a
  | Raise e => Raise e
  end.

(** [try: m  except classes: h] for a handler that does not use the
    exception value. *)
Definition try_except {A} (m : outcome A) (caught : exn -> bool)
    (h : outcome A) : outcome A :=
  match m with
  | Return a => Return a
  | Raise e => if caught e then h else Raise e
  end.

(** Truth value of a [str] and of an Optional[str]. *)
Definition truthy (s : string) : bool :=
  match s with
  | EmptyString => false
  | String _ _ => true
  end.

Definition truthy_opt (o : option string) : bool :=
  match o with
  | None => false
  | Some s => truthy s
  end.

(** [sep.join(parts)] *)
Definition join (sep : string) (parts : list string) : string :=
  String.concat sep parts.

(** [str(n)] and the [{n}] of an f-string, for an [int]. *)
Definition str (n : Z) : string := NilZero.string_of_int (Z.to_int n).

(** [lst[i]]: a negative index counts from the end; out of range raises. *)
Definition index {A} (l : list A) (i : Z) : outcome A :=
  let n := Z.of_nat (length l) in
  let j := if (i <? 0)%Z then (n + i)%Z else i in
  if (j <? 0)%Z then Raise IndexError
  else match l !! Z.to_nat j with
       | Some x => Return x
       | None => Raise IndexError
       end.

(** *** Insertion-ordered dictionaries *)

Section dict.
Context {K V : Type} `{EqDecision K}.

(** [d[k] = v] *)
Fixpoint dict_set (d : list (K * V)) (k : K) (v : V) : list (K * V) :=
  match d with
  | [] => [(k, v)]
  | (k', v') :: d' =>
      if decide (k' = k) then (k, v) :: d'
      else (k', v') :: dict_set d' k v
  end.

(** [d.get(k)] *)
Fixpoint dict_get (d : list (K * V)) (k : K) : option V :=
  match d with
  | [] => None
  | (k', v') :: d' => if decide (k' = k) then Some v' else dict_get d' k
  end.

(** [list(d.keys())] *)
Definition keys (d : list (K * V)) : list K := d.*1.

(** [{k: v for (k, v) in kvs}] *)
Definition dict_of (kvs : list (K * V)) : list (K * V) :=
  fold_left (fun d kv => dict_set d kv.1 kv.2) kvs [].
End dict.

End Py.

Import Py.

#[global] Instance outcome_ret : MRet outcome := @Return.
#[global] Instance outcome_bind : MBind outcome :=
  fun A B f m => Py.bind m f.

Abbreviation dict K V := (list (K * V)) (only parsing).

(** ** Default configuration *)

Definition NUM_SEARCH : nat := 10.
Definition SEARCH_TIME_LIMIT : Q := 3.
Definition TOTAL_TIMEOUT : Q := 6.
Definition MAX_CONTENT : nat := 500.
Definition MAX_TOKENS : nat := 1000.

(** ** Page fetcher *)

(** [a > b] on clock readings. *)
Definition Qgtb (a b : Q) : bool := negb (Qle_bool a b).

(** [trace_function_factory(start)]: the closure is called with the clock
    reading at each trace event; it raises once more than [TOTAL_TIMEOUT]
    seconds have passed since [start].  The readings are those of
    [time.time()] in one run: two such doubles lie within a factor of two
    of each other, so the subtraction of line 48 is exact and the test is
    the one on rationals. *)
Definition trace_function_factory (start : Q) : Q -> outcome unit :=
  fun now =>
    if Qgtb (now - start) TOTAL_TIMEOUT then Raise TimeoutError
    else Return tt.

(** The response object as far as the fetcher looks at it: the status
    code, and [get_text()] of every [<p>] element that
    [BeautifulSoup(response.text, 'lxml').find_all('p')] returns. *)
Record Response := {
  status_code : Z;
  paragraphs : list string
}.

(** [requests]: [Response.raise_for_status]. *)
Definition raise_for_status (r : Response) : outcome unit :=
  if ((400 <=? status_code r) && (status_code r <? 600))%Z
  then Raise (RequestException HTTPError)
  else Return tt.

(** What happens around one call of [fetch_webpage]: the clock reading at
    entry; the clock readings at the trace events that fire while the
    [try] block runs, in order, up to the first at which the tracer
    raises; and what [requests.get] does when the tracer does not stop
    the block.

    The tracer raises its [TimeoutError] inside whatever frame is
    running.  The reading of that event is listed only if the exception
    reaches the [try] statement of [fetch_webpage].  If library code
    catches it on the way, the interpreter has switched tracing off, the
    block goes on untraced, and the event leaves no reading here;
    [requests_get] is then what the request does afterwards.  A fetch
    that never returns has no value of type [outcome] and is outside the
    model. *)
Record Invocation := {
  clock_start : Q;
  trace_clock : list Q;
  requests_get : outcome Response
}.

(** The calls [fetch_webpage] makes that are visible outside it. *)
Inductive call :=
| SetTrace (start : option Q)       (* sys.settrace(tracer of start) / (None) *)
| HttpGet (url : string) (timeout : Q).  (* requests.get(url, timeout=timeout) *)

(** Running a block under the tracer: the tracer is called at every trace
    event of the invocation; the first call that raises aborts the block
    with an exception that, by the choice of the events listed, reaches
    the [try] statement. *)
Fixpoint traced {A} (tracer : Q -> outcome unit) (ticks : list Q)
    (block : outcome A) : outcome A :=
  match ticks with
  | [] => block
  | now :: later => tracer now ;; traced tracer later block
  end.

(** [except (requests.exceptions.RequestException, TimeoutError)] *)
Definition caught_by_fetch (e : exn) : bool :=
  match e with
  | RequestException _ | TimeoutError => true
  | _ => false
  end.

(** The [try] block of [fetch_webpage], lines 60 to 66. *)
Definition fetch_block (url : string) (w : Invocation)
  : outcome (string * option string) :=
  response ← requests_get w;
  raise_for_status response ;;
  let page_text := join " " (paragraphs response) in
  Return (url, Some page_text).

(** [fetch_webpage]: the calls it makes, and what it returns or raises. *)
Definition fetch_webpage (url : string) (timeout : Q) (w : Invocation)
  : list call * outcome (string * option string) :=
  let start := clock_start w in
  let tracer := trace_function_factory start in
  ([SetTrace (Some start); HttpGet url timeout; SetTrace None],
   try_except (traced tracer (trace_clock w) (fetch_block url w))
     caught_by_fetch
     (Return (url, None))).

(** ** Concurrent retrieval *)

(** What happens around one call of [google_parse_webpages]: the URLs the
    search provider yields, the invocation that the i-th submitted task
    turns out to be, and the order in which [as_completed] yields the
    futures (by submission index). *)
Record Pool := {
  search : string -> nat -> list string;
  task : nat -> Invocation;
  completion : list nat
}.

Abbreviation future := (outcome (string * option string)) (only parsing).

(** [executor.submit(fetch_webpage, url, search_time_limit) for url in urls] *)
Definition submit_all (urls : list string) (search_time_limit : Q)
    (w : Pool) : list future :=
  imap (fun i url => (fetch_webpage url search_time_limit (task w i)).2) urls.

(** [as_completed(future_to_url)]: the futures in the order they finish. *)
Definition as_completed (order : list nat) (fs : list future) : list future :=
  omap (fun i => fs !! i) order.

(** The dictionary comprehension of lines 80 and 81; [future.result()]
    returns the task's value or raises what the task raised. *)
Fixpoint collect (done : list future) (d : dict string string)
  : outcome (dict string string) :=
  match done with
  | [] => Return d
  | fut :: rest =>
      r1 ← fut;
      let url := r1.1 in
      if truthy url then
        r2 ← fut;
        match r2.2 with
        | Some page_text =>
            if truthy page_text then collect rest (dict_set d url page_text)
            else collect rest d
        | None => collect rest d
        end
      else collect rest d
  end.

(** [google_parse_webpages]; leaving the [with] block waits for every
    task, so every future has finished when the comprehension ends. *)
Definition google_parse_webpages (query : string) (num_search : nat)
    (search_time_limit : Q) (w : Pool) : outcome (dict string string) :=
  let urls := search w query num_search in
  let future_to_url := submit_all urls search_time_limit w in
  collect (as_completed (completion w) future_to_url) [].

(** ** Regular expressions

    The fragment of Python's [re] that the two patterns of the program
    use: literal characters, [\d], the greedy quantifiers [?] and [+], one
    capturing group, concatenation.  The matcher lists every way a pattern
    matches a prefix of the input, in the order a backtracking matcher
    tries them; [re] takes the first. *)

Module Re.

(** The characters [\d] matches, among the 256 of the model. *)
Definition is_digit (c : ascii) : bool :=
  ((48 <=? N_of_ascii c) && (N_of_ascii c <=? 57))%N.

Inductive atom :=
| Chr (c : ascii)     (* a literal, possibly escaped, character *)
| Digit.              (* \d *)

(** The atom matches the character. *)
Definition accepts (a : atom) (c : ascii) : bool :=
  match a with
  | Chr c' => Ascii.eqb c' c
  | Digit => is_digit c
  end.

Inductive regex :=
| Eps
| One (a : atom)
| Opt (r : regex)          (* r? *)
| Plus (a : atom)          (* a+ *)
| Group (r : regex)        (* (r) *)
| Cat (r1 r2 : regex).

(** One way of matching: the text matched, the rest of the input, and what
    the group captured. *)
Record way := Way {
  matched : string;
  rest : string;
  group1 : option string
}.

(** The ways [a+] matches, longest first. *)
Fixpoint plus_ways (a : atom) (s : string) : list way :=
  match s with
  | EmptyString => []
  | String c s' =>
      if accepts a c then
        ((fun w => Way (String c (matched w)) (rest w) None) <$> plus_ways a s')
        ++ [Way (String c EmptyString) s' None]
      else []
  end.

(** What the group holds after two parts: the capture of the later part
    if it has one. *)
Definition or_else (g g' : option string) : option string :=
  match g with
  | Some _ => g
  | None => g'
  end.

(** The ways [r] matches a prefix of [s], most preferred first: a
    quantifier takes as much as it can before it takes less, and an
    earlier part of a concatenation is revised last. *)
Fixpoint ways (r : regex) (s : string) : list way :=
  match r with
  | Eps => [Way "" s None]
  | One a =>
      match s with
      | String c s' =>
          if accepts a c then [Way (String c EmptyString) s' None] else []
      | EmptyString => []
      end
  | Opt r' => ways r' s ++ [Way "" s None]
  | Plus a => plus_ways a s
  | Group r' =>
      (fun w => Way (matched w) (rest w) (Some (matched w))) <$> ways r' s
  | Cat r1 r2 =>
      w1 ← ways r1 s;
      w2 ← ways r2 (rest w1);
      [Way (matched w1 +:+ matched w2) (rest w2)
           (or_else (group1 w2) (group1 w1))]
  end.

(** [pattern.match(s)] *)
Definition match_at (r : regex) (s : string) : option way := head (ways r s).

(** The input cut into the non-overlapping matches, found from left to
    right, and the characters between them.  After an empty match the
    scan moves on by one character. *)
Inductive piece :=
| Keep (c : ascii)
| Hit (w : way).

(** Keep one character and scan on; nothing is left at the end. *)
Definition step_over (scan : string -> list piece) (s : string) : list piece :=
  match s with
  | EmptyString => []
  | String c s' => Keep c :: scan s'
  end.

(** The scan, by recursion on a bound on the number of steps; one more
    than the length of the input is enough ([scan_eq] below is the
    equation without the bound). *)
Fixpoint scan_fuel (fuel : nat) (r : regex) (s : string) : list piece :=
  match fuel with
  | O => []
  | S fuel' =>
      match match_at r s with
      | None => step_over (scan_fuel fuel' r) s
      | Some w =>
          match matched w with
          | EmptyString => Hit w :: step_over (scan_fuel fuel' r) s
          | String _ _ => Hit w :: scan_fuel fuel' r (rest w)
          end
      end
  end.

Definition scan (r : regex) (s : string) : list piece :=
  scan_fuel (S (String.length s)) r s.

(** [re.findall(r, s)] for a pattern with exactly one group. *)
Definition findall (r : regex) (s : string) : list string :=
  omap (fun p => match p with
                 | Keep _ => None
                 | Hit w => Some (default "" (group1 w))
                 end) (scan r s).

(** [re.sub(r, repl, s)] for a replacement without escapes. *)
Definition sub (r : regex) (repl : string) (s : string) : string :=
  foldr (fun p acc => match p with
                      | Keep c => String c acc
                      | Hit _ => repl +:+ acc
                      end) "" (scan r s).

(** A string as a pattern that matches just that string. *)
Fixpoint literal (s : string) : regex :=
  match s with
  | EmptyString => Eps
  | String c s' => Cat (One (Chr c)) (literal s')
  end.

End Re.

Import Re.

(** ** Citation normalizer *)

(** The newline character, as a string. *)
Definition nl : string := String (ascii_of_nat 10) EmptyString.

(** The builtin [ValueError]. *)
Definition ValueError : exn := OtherError "ValueError".

(** [sys.get_int_max_str_digits()]: the default of CPython 3.11 and
    later, which the program does not change. *)
Definition int_max_str_digits : Z := 4300.

(** [int(s)] on an unsigned decimal numeral, which is all that [\d+] can
    capture; anything else is rejected, and so is a numeral of more
    digits than [int_max_str_digits], leading zeros counted. *)
Definition int (s : string) : outcome Z :=
  match NilZero.uint_of_string s with
  | Some d =>
      if (Z.of_nat (String.length s) <=? int_max_str_digits)%Z
      then Return (Z.of_uint d)
      else Raise ValueError
  | None => Raise ValueError
  end.

(** [enumerate(l, start)] *)
Fixpoint enumerate {A} (start : Z) (l : list A) : list (Z * A) :=
  match l with
  | [] => []
  | x :: l' => (start, x) :: enumerate (start + 1) l'
  end.

(** [sorted(set(l))] *)
Definition sorted_set (l : list Z) : list Z :=
  merge_sort Z.le (elements (list_to_set l : gset Z)).

(** [r'\[\(?(\d+)\)?\]'] *)
Definition cite_pattern : regex :=
  Cat (One (Chr "[")) (Cat (Opt (One (Chr "(")))
    (Cat (Group (Plus Digit)) (Cat (Opt (One (Chr ")"))) (One (Chr "]"))))).

(** [rf'\[\(?{old}\)?\]'] *)
Definition old_pattern (old : Z) : regex :=
  Cat (One (Chr "[")) (Cat (Opt (One (Chr "(")))
    (Cat (literal (str old)) (Cat (Opt (One (Chr ")"))) (One (Chr "]"))))).

(** Lines 139 to 143: the numbers cited, the map from each to its rank,
    and one substitution per pair of the map, each on the text the
    previous one returned. *)
Definition renumber_citations (response : string)
  : outcome (string * dict Z Z) :=
  numbers ← mapM int (findall cite_pattern response);
  let citations := sorted_set numbers in
  let citation_map :=
    dict_of (map (fun '(new, old) => (old, new)) (enumerate 1 citations)) in
  let response :=
    fold_left (fun response '(old, new) =>
                 sub (old_pattern old) ("[" +:+ str new +:+ "]") response)
              citation_map response in
  Return (response, citation_map).

(** Line 148; [search_dic] is [None] when no search was made, and then
    has no [keys]. *)
Definition generate_citation_links (citation_map : dict Z Z)
    (search_dic : option (dict string string)) : outcome string :=
  cited_links ← mapM (fun '(old, new) =>
      d ← match search_dic with
          | Some d => Return d
          | None => Raise AttributeError
          end;
      url ← index (keys d) (old - 1);
      Return (str new +:+ ". " +:+ url)) citation_map;
  Return (join nl cited_links).

(** [save_markdown] up to the file it writes: the path and the content. *)
Definition save_markdown (query response : string)
    (search_dic : option (dict string string)) : outcome (string * string) :=
  '(response, citation_map) ← renumber_citations response;
  links_block ← match citation_map with
                | [] => Return ""
                | _ :: _ => generate_citation_links citation_map search_dic
                end;
  let output_content :=
    match citation_map with
    | _ :: _ => "# " +:+ query +:+ nl +:+ nl +:+ "## Sources" +:+ nl
                +:+ links_block +:+ nl +:+ nl +:+ "## Answer" +:+ nl +:+ response
    | [] => "# " +:+ query +:+ nl +:+ nl +:+ "## Answer" +:+ nl +:+ response
    end in
  Return (query +:+ ".md", output_content).

(** ** String methods

    [str.lower], [str.strip] and the slice [s[:stop]], on the 256
    characters of the model. *)

Module Str.

(** The upper-case letters among the 256 characters are A to Z and the
    accented capitals 192 to 222 except the multiplication sign; each is
    32 below its lower-case letter. *)
Definition lower_char (c : ascii) : ascii :=
  let n := N_of_ascii c in
  if ((65 <=? n) && (n <=? 90)
      || (192 <=? n) && (n <=? 222) && negb (n =? 215))%N
  then ascii_of_N (n + 32) else c.

(** [s.lower()] *)
Fixpoint lower (s : string) : string :=
  match s with
  | EmptyString => EmptyString
  | String c s' => String (lower_char c) (lower s')
  end.

(** [c.isspace()]: tab to carriage return, the four separators, the
    space, next-line and the no-break space. *)
Definition is_space (c : ascii) : bool :=
  let n := N_of_ascii c in
  ((9 <=? n) && (n <=? 13) || (28 <=? n) && (n <=? 32)
   || (n =? 133) || (n =? 160))%N.

(** [s.lstrip()] *)
Fixpoint lstrip (s : string) : string :=
  match s with
  | EmptyString => EmptyString
  | String c s' => if is_space c then lstrip s' else s
  end.

(** [s.rstrip()] *)
Fixpoint rstrip (s : string) : string :=
  match s with
  | EmptyString => EmptyString
  | String c s' =>
      match rstrip s' with
      | EmptyString => if is_space c then EmptyString else String c EmptyString
      | String _ _ as t => String c t
      end
  end.

(** [s.strip()] *)
Definition strip (s : string) : string := rstrip (lstrip s).

(** [s[:stop]]: a negative [stop] counts from the end. *)
Definition slice_to (s : string) (stop : Z) : string :=
  let n := Z.of_nat (String.length s) in
  let stop := if (stop <? 0)%Z then (n + stop)%Z else stop in
  substring 0 (Z.to_nat stop) s.

End Str.

(** ** The language model and the prompts *)

(** One message of a prompt, [{"role": ..., "content": ...}]. *)
Record message := {
  role : string;
  content : string
}.

(** What happens around one run of [main]: the line that [input] reads,
    the text that the model's reply carries for each prompt it is sent
    (or the exception the client raises), and the pool of the one
    retrieval that the run may make. *)
Record World := {
  console_input : string;
  chat : list message -> outcome string;
  pool : Pool
}.

(** [get_query] *)
Definition get_query (w : World) : string := console_input w.

(** [llm_openai]: the content of the reply to [prompt]. *)
Definition llm_openai (prompt : list message) (w : World) : outcome string :=
  chat w prompt.

(** The double quote, as a string. *)
Definition quote : string := String (ascii_of_nat 34) EmptyString.

(** The system message of [llm_check_search], lines 87 to 92. *)
Definition check_search_message : string :=
  nl
  +:+ "    You are a helpful assistant whose primary goal is to decide "
  +:+ "if a user's query requires a Google search. You should use Google "
  +:+ "search for most queries to find the most accurate and updated "
  +:+ "information. Follow these conditions:" +:+ nl +:+ nl
  +:+ "    - If the query does not require Google search, you must "
  +:+ "output " +:+ quote
  +:+ "no" +:+ quote
  +:+ "." +:+ nl
  +:+ "    - If the query requires Google search, you must respond with "
  +:+ "a reformulated user query for Google search." +:+ nl
  +:+ "    ".

(** The system message of [build_prompt] up to the context block,
    lines 113 to 123. *)
Definition answer_head : string :=
  nl
  +:+ "    You are a helpful assistant who is expert at answering user's "
  +:+ "queries based on the cited context." +:+ nl +:+ nl
  +:+ "    Generate a response that is informative and relevant to the "
  +:+ "user's query based on provided context (the context consists of "
  +:+ "search results containing a key with [citation number](website "
  +:+ "link) and brief description of the content of that page)." +:+ nl
  +:+ "    You must use this context to answer the user's query in the "
  +:+ "best way possible. Use an unbiased and journalistic tone in your "
  +:+ "response. Do not repeat the text." +:+ nl
  +:+ "    You must not tell the user to open any link or visit any "
  +:+ "website to get the answer. You must provide the answer in the "
  +:+ "response itself." +:+ nl
  +:+ "    Your responses should be medium to long in length, be "
  +:+ "informative and relevant to the user's query. You must use "
  +:+ "markdown to format your response. You should use bullet points to "
  +:+ "list the information. Make sure the answer is not short and is "
  +:+ "informative." +:+ nl
  +:+ "    You have to cite the answer using [citation number](website "
  +:+ "link) notation. You must cite the sentences with their relevant "
  +:+ "context number. You must cite each and every part of the answer "
  +:+ "so the user can know where the information is coming from." +:+ nl
  +:+ "    Anything inside the following context block provided below is "
  +:+ "for your knowledge returned by the search engine and is not "
  +:+ "shared by the user. You have to answer questions on the basis of "
  +:+ "it and cite the relevant information from it but you do not have "
  +:+ "to " +:+ nl
  +:+ "    talk about the context in your response." +:+ nl
  +:+ "    context block:" +:+ nl
  +:+ "    ".

(** What follows the context block, lines 123 and 124. *)
Definition answer_tail : string :=
  nl
  +:+ "    ".

(** The prompt of [llm_check_search], line 93. *)
Definition check_search_prompt (query : string) : list message :=
  [ {| role := "system"; content := check_search_message |};
    {| role := "user"; content := query |} ].

(** [llm_check_search]: [None] when the model declines the search, the
    evidence map of the search for the model's reply otherwise. *)
Definition llm_check_search (query : string) (w : World)
  : outcome (option (dict string string)) :=
  let prompt := check_search_prompt query in
  response ← llm_openai prompt w;
  if decide (Str.strip (Str.lower response) ≠ "no") then
    search_dic ← google_parse_webpages response NUM_SEARCH SEARCH_TIME_LIMIT
                   (pool w);
    Return (Some search_dic)
  else
    Return None.

(** The comprehension of lines 108 and 109: one line per entry of the
    evidence map, numbered from 1 in the order of the map. *)
Definition context_list (search_dic : dict string string) (max_content : Z)
  : list string :=
  map (fun '(i, (url, content)) =>
         "[" +:+ str (i + 1) +:+ "](" +:+ url +:+ "): "
         +:+ Str.slice_to content max_content)
      (enumerate 0 search_dic).

(** Lines 106 to 110; [None] and the empty dictionary are both false. *)
Definition context_block (search_dic : option (dict string string))
    (max_content : Z) : string :=
  match search_dic with
  | Some ((_ :: _) as d) => join nl (context_list d max_content)
  | _ => ""
  end.

(** [build_prompt] *)
Definition build_prompt (query : string)
    (search_dic : option (dict string string)) (max_content : Z)
  : list message :=
  let system_message :=
    answer_head +:+ context_block search_dic max_content +:+ answer_tail in
  [ {| role := "system"; content := system_message |};
    {| role := "user"; content := query |} ].

(** [main] up to the file it writes. *)
Definition main (w : World) : outcome (string * string) :=
  let query := get_query w in
  search_dic ← llm_check_search query w;
  let prompt := build_prompt query search_dic (Z.of_nat MAX_CONTENT) in
  response ← llm_openai prompt w;
  save_markdown query response search_dic.

(** * Vocabulary of the properties *)

(** ** Fetching *)

(** The deadline of one invocation has passed at clock reading [now]. *)
Definition expired (start now : Q) : bool := Qgtb (now - start) TOTAL_TIMEOUT.

(** The three ways the [try] block ends in a value or a caught exception. *)
Definition declared (w : Invocation) : Prop :=
  match requests_get w with
  | Return _ => True
  | Raise e => caught_by_fetch e = true
  end.

(** A response that arrives, with its status and paragraph texts. *)
Definition page (status : Z) (ps : list string) : outcome Response :=
  Return {| status_code := status; paragraphs := ps |}.

(** The claim of C6 as the specification words it, for a retrieval phase
    that started at [T0]: the GET carries [min(t, time left until
    T0 + TOTAL_TIMEOUT)], and a fetch whose tracer runs after
    [T0 + TOTAL_TIMEOUT] fails. *)
Definition global_deadline_claim (T0 : Q) (url : string) (t : Q)
    (w : Invocation) : Prop :=
  (∃ t', HttpGet url t' ∈ (fetch_webpage url t w).1 ∧
         (t' == Qmin t (T0 + TOTAL_TIMEOUT - clock_start w))%Q) ∧
  (∀ now, now ∈ trace_clock w → (T0 + TOTAL_TIMEOUT < now)%Q →
          (fetch_webpage url t w).2 = Return (url, None)).

(** ** Collecting *)

(** The result passes the filter of the comprehension: its URL and its
    text are non-empty strings. *)
Definition kept (r : string * option string) : bool :=
  truthy r.1 && truthy_opt r.2.

(** The dictionary after one result. *)
Definition keep (d : dict string string) (r : string * option string)
  : dict string string :=
  if kept r then dict_set d r.1 (default "" r.2) else d.

(** The values of the futures that did not raise. *)
Definition returned (fs : list future) : list (string * option string) :=
  omap (λ f, match f with Return r => Some r | Raise _ => None end) fs.

(** Each of the first [n] submitted tasks succeeds, fails or times out. *)
Definition all_declared (w : Pool) (n : nat) : Prop :=
  ∀ i, i < n → declared (task w i).

(** A small pool: three URLs, the second answers 404, the third is cut
    off by the tracer; the futures complete in the order 2, 0, 1. *)
Definition sample_pool : Pool := {|
  search := λ _ _, ["http://a"; "http://b"; "http://c"];
  task := λ i, match i with
               | 0 => {| clock_start := 0; trace_clock := [1]%Q;
                         requests_get := page 200 ["one"; "two"] |}
               | 1 => {| clock_start := 0; trace_clock := [];
                         requests_get := page 404 ["gone"] |}
               | _ => {| clock_start := 1; trace_clock := [2; 8]%Q;
                         requests_get := page 200 ["late"] |}
               end;
  completion := [2; 0; 1]
|}.

(** A pool in which the first URL comes twice; its second fetch
    completes last. *)
Definition twice_pool : Pool := {|
  search := λ _ _, ["http://a"; "http://b"; "http://a"];
  task := λ i, {| clock_start := 0; trace_clock := [];
                  requests_get := match i with
                                  | 0 => page 200 ["old"]
                                  | 1 => page 200 ["other"]
                                  | _ => page 200 ["new"]
                                  end |};
  completion := [1; 0; 2]
|}.

(** ** Source list *)

(** One line of the source list. *)
Definition cited_link (d : dict string string) (pair : Z * Z) : outcome string :=
  url ← index (keys d) (pair.1 - 1);
  Return (str pair.2 +:+ ". " +:+ url).

(** An evidence map with nine entries. *)
Definition nine_pages : dict string string :=
  map (λ u, (u, "text")) ["u1"; "u2"; "u3"; "u4"; "u5"; "u6"; "u7"; "u8"; "u9"].

(** ** Matching, written out *)

(** The input after a mandatory character. *)
Definition expect (c : ascii) (s : string) : option string :=
  match s with
  | String c' s' => if Ascii.eqb c c' then Some s' else None
  | EmptyString => None
  end.

(** An optional character, taken if it is there, and the input after it. *)
Definition strip (c : ascii) (s : string) : string * string :=
  match expect c s with
  | Some s' => (String c "", s')
  | None => ("", s)
  end.

(** The longest prefix of digits, and the input after it. *)
Fixpoint digits_of (s : string) : string * string :=
  match s with
  | String c s' =>
      if is_digit c then (String c (digits_of s').1, (digits_of s').2)
      else ("", s)
  | EmptyString => ("", "")
  end.

(** Every character is a digit. *)
Fixpoint all_digits (s : string) : bool :=
  match s with
  | String c s' => is_digit c && all_digits s'
  | EmptyString => true
  end.

(** The way after [p] has been matched in front of it. *)
Definition after (p : string) (g : option string) (w : way) : way :=
  Way (p +:+ matched w) (rest w) (or_else (group1 w) g).

(** The input after a mandatory prefix. *)
Fixpoint expect_str (p s : string) : option string :=
  match p with
  | EmptyString => Some s
  | String c p' => s' ← expect c s; expect_str p' s'
  end.

(** The end of both patterns, [\)?\]]. *)
Definition closing : regex := Cat (Opt (One (Chr ")"))) (One (Chr "]")).

(** How [closing] matches at the start of the input. *)
Definition close_at (s : string) : option way :=
  s' ← expect "]" (strip ")" s).2;
  Some (Way ((strip ")" s).1 +:+ "]") s' None).

(** How [cite_pattern] matches at the start of the input, written out. *)
Definition cite_at (s : string) : option way :=
  s1 ← expect "[" s;
  let lp := (strip "(" s1).1 in
  let d := (digits_of (strip "(" s1).2).1 in
  match d with
  | EmptyString => None
  | String _ _ =>
      w ← close_at (digits_of (strip "(" s1).2).2;
      Some (Way ("[" +:+ lp +:+ d +:+ matched w) (rest w) (Some d))
  end.

(** How [old_pattern old] matches at the start of the input. *)
Definition old_at (p : string) (s : string) : option way :=
  s1 ← expect "[" s;
  s3 ← expect_str p (strip "(" s1).2;
  w ← close_at s3;
  Some (Way ("[" +:+ (strip "(" s1).1 +:+ p +:+ matched w) (rest w) None).

(** ** Citation markers *)

(** An opening bracket, an optional opening parenthesis, one or more
    digits, an optional closing parenthesis, a closing bracket; the
    second argument is the digits. *)
Inductive marker : string → string → Prop :=
| marker_intro (lp d rp : string) :
    lp = "" ∨ lp = "(" →
    rp = "" ∨ rp = ")" →
    d ≠ "" →
    all_digits d = true →
    marker ("[" +:+ lp +:+ d +:+ rp +:+ "]") d.

(** The text contains a citation marker. *)
Definition has_marker (s : string) : Prop :=
  ∃ pre t d post, marker t d ∧ s = pre +:+ t +:+ post.

(** What follows a run of digits does not start with a digit. *)
Definition no_digit_ahead (s : string) : Prop :=
  match s with
  | String c _ => is_digit c = false
  | EmptyString => True
  end.

(** ** Renumbering *)

(** The map that [renumber_citations] builds from the numbers found. *)
Definition citation_map_of (numbers : list Z) : dict Z Z :=
  zip (sorted_set numbers) (seqZ 1 (Z.of_nat (length (sorted_set numbers)))).

(** The substitutions of [renumber_citations], one per pair of the map. *)
Definition rewrite_all (citation_map : dict Z Z) (response : string) : string :=
  fold_left (λ response '(old, new),
               sub (old_pattern old) ("[" +:+ str new +:+ "]") response)
            citation_map response.

(** The text made of the pieces, every hit written as [g] says. *)
Definition text_of (g : way → string) (ps : list piece) : string :=
  foldr (λ p acc, match p with
                  | Keep c => String c acc
                  | Hit w => g w +:+ acc
                  end) "" ps.

(** The pieces are settled under [g]: no marker starts at a kept
    character, and every hit is written as a marker. *)
Fixpoint settled (g : way → string) (ps : list piece) : Prop :=
  match ps with
  | [] => True
  | Keep c :: ps' => cite_at (String c (text_of g ps')) = None ∧ settled g ps'
  | Hit w :: ps' => (∃ d, marker (g w) d) ∧ settled g ps'
  end.

(** No character is an opening bracket. *)
Fixpoint no_bracket (s : string) : Prop :=
  match s with
  | EmptyString => True
  | String c s' => c ≠ "["%char ∧ no_bracket s'
  end.

(** Two texts that are the same up to their first opening bracket. *)
Inductive same_until_bracket : string → string → Prop :=
| same_nil : same_until_bracket "" ""
| same_bracket y y' : same_until_bracket (String "[" y) (String "[" y')
| same_cons c y y' :
    c ≠ "["%char → same_until_bracket y y' →
    same_until_bracket (String c y) (String c y').

(** The digits are few enough for [int]. *)
Definition short (d : string) : Prop :=
  (Z.of_nat (String.length d) <= int_max_str_digits)%Z.

#[global] Instance short_dec (d : string) : Decision (short d) :=
  Z_le_dec _ _.

(** Every marker of the text has digits few enough for [int]. *)
Definition short_numerals (response : string) : Prop :=
  Forall short (findall cite_pattern response).

#[global] Instance short_numerals_dec (response : string)
  : Decision (short_numerals response) :=
  Forall_dec short (findall cite_pattern response).

(** A run of [n] nines. *)
Definition nines (n : nat) : string := String.concat "" (replicate n "9").

(** The number a hit stands for. *)
Definition number_of (w : way) : option Z :=
  match group1 w with
  | Some d => match int d with
              | Return n => Some n
              | Raise _ => None
              end
  | None => None
  end.

(** A hit as it is written once the pairs of [m] have been applied. *)
Definition renumbered (m : dict Z Z) (w : way) : string :=
  match number_of w ≫= dict_get m with
  | Some new => "[" +:+ str new +:+ "]"
  | None => matched w
  end.

(** The numeral of a positive number, without leading zeros. *)
Definition plain_numeral (d : string) : Prop := ∃ n, (0 < n)%Z ∧ d = str n.

(** Every marker of the text cites a positive number, plainly written. *)
Definition plainly_cited (response : string) : Prop :=
  Forall plain_numeral (findall cite_pattern response).

(** A hit of the scan that cites the positive number [v]. *)
Definition cites (w : way) (v : Z) : Prop :=
  (0 < v)%Z ∧ marker (matched w) (str v) ∧ group1 w = Some (str v) ∧
  short (str v).

(** A piece of the scan of a rewritten text, against the piece it was
    written from. *)
Definition written_from (g : way → string) (p' p : piece) : Prop :=
  match p', p with
  | Keep c', Keep c => c' = c
  | Hit w', Hit w => matched w' = g w ∧ ∃ d, marker (g w) d ∧ group1 w' = Some d
  | _, _ => False
  end.

(** The identity on 1, ..., K. *)
Definition identity_map (K : nat) : dict Z Z :=
  zip (seqZ 1 (Z.of_nat K)) (seqZ 1 (Z.of_nat K)).

(** ** The substitutions, hit by hit *)

(** The digits of a marker text. *)
Definition digits_in (t : string) : string :=
  match cite_at t with
  | Some w => default "" (group1 w)
  | None => ""
  end.

(** One substitution, seen on the way a hit is written. *)
Definition rewritten (old new : Z) (g : way → string) (w : way) : string :=
  if decide (digits_in (g w) = str old) then "[" +:+ str new +:+ "]" else g w.

(** During the substitutions, a hit is either written in the plain form,
    or still as it was matched, and then its digits are not the numeral of
    an old value already substituted. *)
Definition written (ps : list piece) (done : dict Z Z) (g : way → string)
  : Prop :=
  ∀ w, Hit w ∈ ps →
       ∃ d, marker (g w) d ∧
            (g w = "[" +:+ d +:+ "]" ∨
             (g w = matched w ∧ ∀ old new, (old, new) ∈ done → d ≠ str old)).

(** A marker in the plain form, or one whose digits are not the numeral
    of a number (they have leading zeros). *)
Definition tidy (t : string) : Prop :=
  ∃ d, marker t d ∧ (t = "[" +:+ d +:+ "]" ∨ ∀ i, (0 <= i)%Z → d ≠ str i).

(** The numbers a text cites, in the order of the markers. *)
Definition numbers_in (s : string) : list Z :=
  omap (λ d, match int d with
             | Return n => Some n
             | Raise _ => None
             end) (findall cite_pattern s).

(** ** Retrieval, further *)


(** The entry that the fetch of the i-th URL contributes, if any. *)
Definition evidence_of (urls : list string) (t : Q) (w : Pool) (i : nat)
  : option (string * string) :=
  url ← urls !! i;
  match (fetch_webpage url t (task w i)).2 with
  | Return (u, Some text) =>
      if truthy u && truthy text then Some (u, text) else None
  | _ => None
  end.

(** A pool in which no fetch brings a text: a 404, a fetch cut off by
    the tracer, and a page without paragraphs. *)
Definition barren_pool : Pool := {|
  search := λ _ _, ["http://a"; "http://b"; "http://c"];
  task := λ i, match i with
               | 0 => {| clock_start := 0; trace_clock := [];
                         requests_get := page 404 ["gone"] |}
               | 1 => {| clock_start := 1; trace_clock := [2; 8]%Q;
                         requests_get := page 200 ["late"] |}
               | _ => {| clock_start := 0; trace_clock := [1]%Q;
                         requests_get := page 200 [] |}
               end;
  completion := [1; 2; 0]
|}.

(** A pool whose second fetch ends in an exception that [fetch_webpage]
    does not catch; it completes after the third and before the first. *)
Definition broken_pool : Pool := {|
  search := λ _ _, ["http://a"; "http://b"; "http://c"];
  task := λ i, {| clock_start := 0; trace_clock := [1]%Q;
                  requests_get := match i with
                                  | 1 => Raise (OtherError "MemoryError")
                                  | _ => page 200 ["text"]
                                  end |};
  completion := [2; 1; 0]
|}.

(** A pool of three pages that all arrive; the third completes first. *)
Definition shuffled_pool : Pool := {|
  search := λ _ _, ["http://a"; "http://b"; "http://c"];
  task := λ i, {| clock_start := 0; trace_clock := [1]%Q;
                  requests_get := match i with
                                  | 0 => page 200 ["first"]
                                  | 1 => page 200 ["second"]
                                  | _ => page 200 ["third"]
                                  end |};
  completion := [2; 0; 1]
|}.

(** ** The source list, further *)

(** The URL that the source list gives for the old number [old]: the key
    at position [old - 1], and the last key for 0. *)
Definition source_of (d : dict string string) (old : Z) : string :=
  if decide (old = 0%Z) then default "" (last (keys d))
  else nth (Z.to_nat (old - 1)) (keys d) "".

(** An evidence map with three entries. *)
Definition three_pages : dict string string :=
  [("u1", "one"); ("u2", "two"); ("u3", "three")].

(** ** Prompts *)

(** Every character is white space. *)
Fixpoint all_space (s : string) : bool :=
  match s with
  | EmptyString => true
  | String c s' => Str.is_space c && all_space s'
  end.

(** The reply is the word "no", in any case, with white space around it
    at most. *)
Definition says_no (response : string) : Prop :=
  ∃ pre n o post,
    response = pre +:+ String n (String o post) ∧
    all_space pre = true ∧ all_space post = true ∧
    (n = "n" ∨ n = "N")%char ∧ (o = "o" ∨ o = "O")%char.

(** A model that tells the two prompts of a run apart by their system
    message: [first] is its reply to the prompt of [llm_check_search],
    [second] its reply to any other prompt. *)
Definition two_replies (first second : string) (prompt : list message)
  : outcome string :=
  match prompt with
  | system :: _ =>
      if String.eqb (content system) check_search_message then Return first
      else Return second
  | [] => Return second
  end.

(** A run in which the model declines the search and answers without
    citing. *)
Definition quiet_world : World := {|
  console_input := "who?";
  chat := two_replies (" No" +:+ nl) "Nobody.";
  pool := barren_pool
|}.

(** A run in which the model asks for a search and cites the second
    entry of the evidence map. *)
Definition cited_world : World := {|
  console_input := "who?";
  chat := two_replies "who is it" "It is [2].";
  pool := shuffled_pool
|}.


(** The source section of the file, for the URLs of its lines. *)
Definition sources_section (urls : list string) : string :=
  match urls with
  | [] => ""
  | _ :: _ =>
      "## Sources" +:+ nl
      +:+ join nl (imap (λ k url, str (Z.of_nat k + 1) +:+ ". " +:+ url) urls)
      +:+ nl +:+ nl
  end.

(** ** Rewriting, piece by piece *)

(** The digits are not the numeral of a number: they have a leading
    zero. *)
Definition padded (d : string) : Prop := ∀ i, (0 <= i)%Z → d ≠ str i.

(** Two pieces at the same place of two scans: the same character, or a
    marker in both. *)
Definition aligned (p' p : piece) : Prop :=
  match p', p with
  | Keep c', Keep c => c' = c
  | Hit _, Hit _ => True
  | _, _ => False
  end.

(** * Properties *)

(** ** Dictionaries *)

Section dict_facts.
Context {K V : Type} `{EqDecision K}.
Implicit Types (d : list (K * V)) (k : K) (v : V).

Lemma keys_cons k v d : keys ((k, v) :: d) = k :: keys d.
Proof. reflexivity. Qed.

Lemma keys_dict_set d k v :
  keys (dict_set d k v) = if decide (k ∈ keys d) then keys d else keys d ++ [k].
Proof.
  induction d as [|[k' v'] d IH]; [done |].
  cbn [dict_set]. destruct (decide (k' = k)) as [->|Hne].
  - rewrite !keys_cons, decide_True; [done | by left].
  - rewrite !keys_cons, IH. destruct (decide (k ∈ keys d)) as [Hin|Hnin].
    + rewrite decide_True; [done | by right].
    + rewrite decide_False; [done |].
      intros [->|?]%elem_of_cons; done.
Qed.

Lemma dict_set_NoDup d k v : NoDup (keys d) → NoDup (keys (dict_set d k v)).
Proof.
  intros Hd. rewrite keys_dict_set. case_decide; [done |].
  apply NoDup_app. split_and!; [done | | apply NoDup_singleton].
  intros x Hx ->%list_elem_of_singleton. done.
Qed.

Lemma dict_get_set d k v k' :
  dict_get (dict_set d k v) k' = if decide (k = k') then Some v else dict_get d k'.
Proof.
  induction d as [|[k0 v0] d IH]; simpl.
  - by repeat case_decide.
  - destruct (decide (k0 = k)) as [->|Hne]; simpl.
    + by repeat case_decide.
    + rewrite IH. repeat case_decide; congruence.
Qed.

Lemma dict_get_Some_elem d k v : dict_get d k = Some v → (k, v) ∈ d.
Proof.
  induction d as [|[k0 v0] d IH]; simpl; [done |].
  case_decide; [intros [= <-]; subst; by left | intros; right; auto].
Qed.

Lemma dict_get_is_Some d k : k ∈ keys d ↔ is_Some (dict_get d k).
Proof.
  induction d as [|[k0 v0] d IH].
  - split; [by intros ?%elem_of_nil | by intros [? ?]].
  - rewrite keys_cons. cbn [dict_get]. case_decide; subst.
    + split; [eauto | intros; by left].
    + rewrite <- IH. split; [intros [?|?]%elem_of_cons; done | by right].
Qed.

Lemma dict_set_values (P : V → Prop) d k v :
  P v → Forall (λ kv, P kv.2) d → Forall (λ kv, P kv.2) (dict_set d k v).
Proof.
  intros Hv. induction 1 as [|[k0 v0] d Hx Hd IH]; simpl.
  - by repeat constructor.
  - case_decide; constructor; auto.
Qed.
End dict_facts.

(** ** The page fetcher *)

Lemma Qgtb_true (a b : Q) : Qgtb a b = true ↔ (b < a)%Q.
Proof.
  unfold Qgtb. rewrite negb_true_iff, <- not_true_iff_false, Qle_bool_iff.
  split; [apply Qnot_le_lt | apply Qlt_not_le].
Qed.

Lemma expired_true start now :
  expired start now = true ↔ (start + TOTAL_TIMEOUT < now)%Q.
Proof. unfold expired. rewrite Qgtb_true. split; intros; lra. Qed.

Lemma trace_function_expired start now :
  trace_function_factory start now =
  if expired start now then Raise TimeoutError else Return ().
Proof. reflexivity. Qed.

Lemma traced_expired {A} start ticks (block : outcome A) :
  traced (trace_function_factory start) ticks block =
  if existsb (expired start) ticks then Raise TimeoutError else block.
Proof.
  induction ticks as [|now later IH]; [reflexivity |].
  cbn [traced existsb]. rewrite trace_function_expired.
  destruct (expired start now); cbn; [reflexivity | exact IH].
Qed.

Lemma fetch_block_cases url w :
  declared w →
  (∃ text, fetch_block url w = Return (url, Some text)) ∨
  (∃ e, fetch_block url w = Raise e ∧ caught_by_fetch e = true).
Proof.
  unfold declared, fetch_block. destruct (requests_get w) as [r|e]; cbn.
  - intros _. unfold raise_for_status. case_match; cbn; eauto.
  - eauto.
Qed.

Lemma fetch_webpage_returns url timeout w :
  declared w → ∃ x, (fetch_webpage url timeout w).2 = Return (url, x).
Proof.
  intros Hw. cbn. rewrite traced_expired.
  destruct (existsb _ _); cbn; [eauto |].
  destruct (fetch_block_cases url w Hw) as [[text ->]|(e & -> & He)]; cbn; [eauto |].
  rewrite He. eauto.
Qed.

Lemma fetch_webpage_fst url timeout w r :
  (fetch_webpage url timeout w).2 = Return r → r.1 = url.
Proof.
  cbn. rewrite traced_expired.
  destruct (existsb _ _); cbn; [by intros [= <-] |].
  unfold fetch_block. destruct (requests_get w) as [resp|e]; cbn.
  - unfold raise_for_status. case_match; cbn; by intros [= <-].
  - destruct (caught_by_fetch e); [by intros [= <-] | done].
Qed.

Lemma fetch_webpage_in_time url timeout w :
  Forall (λ now, now <= clock_start w + TOTAL_TIMEOUT)%Q (trace_clock w) →
  (fetch_webpage url timeout w).2 =
  try_except (fetch_block url w) caught_by_fetch (Return (url, None)).
Proof.
  intros Hall. cbn. rewrite traced_expired.
  assert (existsb (expired (clock_start w)) (trace_clock w) = false) as ->; [|done].
  apply not_true_iff_false. intros (now & Hin & Hexp)%existsb_exists.
  apply expired_true in Hexp. rewrite Forall_forall in Hall.
  apply list_elem_of_In, Hall in Hin. lra.
Qed.



(** C6, counterexample: the phase starts at 0 and a task is picked up by a
    worker at 5.  One second is left under a deadline of 0 + 6, yet the
    GET is issued with the full 3 seconds, and the tracer, called at 6.5,
    lets the fetch go on to succeed: it measures from 5, not from 0. *)
Lemma global_deadline_counterexample :
  let w := {| clock_start := 5; trace_clock := [13 # 2]%Q;
              requests_get := page 200 ["hi"] |} in
  (0 <= clock_start w)%Q ∧
  (fetch_webpage "http://a" 3 w).1 =
    [SetTrace (Some 5%Q); HttpGet "http://a" 3; SetTrace None] ∧
  (Qmin 3 (0 + TOTAL_TIMEOUT - clock_start w) == 1)%Q ∧
  (¬ ∃ t', HttpGet "http://a" t' ∈ (fetch_webpage "http://a" 3 w).1 ∧
           (t' == Qmin 3 (0 + TOTAL_TIMEOUT - clock_start w))%Q) ∧
  (0 + TOTAL_TIMEOUT < 13 # 2)%Q ∧
  (fetch_webpage "http://a" 3 w).2 = Return ("http://a", Some "hi") ∧
  ¬ global_deadline_claim 0 "http://a" 3 w.
Proof.
  intros w. split_and!; try reflexivity.
  - by vm_compute.
  - intros (t' & Hin & Heq). cbn in Hin.
    apply elem_of_cons in Hin as [Hin|Hin]; [done |].
    apply elem_of_cons in Hin as [[= ->]|Hin].
    + vm_compute in Heq. discriminate Heq.
    + apply elem_of_cons in Hin as [Hin|Hin]; [done | by apply elem_of_nil in Hin].
  - intros [_ Hfail].
    specialize (Hfail (13 # 2)%Q). discriminate Hfail; [by left | reflexivity].
Qed.

(** C6, as the code does it: every invocation issues its GET with the
    per-item timeout [t] itself, and its tracer is made from its own
    entry time, so that [TOTAL_TIMEOUT] is measured from there and no
    deadline is shared by the fetches.  While every trace event comes no
    later than [TOTAL_TIMEOUT] after that entry, the request alone
    decides the outcome; a [TimeoutError] of the tracer that reaches the
    [try] statement gives [(url, None)], whatever [t] is. *)
Theorem fetch_webpage_own_deadline (url : string) (t : Q) (w : Invocation) :
  (fetch_webpage url t w).1 =
    [SetTrace (Some (clock_start w)); HttpGet url t; SetTrace None] ∧
  (Forall (λ now, now <= clock_start w + TOTAL_TIMEOUT)%Q (trace_clock w) →
          (fetch_webpage url t w).2 =
          try_except (fetch_block url w) caught_by_fetch (Return (url, None))) ∧
  (traced (trace_function_factory (clock_start w)) (trace_clock w)
          (fetch_block url w) = Raise TimeoutError →
          (fetch_webpage url t w).2 = Return (url, None)).
Proof.
  split_and!; [reflexivity | apply fetch_webpage_in_time |].
  intros Hstop. unfold fetch_webpage. cbn [snd]. by rewrite Hstop.
Qed.

Lemma fetch_webpage_own_deadline_witness :
  let w := {| clock_start := 5; trace_clock := [13 # 2]%Q;
              requests_get := page 200 ["hi"] |} in
  let w' := {| clock_start := 5; trace_clock := [13 # 2; 12]%Q;
               requests_get := page 200 ["hi"] |} in
  (Forall (λ now, now <= clock_start w + TOTAL_TIMEOUT)%Q (trace_clock w) ∧
   (fetch_webpage "http://a" 3 w).2 =
   try_except (fetch_block "http://a" w) caught_by_fetch
              (Return ("http://a", None))) ∧
  (traced (trace_function_factory (clock_start w')) (trace_clock w')
          (fetch_block "http://a" w') = Raise TimeoutError ∧
   (fetch_webpage "http://a" 3 w').2 = Return ("http://a", None)).
Proof.
  intros w w'.
  assert (Forall (λ now, now <= clock_start w + TOTAL_TIMEOUT)%Q (trace_clock w))
    as Hin.
  { apply Forall_cons. split; [|apply Forall_nil_2]. cbn. unfold Qle. cbn. lia. }
  assert (traced (trace_function_factory (clock_start w')) (trace_clock w')
                 (fetch_block "http://a" w') = Raise TimeoutError) as Hstop
    by reflexivity.
  split; (split; [done|]).
  - exact (proj1 (proj2 (fetch_webpage_own_deadline "http://a" 3 w)) Hin).
  - exact (proj2 (proj2 (fetch_webpage_own_deadline "http://a" 3 w')) Hstop).
Defined.

(** ** The scheduler *)

Lemma collect_returned done d :
  Forall (λ f, ∃ r, f = Return r) done →
  collect done d = Return (fold_left keep (returned done) d).
Proof.
  intros Hall. revert d. induction Hall as [|f done [r ->] _ IH]; intros d; [done |].
  cbn. unfold keep at 2, kept. destruct r as [url text]; cbn.
  destruct (truthy url); cbn; [|apply IH].
  destruct text as [text|]; cbn; [|apply IH].
  destruct (truthy text); apply IH.
Qed.

Lemma collect_raises done d e :
  collect done d = Raise e → Raise e ∈ done.
Proof.
  revert d. induction done as [|f done IH]; intros d; [done |].
  destruct f as [[url text]|e']; cbn.
  - intros H. right.
    destruct (truthy url); cbn in H;
      [destruct text as [text|]; [destruct (truthy text) |] |]; eauto.
  - intros [= ->]. by left.
Qed.

Lemma keep_keys rs d u :
  u ∈ keys (fold_left keep rs d) →
  u ∈ keys d ∨ ∃ r, r ∈ rs ∧ kept r = true ∧ r.1 = u.
Proof.
  revert d. induction rs as [|r rs IH]; intros d; cbn; [by left |].
  intros [Hd|(r' & ? & ? & ?)]%IH.
  - unfold keep in Hd. destruct (kept r) eqn:Hr.
    + rewrite keys_dict_set in Hd. case_decide; [by left |].
      apply elem_of_app in Hd as [?| ->%list_elem_of_singleton]; [by left |].
      right. exists r. split_and!; [by left | done..].
    + by left.
  - right. exists r'. split_and!; [by right | done..].
Qed.

Lemma keep_NoDup rs d : NoDup (keys d) → NoDup (keys (fold_left keep rs d)).
Proof.
  revert d. induction rs as [|r rs IH]; intros d Hd; [done |].
  cbn. apply IH. unfold keep. destruct (kept r); [by apply dict_set_NoDup | done].
Qed.

Lemma keep_truthy rs d :
  Forall (λ kv, truthy kv.2 = true) d →
  Forall (λ kv, truthy kv.2 = true) (fold_left keep rs d).
Proof.
  revert d. induction rs as [|r rs IH]; intros d Hd; [done |].
  cbn. apply IH. unfold keep. destruct (kept r) eqn:Hr; [|done].
  apply (dict_set_values (λ v, truthy v = true)); [|done].
  unfold kept in Hr. apply andb_true_iff in Hr as [_ Hr].
  destruct r as [u [t|]]; [done | discriminate].
Qed.

(** Last write wins: the entry of [u] is the text of the last kept result
    for [u]. *)
Lemma keep_last rs d u :
  dict_get (fold_left keep rs d) u =
  match last (filter (λ r, r.1 = u ∧ kept r = true) rs) with
  | Some r => r.2
  | None => dict_get d u
  end.
Proof.
  revert d. induction rs as [|r rs IH] using rev_ind; intros d; [done |].
  rewrite fold_left_app, filter_app, last_app. cbn [fold_left].
  rewrite filter_cons, filter_nil. unfold keep at 1.
  destruct (decide (r.1 = u ∧ kept r = true)) as [[<- Hr]|Hn].
  - cbn. rewrite Hr, dict_get_set, decide_True by done.
    unfold kept in Hr. apply andb_true_iff in Hr as [_ Hr].
    destruct r as [u [t|]]; [done | discriminate].
  - cbn. rewrite <- IH. destruct (kept r) eqn:Hr; [|done].
    rewrite dict_get_set, decide_False; [done | naive_solver].
Qed.

Lemma keep_elem rs d r :
  r ∈ rs → kept r = true → r.1 ∈ keys (fold_left keep rs d).
Proof.
  intros Hin Hr. apply dict_get_is_Some. rewrite keep_last.
  destruct (last _) as [r'|] eqn:Hlast.
  - apply last_Some in Hlast as [l' Hl'].
    assert (r' ∈ filter (λ r0, r0.1 = r.1 ∧ kept r0 = true) rs) as Hr'.
    { rewrite Hl'. apply elem_of_app. right. by left. }
    apply list_elem_of_filter in Hr' as [[_ Hk] _].
    unfold kept in Hk. apply andb_true_iff in Hk as [_ Hk].
    destruct r' as [u' [t'|]]; [eauto | discriminate].
  - exfalso. apply last_None in Hlast.
    assert (r ∈ filter (λ r0, r0.1 = r.1 ∧ kept r0 = true) rs) as Hr'.
    { apply list_elem_of_filter. done. }
    rewrite Hlast in Hr'. by apply elem_of_nil in Hr'.
Qed.

(** The futures that [as_completed] yields are submitted futures. *)
Lemma as_completed_elem order fs f :
  f ∈ as_completed order fs → f ∈ fs.
Proof.
  unfold as_completed. intros (i & _ & Hi)%list_elem_of_omap.
  by eapply list_elem_of_lookup_2.
Qed.

Lemma submit_all_lookup urls t w i :
  submit_all urls t w !! i =
  (λ url, (fetch_webpage url t (task w i)).2) <$> urls !! i.
Proof. unfold submit_all. apply list_lookup_imap. Qed.

Lemma submit_all_elem urls t w f :
  f ∈ submit_all urls t w →
  ∃ i url, urls !! i = Some url ∧ f = (fetch_webpage url t (task w i)).2.
Proof.
  unfold submit_all. intros (i & url & -> & Hi)%elem_of_lookup_imap. eauto.
Qed.

Lemma as_completed_full order fs i f :
  i ∈ order → fs !! i = Some f → f ∈ as_completed order fs.
Proof.
  intros Hi Hf. unfold as_completed. apply list_elem_of_omap. eauto.
Qed.

Lemma returned_elem fs r : r ∈ returned fs ↔ Return r ∈ fs.
Proof.
  unfold returned. rewrite list_elem_of_omap. split.
  - intros ([r'|e] & Hin & [= <-]). done.
  - intros Hin. eauto.
Qed.

Section pool.
Context (query : string) (num_search : nat) (t : Q) (w : Pool).

Local Abbreviation urls := (search w query num_search).
Local Abbreviation done := (as_completed (completion w) (submit_all urls t w)).

Hypothesis Hw : all_declared w (length urls).

Lemma completed_return f :
  f ∈ done → ∃ url x, url ∈ urls ∧ f = Return (url, x).
Proof.
  intros (i & url & Hurl & ->)%as_completed_elem%submit_all_elem.
  destruct (fetch_webpage_returns url t (task w i)) as [x Hx].
  { apply Hw. by eapply lookup_lt_Some. }
  exists url, x. split; [by eapply list_elem_of_lookup_2 | done].
Qed.

Lemma google_parse_webpages_returned :
  google_parse_webpages query num_search t w =
  Return (fold_left keep (returned done) []).
Proof.
  unfold google_parse_webpages. apply collect_returned.
  apply Forall_forall. intros f (url & x & _ & ->)%completed_return. eauto.
Qed.

End pool.


Lemma sample_pool_declared : all_declared sample_pool 3.
Proof. intros [|[|[|i]]] _; exact I. Qed.


(** The uninterrupted fetch of a page: status outside 400..599, tracer
    only called within the deadline. *)
Lemma fetch_webpage_success url t w r :
  requests_get w = Return r →
  ¬ (400 <= status_code r < 600)%Z →
  Forall (λ now, now <= clock_start w + TOTAL_TIMEOUT)%Q (trace_clock w) →
  (fetch_webpage url t w).2 = Return (url, Some (join " " (paragraphs r))).
Proof.
  intros Hr Hst Hticks. rewrite fetch_webpage_in_time by done.
  unfold fetch_block. rewrite Hr. cbn. unfold raise_for_status.
  assert ((400 <=? status_code r)%Z && (status_code r <? 600)%Z = false) as ->; [|done].
  apply not_true_iff_false. rewrite andb_true_iff, Z.leb_le, Z.ltb_lt. lia.
Qed.

(** C2, counterexample: the only URL is fetched with status 200 and a
    body without paragraph elements.  The fetcher returns the empty text,
    and the dictionary has no entry for the URL. *)
Lemma empty_page_counterexample :
  let w := {| search := λ _ _, ["http://a"];
              task := λ _, {| clock_start := 0; trace_clock := [1]%Q;
                              requests_get := page 200 [] |};
              completion := [0] |} in
  (fetch_webpage "http://a" SEARCH_TIME_LIMIT (task w 0)).2
    = Return ("http://a", Some "") ∧
  google_parse_webpages "q" NUM_SEARCH SEARCH_TIME_LIMIT w = Return [] ∧
  dict_get ([] : dict string string) "http://a" = None.
Proof. split_and!; reflexivity. Qed.

(** C2, as the code does it: a fetch that succeeds returns the paragraph
    texts joined by single spaces, the empty string when there is none;
    a result with an empty text is passed over; the scheduler enters a
    returned text under its URL if the URL and the text are both
    non-empty, and no entry of the dictionary has an empty text. *)
Theorem success_inserted_when_nonempty (query : string) (num_search : nat)
    (t : Q) (w : Pool) :
  all_declared w (length (search w query num_search)) →
  completion w ≡ₚ seq 0 (length (search w query num_search)) →
  (∀ url t' w' r,
      requests_get w' = Return r → ¬ (400 <= status_code r < 600)%Z →
      Forall (λ now, now <= clock_start w' + TOTAL_TIMEOUT)%Q (trace_clock w') →
      (fetch_webpage url t' w').2 = Return (url, Some (join " " (paragraphs r))) ∧
      (paragraphs r = [] → (fetch_webpage url t' w').2 = Return (url, Some ""))) ∧
  (∀ url rest d, collect (Return (url, Some "") :: rest) d = collect rest d) ∧
  ∃ d, google_parse_webpages query num_search t w = Return d ∧
       (∀ i url text,
           search w query num_search !! i = Some url →
           (fetch_webpage url t (task w i)).2 = Return (url, Some text) →
           url ≠ "" → text ≠ "" → url ∈ keys d) ∧
       (∀ url text, (url, text) ∈ d → text ≠ "").
Proof.
  intros Hw Hperm. split.
  { intros url t' w' r Hr Hst Hticks.
    pose proof (fetch_webpage_success url t' w' r Hr Hst Hticks) as Hf.
    split; [done |]. intros Hp. by rewrite Hf, Hp. }
  split.
  { intros url rest d. cbn. by destruct (truthy url). }
  eexists. split; [by apply google_parse_webpages_returned |]. split.
  - intros i url text Hurl Hfetch Hu Ht.
    apply (keep_elem _ _ (url, Some text)).
    + apply returned_elem. rewrite <- Hfetch.
      apply (as_completed_full _ _ i).
      * rewrite Hperm. apply elem_of_seq. apply lookup_lt_Some in Hurl. lia.
      * by rewrite submit_all_lookup, Hurl.
    + unfold kept. cbn. by destruct url, text.
  - intros url text Hin.
    pose proof (keep_truthy
      (returned (as_completed (completion w)
                   (submit_all (search w query num_search) t w))) []
      (Forall_nil_2 _)) as Hall.
    rewrite Forall_forall in Hall. apply Hall in Hin. by destruct text.
Qed.

Lemma success_inserted_when_nonempty_witness :
  ∃ d, google_parse_webpages "q" NUM_SEARCH SEARCH_TIME_LIMIT sample_pool = Return d ∧
       "http://a" ∈ keys d.
Proof.
  assert (completion sample_pool ≡ₚ seq 0 3) as Hperm.
  { exact (perm_trans (perm_swap 0 2 [1]) (perm_skip 0 (perm_swap 1 2 []))). }
  destruct (success_inserted_when_nonempty "q" NUM_SEARCH SEARCH_TIME_LIMIT
              sample_pool sample_pool_declared Hperm)
    as (_ & _ & d & Hd & Hkeys & _).
  exists d. split; [exact Hd |].
  apply (Hkeys 0 "http://a" "one two"); [reflexivity | reflexivity | done | done].
Defined.

(** C9, counterexample: the same URL twice; the fetch that completes first
    returns a text, the one that completes last succeeds with an empty
    text.  The entry keeps the first text. *)
Lemma last_success_counterexample :
  let w := {| search := λ _ _, ["http://a"; "http://a"];
              task := λ i, {| clock_start := 0; trace_clock := [];
                              requests_get :=
                                match i with
                                | 0 => page 200 ["abc"]
                                | _ => page 200 []
                                end |};
              completion := [0; 1] |} in
  returned (as_completed (completion w)
              (submit_all (search w "q" NUM_SEARCH) SEARCH_TIME_LIMIT w))
    = [("http://a", Some "abc"); ("http://a", Some "")] ∧
  google_parse_webpages "q" NUM_SEARCH SEARCH_TIME_LIMIT w
    = Return [("http://a", "abc")] ∧
  dict_get [("http://a", "abc")] "http://a" ≠ Some "".
Proof. split_and!; [reflexivity | reflexivity | discriminate]. Qed.

(** C9, as the code does it: each occurrence of a URL is a task of its
    own; the keys of the dictionary are unique; the entry of a URL holds
    the text of the fetch of that URL that completed last among those
    that returned a non-empty text, and there is no entry if there is no
    such fetch. *)
Theorem duplicates_last_kept_wins (query : string) (num_search : nat)
    (t : Q) (w : Pool) :
  all_declared w (length (search w query num_search)) →
  ∃ d, google_parse_webpages query num_search t w = Return d ∧
       NoDup (keys d) ∧
       (∀ i url, search w query num_search !! i = Some url →
                 submit_all (search w query num_search) t w !! i
                 = Some (fetch_webpage url t (task w i)).2) ∧
       (∀ u, dict_get d u =
             r ← last (filter (λ r, r.1 = u ∧ kept r = true)
                         (returned (as_completed (completion w)
                            (submit_all (search w query num_search) t w))));
             r.2).
Proof.
  intros Hw. eexists. split; [by apply google_parse_webpages_returned |].
  split_and!.
  - apply keep_NoDup. constructor.
  - intros i url Hurl. by rewrite submit_all_lookup, Hurl.
  - intros u. rewrite keep_last. by destruct (last _).
Qed.

Lemma duplicates_last_kept_wins_witness :
  ∃ d, google_parse_webpages "q" NUM_SEARCH SEARCH_TIME_LIMIT twice_pool = Return d ∧
       NoDup (keys d) ∧ dict_get d "http://a" = Some "new".
Proof.
  assert (all_declared twice_pool 3) as Hw by (intros [|[|i]] _; exact I).
  destruct (duplicates_last_kept_wins "q" NUM_SEARCH SEARCH_TIME_LIMIT twice_pool Hw)
    as (d & Hd & Hnd & _ & Hget).
  exists d. split_and!; [exact Hd | exact Hnd |].
  rewrite Hget. reflexivity.
Defined.

(** ** The source list *)

Lemma index_in_range {A} (l : list A) (i : Z) (x : A) :
  (0 <= i)%Z → l !! Z.to_nat i = Some x → index l i = Return x.
Proof.
  intros Hi Hx. unfold index.
  destruct (i <? 0)%Z eqn:Hneg; [apply Z.ltb_lt in Hneg; lia |].
  rewrite Hneg. by rewrite Hx.
Qed.

Lemma index_too_large {A} (l : list A) (i : Z) :
  (Z.of_nat (length l) <= i)%Z → index l i = Raise IndexError.
Proof.
  intros Hi. unfold index.
  destruct (i <? 0)%Z eqn:Hneg; [apply Z.ltb_lt in Hneg; lia |].
  rewrite Hneg. rewrite lookup_ge_None_2; [done | lia].
Qed.

Lemma index_raises {A} (l : list A) (i : Z) e :
  index l i = Raise e → e = IndexError.
Proof.
  unfold index. repeat case_match; congruence.
Qed.

Lemma cited_link_pair d old new :
  cited_link d (old, new) =
  url ← index (keys d) (old - 1); Return (str new +:+ ". " +:+ url).
Proof. reflexivity. Qed.

Lemma mapM_outcome_cons {A B} (f : A → outcome B) x l :
  mapM f (x :: l) = y ← f x; k ← mapM f l; Return (y :: k).
Proof. reflexivity. Qed.

Lemma generate_citation_links_Some citation_map d :
  generate_citation_links citation_map (Some d) =
  cited_links ← mapM (cited_link d) citation_map; Return (join nl cited_links).
Proof.
  unfold generate_citation_links. f_equal.
  induction citation_map as [|[old new] cm IH]; [done |].
  cbn [mapM]. by rewrite IH.
Qed.

Lemma mapM_cited_link_in_range d citation_map :
  Forall (λ pair, 1 <= pair.1 <= Z.of_nat (length d))%Z citation_map →
  mapM (cited_link d) citation_map =
  Return (map (λ pair, str pair.2 +:+ ". "
                       +:+ nth (Z.to_nat (pair.1 - 1)) (keys d) "") citation_map).
Proof.
  induction 1 as [|[old new] cm Hold _ IH]; [done |].
  rewrite mapM_outcome_cons, IH, cited_link_pair. cbn [map fst snd] in *.
  assert (Z.to_nat (old - 1) < length (keys d))%nat as Hlt.
  { unfold keys. rewrite length_fmap. lia. }
  apply lookup_lt_is_Some in Hlt as [url Hurl].
  rewrite (index_in_range _ _ url) by (done || lia).
  by rewrite (nth_lookup_Some _ _ _ _ Hurl).
Qed.

Lemma mapM_cited_link_too_large d citation_map :
  Exists (λ pair, Z.of_nat (length d) < pair.1)%Z citation_map →
  mapM (cited_link d) citation_map = Raise IndexError.
Proof.
  induction 1 as [[old new] cm Hold|[old new] cm _ IH].
  - rewrite mapM_outcome_cons, cited_link_pair. cbn [fst snd] in *.
    rewrite index_too_large; [done |]. unfold keys. rewrite length_fmap. lia.
  - rewrite mapM_outcome_cons, IH, cited_link_pair.
    destruct (index (keys d) (old - 1)) as [url|e] eqn:Hidx; [done |].
    by apply index_raises in Hidx as ->.
Qed.

(** C5: when every old marker value is a position of the evidence map,
    the source list is one line "new. url" per pair of the citation map,
    in the map's order, with the url the key at position old - 1, joined
    by newlines; for the map 2:1, 5:2, 9:3 and keys u1 to u9 it is
    the three lines 1. u2, 2. u5, 3. u9. *)
Theorem generate_citation_links_in_range (citation_map : dict Z Z)
    (d : dict string string) :
  Forall (λ pair, 1 <= pair.1 <= Z.of_nat (length d))%Z citation_map →
  generate_citation_links citation_map (Some d) =
    Return (join nl (map (λ pair, str pair.2 +:+ ". "
                            +:+ nth (Z.to_nat (pair.1 - 1)) (keys d) "")
                         citation_map)) ∧
  generate_citation_links [(2, 1); (5, 2); (9, 3)]%Z
    (Some (map (λ u, (u, "text"))
             ["u1"; "u2"; "u3"; "u4"; "u5"; "u6"; "u7"; "u8"; "u9"])) =
    Return ("1. u2" +:+ nl +:+ "2. u5" +:+ nl +:+ "3. u9").
Proof.
  intros Hrange. split; [|reflexivity].
  by rewrite generate_citation_links_Some, mapM_cited_link_in_range.
Qed.

Lemma generate_citation_links_in_range_witness :
  generate_citation_links [(9, 1); (1, 2)]%Z (Some nine_pages) =
  Return ("1. u9" +:+ nl +:+ "2. u1").
Proof.
  refine (eq_trans (proj1 (generate_citation_links_in_range
                             [(9, 1); (1, 2)]%Z nine_pages _)) _).
  - repeat constructor; cbn; lia.
  - reflexivity.
Defined.

(** The marker 0 is looked up at index -1, the last key. *)
Example generate_citation_links_zero :
  generate_citation_links [(0, 1)]%Z (Some [("u1", "text"); ("u2", "text")])
  = Return "1. u2".
Proof. reflexivity. Qed.

(** C1, counterexample: the answer cites 2, 5 and 9 and the evidence map
    has five entries.  No source list comes back, with or without a
    placeholder: the call raises [IndexError], and so does
    [save_markdown], which writes nothing. *)
Lemma citation_beyond_evidence_counterexample :
  let d := map (λ u, (u, "text")) ["u1"; "u2"; "u3"; "u4"; "u5"] in
  (Z.of_nat (length d) < 9)%Z ∧
  renumber_citations "a [5] b [2] c [5] d [9]."
    = Return ("a [2] b [1] c [2] d [3].", [(2, 1); (5, 2); (9, 3)]%Z) ∧
  generate_citation_links [(2, 1); (5, 2); (9, 3)]%Z (Some d) = Raise IndexError ∧
  (¬ ∃ links, generate_citation_links [(2, 1); (5, 2); (9, 3)]%Z (Some d)
              = Return links) ∧
  save_markdown "q" "a [5] b [2] c [5] d [9]." (Some d) = Raise IndexError.
Proof.
  split_and!; [done | by vm_compute | by vm_compute | | by vm_compute].
  intros [links H]. vm_compute in H. discriminate H.
Qed.

(** C1, as the code does it: if some old marker value exceeds the number
    of entries of the evidence map, [generate_citation_links] raises
    [IndexError] and yields no source list, hence no link at all; the
    exception passes through [save_markdown], which writes no file. *)
Theorem generate_citation_links_out_of_range (citation_map : dict Z Z)
    (d : dict string string) :
  Exists (λ pair, Z.of_nat (length d) < pair.1)%Z citation_map →
  generate_citation_links citation_map (Some d) = Raise IndexError ∧
  (∀ query response response',
      renumber_citations response = Return (response', citation_map) →
      save_markdown query response (Some d) = Raise IndexError).
Proof.
  intros Hbeyond.
  assert (generate_citation_links citation_map (Some d) = Raise IndexError) as Hgen.
  { by rewrite generate_citation_links_Some, mapM_cited_link_too_large. }
  split; [exact Hgen |].
  intros query response response' Hren. unfold save_markdown. rewrite Hren. cbn.
  destruct citation_map as [|pair cm]; [by apply Exists_nil in Hbeyond |].
  by rewrite Hgen.
Qed.

Lemma generate_citation_links_out_of_range_witness :
  generate_citation_links [(1, 1); (7, 2)]%Z
    (Some [("u1", "text"); ("u2", "text")]) = Raise IndexError.
Proof.
  refine (proj1 (generate_citation_links_out_of_range
                   [(1, 1); (7, 2)]%Z [("u1", "text"); ("u2", "text")] _)).
  apply Exists_cons_tl, Exists_cons_hd. cbn. lia.
Defined.

(** ** Strings *)

Lemma str_app_cons (c : ascii) (s t : string) :
  String c s +:+ t = String c (s +:+ t).
Proof. reflexivity. Qed.

Lemma str_app_nil_l (s : string) : "" +:+ s = s.
Proof. reflexivity. Qed.

Lemma str_app_nil_r (s : string) : s +:+ "" = s.
Proof. induction s as [|c s IH]; [done |]. by rewrite str_app_cons, IH. Qed.

Lemma str_app_assoc (s1 s2 s3 : string) :
  (s1 +:+ s2) +:+ s3 = s1 +:+ (s2 +:+ s3).
Proof. induction s1 as [|c s1 IH]; [done |]. by rewrite !str_app_cons, IH. Qed.

Lemma str_app_length (s1 s2 : string) :
  String.length (s1 +:+ s2) = (String.length s1 + String.length s2)%nat.
Proof.
  induction s1 as [|c s1 IH]; [done |]. rewrite str_app_cons. cbn. by rewrite IH.
Qed.

(** ** The matcher *)

Lemma plus_ways_split a s w : w ∈ plus_ways a s → s = matched w +:+ rest w.
Proof.
  revert w. induction s as [|c s IH]; intros w; cbn; [by intros ?%elem_of_nil |].
  destruct (accepts a c); [|by intros ?%elem_of_nil].
  rewrite elem_of_app, list_elem_of_fmap, list_elem_of_singleton.
  intros [(w' & -> & Hw')| ->]; cbn; [|done]. rewrite str_app_cons. f_equal. by apply IH.
Qed.

(** A way of matching takes a prefix off the input. *)
Lemma ways_split r s w : w ∈ ways r s → s = matched w +:+ rest w.
Proof.
  revert s w. induction r as [|a|r IH|a|r IH|r1 IH1 r2 IH2]; intros s w; cbn.
  - by intros ->%list_elem_of_singleton.
  - destruct s as [|c s]; [by intros ?%elem_of_nil |].
    destruct (accepts a c); [|by intros ?%elem_of_nil].
    by intros ->%list_elem_of_singleton.
  - rewrite elem_of_app, list_elem_of_singleton. intros [Hw| ->]; [by apply IH | done].
  - apply plus_ways_split.
  - rewrite list_elem_of_fmap. intros (w' & -> & Hw'). cbn. by apply IH.
  - rewrite list_elem_of_bind. intros (w1 & Hw & Hw1).
    apply list_elem_of_bind in Hw as (w2 & Hw & Hw2).
    apply list_elem_of_singleton in Hw as ->. cbn.
    rewrite str_app_assoc, <- (IH2 _ _ Hw2). by apply IH1.
Qed.

Lemma match_at_split r s w : match_at r s = Some w → s = matched w +:+ rest w.
Proof.
  unfold match_at. intros Hw. apply (ways_split r).
  destruct (ways r s) as [|w' l]; [done |]. injection Hw as ->. by left.
Qed.

Lemma match_at_shorter r s w c t :
  match_at r s = Some w → matched w = String c t →
  (String.length (rest w) < String.length s)%nat.
Proof.
  intros Hs%match_at_split Hm.
  apply (f_equal String.length) in Hs. rewrite str_app_length, Hm in Hs. cbn in Hs. lia.
Qed.

Lemma scan_fuel_irrelevant r fuel1 fuel2 s :
  (String.length s < fuel1)%nat → (String.length s < fuel2)%nat →
  scan_fuel fuel1 r s = scan_fuel fuel2 r s.
Proof.
  revert fuel2 s. induction fuel1 as [|fuel1 IH]; intros fuel2 s H1 H2; [lia |].
  destruct fuel2 as [|fuel2]; [lia |]. cbn [scan_fuel].
  assert (step_over (scan_fuel fuel1 r) s = step_over (scan_fuel fuel2 r) s) as Hstep.
  { destruct s as [|c s']; [done |]. cbn in *. f_equal. apply IH; lia. }
  destruct (match_at r s) as [w|] eqn:Hw; [|exact Hstep].
  destruct (matched w) as [|c t] eqn:Hm; [by rewrite Hstep |].
  pose proof (match_at_shorter r s w c t Hw Hm) as Hlt.
  f_equal. apply IH; lia.
Qed.

Lemma scan_fuel_enough r fuel s :
  (String.length s < fuel)%nat → scan_fuel fuel r s = scan r s.
Proof. intros Hs. apply scan_fuel_irrelevant; [done | lia]. Qed.

(** The equation of [scan], free of fuel. *)
Lemma scan_eq r s :
  scan r s =
  match match_at r s with
  | None => step_over (scan r) s
  | Some w =>
      match matched w with
      | EmptyString => Hit w :: step_over (scan r) s
      | String _ _ => Hit w :: scan r (rest w)
      end
  end.
Proof.
  unfold scan at 1. cbn [scan_fuel].
  destruct (match_at r s) as [w|] eqn:Hw.
  - destruct (matched w) as [|c t] eqn:Hm.
    + by destruct s.
    + f_equal. apply scan_fuel_enough. by eapply match_at_shorter.
  - by destruct s.
Qed.

(** *** The two bracket patterns, piece by piece *)

Lemma bind_nil {A B} (f : A → list B) : ([] ≫= f) = [].
Proof. reflexivity. Qed.

Lemma bind_singleton {A B} (f : A → B) (l : list A) :
  (l ≫= λ x, [f x]) = f <$> l.
Proof.
  induction l as [|x l IH]; [done |]. by rewrite bind_cons, fmap_cons, IH.
Qed.

Lemma ways_cat r1 r2 s :
  ways (Cat r1 r2) s =
  w1 ← ways r1 s; after (matched w1) (group1 w1) <$> ways r2 (rest w1).
Proof. cbn [ways]. f_equal. Qed.

Lemma ways_one c s :
  ways (One (Chr c)) s =
  match expect c s with
  | Some s' => [Way (String c "") s' None]
  | None => []
  end.
Proof.
  destruct s as [|c' s']; [done |]. cbn [ways accepts expect].
  by destruct (Ascii.eqb_spec c c') as [<-|].
Qed.

Lemma ways_cat_one c r2 s :
  ways (Cat (One (Chr c)) r2) s =
  match expect c s with
  | Some s' => after (String c "") None <$> ways r2 s'
  | None => []
  end.
Proof.
  rewrite ways_cat, ways_one. destruct (expect c s) as [s'|]; [|done].
  rewrite bind_cons. cbn [matched rest group1]. apply app_nil_r.
Qed.

(** [c?] followed by a pattern that cannot start with [c]: no
    backtracking over the optional character. *)
Lemma ways_cat_opt c r2 s :
  (∀ x, ways r2 (String c x) = []) →
  ways (Cat (Opt (One (Chr c))) r2) s =
  after (strip c s).1 None <$> ways r2 (strip c s).2.
Proof.
  intros Hr2. rewrite ways_cat. cbn [ways]. fold (ways (One (Chr c)) s).
  rewrite ways_one. unfold strip.
  destruct (expect c s) as [s'|] eqn:Hs.
  - rewrite bind_app, !bind_cons. cbn [matched rest group1 fst snd].
    destruct s as [|c' x]; [done |]. cbn in Hs.
    destruct (Ascii.eqb_spec c c') as [<-|]; [|done].
    rewrite Hr2. cbn. by rewrite !app_nil_r.
  - rewrite bind_app, bind_nil, bind_cons, bind_nil.
    cbn [matched rest group1 fst snd app]. apply app_nil_r.
Qed.

Lemma digits_of_non_digit c x :
  is_digit c = false → digits_of (String c x) = ("", String c x).
Proof. intros Hc. cbn. by rewrite Hc. Qed.

(** [\d+] followed by a pattern that cannot start with a digit: the
    longest run of digits is the only one to try. *)
Lemma bind_plus_digit {B} (k : way → list B) s :
  (∀ w c x, rest w = String c x → is_digit c = true → k w = []) →
  (plus_ways Digit s ≫= k) =
  match (digits_of s).1 with
  | EmptyString => []
  | String _ _ => k (Way (digits_of s).1 (digits_of s).2 None)
  end.
Proof.
  revert k. induction s as [|c s IH]; intros k Hk; [done |].
  cbn [plus_ways digits_of accepts]. destruct (is_digit c) eqn:Hc; [|done].
  cbn [fst snd]. rewrite bind_app, list_fmap_bind, bind_cons, bind_nil, app_nil_r.
  rewrite IH.
  - destruct s as [|c' s'].
    + done.
    + cbn [digits_of]. destruct (is_digit c') eqn:Hc'; cbn [fst snd].
      * rewrite (Hk (Way (String c "") (String c' s') None) c' s'); [|done..].
        by rewrite app_nil_r.
      * done.
  - intros w c' x Hw Hc'. cbn. by eapply Hk.
Qed.

Lemma ways_cat_digits r2 s :
  (∀ c x, is_digit c = true → ways r2 (String c x) = []) →
  ways (Cat (Group (Plus Digit)) r2) s =
  match (digits_of s).1 with
  | EmptyString => []
  | String _ _ =>
      after (digits_of s).1 (Some (digits_of s).1) <$> ways r2 (digits_of s).2
  end.
Proof.
  intros Hr2. rewrite ways_cat. cbn [ways]. rewrite list_fmap_bind.
  rewrite bind_plus_digit; [done |].
  intros w c x Hw Hc. cbn. by rewrite Hw, Hr2.
Qed.

Lemma ways_literal p s :
  ways (literal p) s =
  match expect_str p s with
  | Some s' => [Way p s' None]
  | None => []
  end.
Proof.
  revert s. induction p as [|c p IH]; intros s; [done |].
  cbn [literal expect_str]. rewrite ways_cat_one.
  destruct (expect c s) as [s'|]; [|done]. cbn [mbind option_bind].
  rewrite IH. by destruct (expect_str p s').
Qed.

Lemma ways_cat_literal p r2 s :
  ways (Cat (literal p) r2) s =
  match expect_str p s with
  | Some s' => after p None <$> ways r2 s'
  | None => []
  end.
Proof.
  rewrite ways_cat, ways_literal. destruct (expect_str p s) as [s'|]; [|done].
  rewrite bind_cons, bind_nil. cbn [matched rest group1]. apply app_nil_r.
Qed.

Lemma ways_closing s : ways closing s = option_list (close_at s).
Proof.
  unfold closing, close_at. rewrite ways_cat_opt by done. rewrite ways_one.
  by destruct (expect "]" (strip ")" s).2).
Qed.

Lemma ways_closing_digit c x : is_digit c = true → ways closing (String c x) = [].
Proof.
  intros Hc. rewrite ways_closing. unfold close_at, strip. cbn [expect].
  destruct (Ascii.eqb_spec ")" c) as [<-|_]; [done |]. cbn [snd expect].
  by destruct (Ascii.eqb_spec "]" c) as [<-|_].
Qed.

Lemma ways_cite s : ways cite_pattern s = option_list (cite_at s).
Proof.
  unfold cite_pattern, cite_at. rewrite ways_cat_one.
  destruct (expect "[" s) as [s1|]; [|done]. cbn [mbind option_bind].
  fold closing. rewrite ways_cat_opt.
  2:{ intros x. by rewrite ways_cat_digits by apply ways_closing_digit. }
  rewrite ways_cat_digits by apply ways_closing_digit.
  destruct (digits_of (strip "(" s1).2).1 as [|c d] eqn:Hd; [done |].
  rewrite ways_closing.
  destruct (close_at (digits_of (strip "(" s1).2).2) as [[t r g]|] eqn:Hc; [|done].
  assert (g = None) as ->; [|done].
  unfold close_at in Hc. destruct (expect _ _); [by injection Hc as <- <- <- | done].
Qed.

Lemma match_at_cite s : match_at cite_pattern s = cite_at s.
Proof. unfold match_at. rewrite ways_cite. by destruct (cite_at s). Qed.

Lemma ways_bracket_literal p s :
  (∀ x, expect_str p (String "(" x) = None) →
  ways (Cat (One (Chr "[")) (Cat (Opt (One (Chr "("))) (Cat (literal p) closing))) s
  = option_list (old_at p s).
Proof.
  intros Hp. unfold old_at. rewrite ways_cat_one.
  destruct (expect "[" s) as [s1|]; [|done]. cbn [mbind option_bind].
  rewrite ways_cat_opt.
  2:{ intros x. by rewrite ways_cat_literal, Hp. }
  rewrite ways_cat_literal.
  destruct (expect_str p (strip "(" s1).2) as [s3|]; [|done].
  rewrite ways_closing. cbn [mbind option_bind].
  destruct (close_at s3) as [[t r g]|] eqn:Hc; [|done].
  assert (g = None) as ->; [|done].
  unfold close_at in Hc. destruct (expect _ _); [by injection Hc as <- <- <- | done].
Qed.

(** *** Citation markers, as the specification describes them *)

Lemma digits_of_split s : s = (digits_of s).1 +:+ (digits_of s).2.
Proof.
  induction s as [|c s IH]; [done |]. cbn [digits_of].
  destruct (is_digit c); [|done]. cbn [fst snd]. rewrite str_app_cons. by f_equal.
Qed.

Lemma digits_of_all_digits s : all_digits (digits_of s).1 = true.
Proof.
  induction s as [|c s IH]; [done |]. cbn [digits_of].
  destruct (is_digit c) eqn:Hc; [|done]. cbn [fst all_digits]. by rewrite Hc.
Qed.

Lemma digits_of_rest s : no_digit_ahead (digits_of s).2.
Proof.
  induction s as [|c s IH]; [done |]. cbn [digits_of].
  by destruct (is_digit c) eqn:Hc.
Qed.

Lemma digits_of_app d x :
  all_digits d = true → no_digit_ahead x → digits_of (d +:+ x) = (d, x).
Proof.
  intros Hd Hx. induction d as [|c d IH].
  - destruct x as [|c x]; [done |]. rewrite str_app_nil_l. cbn [digits_of].
    unfold no_digit_ahead in Hx. by rewrite Hx.
  - cbn [all_digits] in Hd. apply andb_true_iff in Hd as [Hc Hd].
    rewrite str_app_cons. cbn [digits_of]. by rewrite Hc, IH.
Qed.

Lemma expect_cons c s : expect c (String c s) = Some s.
Proof. cbn. by rewrite Ascii.eqb_refl. Qed.

Lemma expect_Some c s s' : expect c s = Some s' → s = String c s'.
Proof.
  destruct s as [|c' x]; [done |]. cbn.
  destruct (Ascii.eqb_spec c c') as [<-|]; [by intros [= <-] | done].
Qed.

Lemma strip_split c s : s = (strip c s).1 +:+ (strip c s).2.
Proof.
  unfold strip. destruct (expect c s) as [s'|] eqn:Hs; [|done].
  by apply expect_Some in Hs.
Qed.

Lemma strip_cases c s : (strip c s).1 = "" ∨ (strip c s).1 = String c "".
Proof. unfold strip. destruct (expect c s); [by right | by left]. Qed.

Lemma strip_cons c s : strip c (String c s) = (String c "", s).
Proof. unfold strip. by rewrite expect_cons. Qed.

Lemma strip_other c c' s : c ≠ c' → strip c (String c' s) = ("", String c' s).
Proof.
  intros Hne. unfold strip. cbn. by destruct (Ascii.eqb_spec c c').
Qed.

Lemma close_at_Some s w :
  close_at s = Some w →
  ∃ rp, (rp = "" ∨ rp = ")") ∧ w = Way (rp +:+ "]") (rest w) None ∧
        s = rp +:+ "]" +:+ rest w.
Proof.
  unfold close_at. destruct (expect "]" (strip ")" s).2) as [s'|] eqn:Hs; [|done].
  intros [= <-]. exists (strip ")" s).1. split_and!; [apply strip_cases | done |].
  cbn [rest]. apply expect_Some in Hs.
  rewrite (strip_split ")" s) at 1. f_equal. exact Hs.
Qed.

Lemma close_at_closing rp r :
  rp = "" ∨ rp = ")" →
  close_at (rp +:+ String "]" r) = Some (Way (rp +:+ "]") r None).
Proof. by intros [-> | ->]. Qed.

Lemma cite_at_marker s w :
  cite_at s = Some w →
  ∃ d, marker (matched w) d ∧ group1 w = Some d ∧ s = matched w +:+ rest w.
Proof.
  intros Hw. pose proof Hw as Hsplit.
  rewrite <- match_at_cite in Hsplit. apply match_at_split in Hsplit.
  unfold cite_at in Hw. destruct (expect "[" s) as [s1|]; [|done].
  cbn [mbind option_bind] in Hw.
  destruct (digits_of (strip "(" s1).2).1 as [|c d] eqn:Hd; [done |].
  destruct (close_at _) as [w'|] eqn:Hc; [|done]. injection Hw as <-.
  exists (String c d). split_and!; [|done..]. cbn [matched].
  apply close_at_Some in Hc as (rp & Hrp & -> & _). cbn [matched].
  constructor; [apply strip_cases | done | done |].
  rewrite <- Hd. apply digits_of_all_digits.
Qed.

Lemma all_digits_head c d : all_digits (String c d) = true → is_digit c = true.
Proof. cbn [all_digits]. by intros [? _]%andb_true_iff. Qed.

Lemma marker_text lp d rp r :
  ("[" +:+ lp +:+ d +:+ rp +:+ "]") +:+ r
  = String "[" (lp +:+ d +:+ rp +:+ String "]" r).
Proof.
  transitivity (String "[" ((lp +:+ d +:+ rp +:+ "]") +:+ r)); [reflexivity |].
  f_equal. by rewrite !str_app_assoc.
Qed.

Lemma marker_cite_at t d r :
  marker t d → cite_at (t +:+ r) = Some (Way t r (Some d)).
Proof.
  intros [lp d' rp Hlp Hrp Hne Hd]. rewrite marker_text.
  destruct d' as [|c d']; [done |].
  assert (strip "(" (lp +:+ String c d' +:+ rp +:+ String "]" r)
          = (lp, String c d' +:+ rp +:+ String "]" r)) as Hstrip.
  { destruct Hlp as [-> | ->].
    - rewrite str_app_nil_l, str_app_cons. apply strip_other.
      intros <-. by apply all_digits_head in Hd.
    - apply strip_cons. }
  assert (digits_of (String c d' +:+ rp +:+ String "]" r)
          = (String c d', rp +:+ String "]" r)) as Hdig.
  { apply digits_of_app; [done |]. by destruct Hrp as [-> | ->]. }
  unfold cite_at. rewrite expect_cons.
  cbn [mbind option_bind]. rewrite Hstrip. cbn [fst snd]. rewrite Hdig. cbn [fst snd].
  by rewrite (close_at_closing rp r Hrp).
Qed.

(** *** Scanning for markers *)

Lemma has_marker_cons c s : has_marker s → has_marker (String c s).
Proof.
  intros (pre & t & d & post & Hm & ->).
  exists (String c pre), t, d, post. by rewrite str_app_cons.
Qed.

Lemma has_marker_here s w : cite_at s = Some w → has_marker s.
Proof.
  intros (d & Hm & _ & Hs)%cite_at_marker.
  exists "", (matched w), d, (rest w). by rewrite str_app_nil_l.
Qed.

Lemma scan_cite_hit s w : Hit w ∈ scan cite_pattern s → has_marker s.
Proof.
  remember (String.length s) as n eqn:Hn. revert s Hn.
  induction (lt_wf n) as [n _ IH]. intros s -> Hin.
  rewrite scan_eq, match_at_cite in Hin.
  destruct (cite_at s) as [w0|] eqn:Hw0; [by eapply has_marker_here |].
  destruct s as [|c s']; [by apply elem_of_nil in Hin |].
  cbn [step_over] in Hin. apply elem_of_cons in Hin as [?|Hin]; [done |].
  apply has_marker_cons. eapply (IH (String.length s')); [cbn; lia | done | done].
Qed.

Lemma has_marker_scan s : has_marker s → ∃ w, Hit w ∈ scan cite_pattern s.
Proof.
  intros (pre & t & d & post & Hm & ->).
  induction pre as [|c pre IH].
  - rewrite str_app_nil_l, scan_eq, match_at_cite, (marker_cite_at _ _ _ Hm).
    cbn [matched]. eexists. destruct t; left.
  - rewrite str_app_cons, scan_eq.
    destruct (match_at cite_pattern _) as [w|].
    + exists w. destruct (matched w); left.
    + cbn [step_over]. destruct IH as [w Hw]. exists w. by right.
Qed.

Lemma findall_nil r s : findall r s = [] ↔ ∀ w, Hit w ∉ scan r s.
Proof.
  unfold findall. induction (scan r s) as [|[c|w] ps IH]; cbn [omap].
  - split; [intros _ w; apply not_elem_of_nil | done].
  - rewrite IH. split; intros H w.
    + intros [?|?]%elem_of_cons; [done | by eapply H].
    + intros Hin. apply (H w). by right.
  - split; [done |]. intros H. destruct (H w). by left.
Qed.

Lemma findall_hit r s : findall r s ≠ [] → ∃ w, Hit w ∈ scan r s.
Proof.
  unfold findall. induction (scan r s) as [|[c|w] ps IH]; cbn [omap]; [done | |].
  - intros [w Hw]%IH. exists w. by right.
  - intros _. exists w. by left.
Qed.

(** A text has a citation marker exactly if [findall] finds one. *)
Lemma has_marker_findall s : has_marker s ↔ findall cite_pattern s ≠ [].
Proof.
  split.
  - intros [w Hw]%has_marker_scan Hnil. by eapply findall_nil.
  - intros [w Hw]%findall_hit. by eapply scan_cite_hit.
Qed.

Lemma no_marker_findall s : ¬ has_marker s → findall cite_pattern s = [].
Proof.
  intros Hno. destruct (findall cite_pattern s) eqn:Hf; [done |].
  destruct Hno. apply has_marker_findall. by rewrite Hf.
Qed.

(** ** Texts without markers *)

Lemma renumber_citations_no_marker response :
  ¬ has_marker response → renumber_citations response = Return (response, []).
Proof.
  intros Hno. unfold renumber_citations. by rewrite no_marker_findall.
Qed.



(** ** Renumbering, evaluated *)

(** The example of the specification: markers 5, 2, 5, 9. *)
Example renumber_citations_5_2_5_9 :
  renumber_citations "a [5] b [2] c [(5)] d [9]." =
  Return ("a [2] b [1] c [2] d [3].", [(2, 1); (5, 2); (9, 3)]%Z).
Proof. by vm_compute. Qed.

(** C4, at the failing input: the text cites 0 and 1.  The map sends 0 to
    1 and 1 to 2, but the substitutions run one after the other on the
    same text: the marker written for 0 is rewritten again as if it were
    the old marker 1, and both markers end up as 2. *)
Theorem renumber_citations_zero_collapses :
  renumber_citations "[0] [1]" = Return ("[2] [2]", [(0, 1); (1, 2)]%Z) ∧
  sub (old_pattern 0) "[1]" "[0] [1]" = "[1] [1]" ∧
  sub (old_pattern 1) "[2]" "[1] [1]" = "[2] [2]".
Proof. split_and!; by vm_compute. Qed.

(** C7, where the code fails: the text that cites 0 and 1 comes out of a
    normalization citing 2 twice, which is not dense, and a second
    normalization of that output changes the text and returns a map that
    is not the identity. *)
Example renumber_citations_twice_differs :
  renumber_citations "[0] [1]" = Return ("[2] [2]", [(0, 1); (1, 2)]%Z) ∧
  renumber_citations "[2] [2]" = Return ("[1] [1]", [(2, 1)]%Z) ∧
  "[1] [1]" ≠ "[2] [2]" ∧
  [(2, 1)]%Z ≠ identity_map 1.
Proof. split_and!; by vm_compute. Qed.

(** ** Numerals *)

Lemma to_int_proper (n : Z) : Z.to_int n ≠ Pos Nil ∧ Z.to_int n ≠ Neg Nil.
Proof.
  destruct n as [|p|p]; cbn; split; try discriminate;
    intros [= H]; by apply DecimalPos.Unsigned.to_uint_nonnil in H.
Qed.

Lemma str_inj (a b : Z) : str a = str b → a = b.
Proof.
  unfold str. intros Hab. apply DecimalZ.to_int_inj.
  destruct (to_int_proper a) as [Ha1 Ha2], (to_int_proper b) as [Hb1 Hb2].
  pose proof (NilZero.isi _ Ha1 Ha2) as Ha. pose proof (NilZero.isi _ Hb1 Hb2) as Hb.
  rewrite Hab in Ha. congruence.
Qed.

Lemma int_cases d :
  int d = match NilZero.uint_of_string d with
          | Some u => if decide (short d) then Return (Z.of_uint u)
                      else Raise ValueError
          | None => Raise ValueError
          end.
Proof.
  unfold int, short. destruct (NilZero.uint_of_string d); [|done].
  destruct (Z.leb_spec (Z.of_nat (String.length d)) int_max_str_digits);
    [by rewrite decide_True|by rewrite decide_False by lia].
Qed.

Lemma int_Return d n : int d = Return n → short d ∧ (0 <= n)%Z.
Proof.
  rewrite int_cases. destruct (NilZero.uint_of_string d); [|done].
  destruct (decide (short d)); [|done]. intros [= <-].
  split; [done|]. unfold Z.of_uint. lia.
Qed.

Lemma int_raises d e : int d = Raise e → e = ValueError.
Proof.
  rewrite int_cases. repeat case_match; by intros [= <-].
Qed.

Lemma int_long d : ¬ short d → int d = Raise ValueError.
Proof.
  intros Hd. rewrite int_cases. destruct (NilZero.uint_of_string d); [|done].
  by rewrite decide_False.
Qed.

Lemma uint_of_str (n : Z) :
  (0 <= n)%Z → ∃ u, NilZero.uint_of_string (str n) = Some u ∧ Z.of_uint u = n.
Proof.
  intros Hn. unfold str. destruct n as [|p|p]; [by eexists | | lia].
  cbn [Z.to_int NilZero.string_of_int].
  rewrite NilZero.usu by apply DecimalPos.Unsigned.to_uint_nonnil.
  eexists. split; [done|].
  unfold Z.of_uint. by rewrite DecimalPos.Unsigned.of_to.
Qed.

Lemma int_str (n : Z) : (0 <= n)%Z → short (str n) → int (str n) = Return n.
Proof.
  intros Hn Hs. rewrite int_cases.
  destruct (uint_of_str n Hn) as (u & -> & <-). by rewrite decide_True.
Qed.

Lemma int_str_inv (n m : Z) : (0 <= n)%Z → int (str n) = Return m → m = n.
Proof.
  intros Hn Hm. destruct (int_Return _ _ Hm) as [Hs _].
  rewrite int_str in Hm by done. by injection Hm.
Qed.

Lemma length_string_of_uint u :
  String.length (NilEmpty.string_of_uint u) = nb_digits u.
Proof. induction u; cbn; by rewrite ?IHu. Qed.

Lemma nb_digits_succ d : (nb_digits d ≤ nb_digits (Little.succ d))%nat.
Proof. induction d; cbn; lia. Qed.

Lemma to_lu_mono (a b : N) :
  (a <= b)%N →
  (nb_digits (DecimalPos.Unsigned.to_lu a)
   ≤ nb_digits (DecimalPos.Unsigned.to_lu b))%nat.
Proof.
  induction b as [|b IH] using N.peano_ind; intros Hab.
  - by replace a with 0%N by lia.
  - destruct (decide (a = N.succ b)) as [->|Hne]; [done|].
    rewrite DecimalPos.Unsigned.to_lu_succ.
    etrans; [apply IH; lia|apply nb_digits_succ].
Qed.

Lemma str_length (p : positive) :
  String.length (str (Z.pos p))
  = nb_digits (DecimalPos.Unsigned.to_lu (N.pos p)).
Proof.
  unfold str. cbn [Z.to_int NilZero.string_of_int DecimalPos.Unsigned.to_lu].
  unfold NilZero.string_of_uint.
  pose proof (DecimalPos.Unsigned.to_uint_nonnil p) as Hnil.
  rewrite <- (nb_digits_rev (Pos.to_little_uint p)).
  change (Decimal.rev (Pos.to_little_uint p)) with (Pos.to_uint p).
  destruct (Pos.to_uint p) eqn:Hp; [done|..];
    by rewrite length_string_of_uint.
Qed.

(** A smaller positive number has no more digits. *)
Lemma str_length_mono (a b : Z) :
  (0 < a <= b)%Z → (String.length (str a) ≤ String.length (str b))%nat.
Proof.
  intros Hab. destruct a as [|pa|pa]; [lia| |lia].
  destruct b as [|pb|pb]; [lia| |lia].
  rewrite !str_length. apply to_lu_mono. lia.
Qed.

Lemma short_str_mono (a b : Z) :
  (0 < a <= b)%Z → short (str b) → short (str a).
Proof.
  intros Hab Hb. pose proof (str_length_mono a b Hab). unfold short in *. lia.
Qed.

Lemma all_digits_string_of_uint u : all_digits (NilEmpty.string_of_uint u) = true.
Proof. induction u; cbn [NilEmpty.string_of_uint all_digits]; by rewrite ?IHu. Qed.

Lemma str_digits (n : Z) :
  (0 <= n)%Z → all_digits (str n) = true ∧ str n ≠ "".
Proof.
  intros Hn. unfold str. destruct n as [|p|p]; [done | | lia].
  cbn [Z.to_int NilZero.string_of_int]. unfold NilZero.string_of_uint.
  pose proof (DecimalPos.Unsigned.to_uint_nonnil p) as Hnil.
  destruct (Pos.to_uint p) eqn:Hp;
    [done | split; [apply (all_digits_string_of_uint (_ _)) | done]..].
Qed.

Lemma is_digit_cases c :
  is_digit c = true →
  c ∈ ["0"; "1"; "2"; "3"; "4"; "5"; "6"; "7"; "8"; "9"]%char.
Proof.
  destruct c as [[] [] [] [] [] [] [] []]; vm_compute; intros H;
    first [discriminate H | set_solver].
Qed.

Lemma uint_of_digits d :
  all_digits d = true → is_Some (NilEmpty.uint_of_string d).
Proof.
  induction d as [|c d IH]; [by eexists |].
  cbn [all_digits NilEmpty.uint_of_string]. intros [Hc Hd]%andb_true_iff.
  destruct (IH Hd) as [u ->]. apply is_digit_cases in Hc.
  repeat (apply elem_of_cons in Hc as [->|Hc]; [by eexists |]).
  by apply elem_of_nil in Hc.
Qed.

Lemma int_digits d :
  all_digits d = true → d ≠ "" → short d →
  ∃ n, int d = Return n ∧ (0 <= n)%Z.
Proof.
  intros Hd Hne Hs. rewrite int_cases. unfold NilZero.uint_of_string.
  destruct d as [|c d]; [done |].
  destruct (uint_of_digits _ Hd) as [u ->]. rewrite decide_True by done.
  eexists. split; [done |]. unfold Z.of_uint. lia.
Qed.

(** ** The citation map *)

Lemma scan_hit_match r s w : Hit w ∈ scan r s → ∃ x, match_at r x = Some w.
Proof.
  remember (String.length s) as n eqn:Hn. revert s w Hn.
  induction (lt_wf n) as [n _ IH]. intros s w -> Hin.
  assert (∀ w, Hit w ∈ step_over (scan r) s → ∃ x, match_at r x = Some w)
    as Hstep.
  { intros w' Hw'. destruct s as [|c s']; [by apply elem_of_nil in Hw' |].
    cbn [step_over] in Hw'. apply elem_of_cons in Hw' as [?|Hw']; [done |].
    eapply (IH (String.length s')); [cbn; lia | done | done]. }
  rewrite scan_eq in Hin. destruct (match_at r s) as [w0|] eqn:Hw0; [|by apply Hstep].
  destruct (matched w0) as [|c t] eqn:Hm.
  - apply elem_of_cons in Hin as [[= ->]|Hin]; [eauto | by apply Hstep].
  - apply elem_of_cons in Hin as [[= ->]|Hin]; [eauto |].
    eapply (IH (String.length (rest w0))); [|done..].
    by eapply match_at_shorter.
Qed.

Lemma elem_of_findall r s d :
  d ∈ findall r s ↔ ∃ w, Hit w ∈ scan r s ∧ d = default "" (group1 w).
Proof.
  unfold findall. rewrite list_elem_of_omap. split.
  - intros ([c|w] & Hin & [= <-]). eauto.
  - intros (w & Hin & ->). exists (Hit w). eauto.
Qed.

Lemma findall_cite_digits s d :
  d ∈ findall cite_pattern s → all_digits d = true ∧ d ≠ "".
Proof.
  intros (w & (x & Hx)%scan_hit_match & ->)%elem_of_findall.
  rewrite match_at_cite in Hx. apply cite_at_marker in Hx as (d & Hm & -> & _).
  by destruct Hm.
Qed.

Lemma mapM_int_digits l :
  Forall (λ d, all_digits d = true ∧ d ≠ "") l →
  Forall short l →
  ∃ numbers, mapM int l = Return numbers ∧
             Forall2 (λ d n, int d = Return n ∧ (0 <= n)%Z) l numbers.
Proof.
  induction 1 as [|d l [Hd Hne] _ IH]; intros Hshort.
  - by exists [].
  - apply Forall_cons in Hshort as [Hs Hshort].
    destruct (IH Hshort) as (numbers & Hm & Hall).
    destruct (int_digits d Hd Hne Hs) as (n & Hn & Hpos).
    exists (n :: numbers). rewrite mapM_outcome_cons, Hn, Hm. split; [done |].
    by constructor.
Qed.

Lemma mapM_int_Return l numbers :
  mapM int l = Return numbers →
  Forall2 (λ d n, int d = Return n ∧ (0 <= n)%Z) l numbers.
Proof.
  revert numbers. induction l as [|d l IH]; intros numbers.
  - intros [= <-]. constructor.
  - rewrite mapM_outcome_cons. destruct (int d) as [n|e] eqn:Hd; [|done].
    cbn [mbind outcome_bind Py.bind].
    destruct (mapM int l) as [ns|e]; [|done]. intros [= <-].
    constructor; [|by apply IH]. split; [done|]. by eapply int_Return.
Qed.

Lemma Forall2_int_short l numbers :
  Forall2 (λ d n, int d = Return n ∧ (0 <= n)%Z) l numbers → Forall short l.
Proof.
  induction 1 as [|d n ds ns [Hd _] _ IH]; constructor; [|done].
  by eapply int_Return.
Qed.

Lemma plain_numbers_positive l numbers :
  Forall plain_numeral l →
  Forall2 (λ d n, int d = Return n ∧ (0 <= n)%Z) l numbers →
  Forall (λ n, 0 < n)%Z numbers.
Proof.
  intros Hplain Hnum. revert Hplain.
  induction Hnum as [|d n ds ns [Hd _] _ IH]; intros Hall; [constructor |].
  apply Forall_cons in Hall as [(v & Hv & ->) Hall].
  constructor; [|by apply IH]. apply int_str_inv in Hd; [|lia]. by subst n.
Qed.

Lemma mapM_int_raises l e : mapM int l = Raise e → e = ValueError.
Proof.
  induction l as [|d l IH]; [done|]. rewrite mapM_outcome_cons.
  destruct (int d) as [n|e'] eqn:Hd.
  - cbn [mbind outcome_bind Py.bind].
    destruct (mapM int l) as [ns|e']; [done|]. intros [= <-]. by apply IH.
  - intros [= <-]. by eapply int_raises.
Qed.

Lemma mapM_int_long l : ¬ Forall short l → mapM int l = Raise ValueError.
Proof.
  intros Hl. destruct (mapM int l) as [numbers|e] eqn:Hm.
  - destruct Hl. by apply mapM_int_Return, Forall2_int_short in Hm.
  - by apply mapM_int_raises in Hm as ->.
Qed.

Lemma sorted_set_elem l v : v ∈ sorted_set l ↔ v ∈ l.
Proof.
  unfold sorted_set. rewrite merge_sort_Permutation, elem_of_elements.
  apply elem_of_list_to_set.
Qed.

Lemma sorted_set_NoDup l : NoDup (sorted_set l).
Proof.
  unfold sorted_set. rewrite merge_sort_Permutation. apply NoDup_elements.
Qed.

Lemma StronglySorted_lt_of_le l :
  StronglySorted Z.le l → NoDup l → StronglySorted Z.lt l.
Proof.
  induction 1 as [|x l Hl IH Hx]; intros Hnd; [constructor |].
  apply NoDup_cons in Hnd as [Hnin Hnd]. constructor; [by apply IH |].
  rewrite Forall_forall in Hx |- *. intros y Hy.
  specialize (Hx y Hy). assert (x ≠ y) by (by intros ->). lia.
Qed.

Lemma sorted_set_sorted l : StronglySorted Z.lt (sorted_set l).
Proof.
  apply StronglySorted_lt_of_le; [|apply sorted_set_NoDup].
  unfold sorted_set. apply StronglySorted_merge_sort; apply _.
Qed.

Lemma dict_set_fresh {K V} `{EqDecision K} (d : dict K V) k v :
  k ∉ keys d → dict_set d k v = d ++ [(k, v)].
Proof.
  induction d as [|[k' v'] d IH]; [done |].
  rewrite keys_cons, not_elem_of_cons. intros [Hne Hnin].
  cbn [dict_set]. rewrite decide_False by done. by rewrite IH.
Qed.

Lemma dict_of_NoDup_from {K V} `{EqDecision K} (kvs d : dict K V) :
  NoDup (keys (d ++ kvs)) →
  fold_left (λ d kv, dict_set d kv.1 kv.2) kvs d = d ++ kvs.
Proof.
  revert d. induction kvs as [|[k v] kvs IH]; intros d Hnd; [by rewrite app_nil_r |].
  cbn [fold_left fst snd]. rewrite dict_set_fresh.
  - rewrite IH; [by rewrite <- app_assoc |]. by rewrite <- app_assoc.
  - unfold keys in *. rewrite fmap_app, fmap_cons in Hnd.
    apply NoDup_app in Hnd as (_ & Hdisj & _). intros Hk.
    apply (Hdisj _ Hk). by left.
Qed.

Lemma dict_of_NoDup {K V} `{EqDecision K} (kvs : dict K V) :
  NoDup (keys kvs) → dict_of kvs = kvs.
Proof. intros Hnd. unfold dict_of. by rewrite dict_of_NoDup_from. Qed.

Lemma enumerate_zip {A} (start : Z) (l : list A) :
  enumerate start l = zip (seqZ start (Z.of_nat (length l))) l.
Proof.
  revert start. induction l as [|x l IH]; intros start; [done |].
  cbn [enumerate length]. rewrite seqZ_cons by lia. cbn [zip zip_with].
  rewrite IH. do 3 f_equal; lia.
Qed.

Lemma swap_enumerate (start : Z) (l : list Z) :
  map (λ '(new, old), (old, new)) (enumerate start l)
  = zip l (seqZ start (Z.of_nat (length l))).
Proof.
  revert start. induction l as [|x l IH]; intros start; [done |].
  cbn [enumerate length map]. rewrite seqZ_cons by lia. cbn [zip zip_with].
  rewrite IH. do 3 f_equal; lia.
Qed.

Lemma citation_map_of_keys numbers :
  keys (citation_map_of numbers) = sorted_set numbers.
Proof.
  unfold keys, citation_map_of. apply fst_zip. rewrite length_seqZ. lia.
Qed.

Lemma citation_map_of_values numbers :
  (citation_map_of numbers).*2 = seqZ 1 (Z.of_nat (length (sorted_set numbers))).
Proof.
  unfold citation_map_of. apply snd_zip. rewrite length_seqZ. lia.
Qed.

Lemma citation_map_built numbers :
  dict_of (map (λ '(new, old), (old, new)) (enumerate 1 (sorted_set numbers)))
  = citation_map_of numbers.
Proof.
  rewrite swap_enumerate. apply dict_of_NoDup.
  fold (citation_map_of numbers). rewrite citation_map_of_keys.
  apply sorted_set_NoDup.
Qed.

(** For every text, [renumber_citations] returns; its map pairs the
    distinct numbers cited, in ascending order, with 1, 2, ..., K. *)
Lemma renumber_citations_map response :
  short_numerals response →
  ∃ numbers,
    mapM int (findall cite_pattern response) = Return numbers ∧
    Forall2 (λ d n, int d = Return n ∧ (0 <= n)%Z)
            (findall cite_pattern response) numbers ∧
    renumber_citations response =
      Return (rewrite_all (citation_map_of numbers) response,
              citation_map_of numbers) ∧
    keys (citation_map_of numbers) = sorted_set numbers ∧
    (citation_map_of numbers).*2
      = seqZ 1 (Z.of_nat (length (citation_map_of numbers))) ∧
    StronglySorted Z.lt (sorted_set numbers) ∧
    (∀ v, v ∈ sorted_set numbers ↔ v ∈ numbers).
Proof.
  intros Hshort.
  destruct (mapM_int_digits (findall cite_pattern response)) as (numbers & Hm & Hall).
  { apply Forall_forall. intros d. apply findall_cite_digits. }
  { done. }
  exists numbers. split_and!; [done | done | | | | |].
  - unfold renumber_citations. rewrite Hm. cbn [mbind outcome_bind Py.bind].
    by rewrite citation_map_built.
  - apply citation_map_of_keys.
  - rewrite citation_map_of_values. do 2 f_equal.
    by rewrite <- (length_fmap fst), <- citation_map_of_keys.
  - apply sorted_set_sorted.
  - apply sorted_set_elem.
Qed.

Lemma renumber_citations_short response y citation_map :
  renumber_citations response = Return (y, citation_map) →
  short_numerals response.
Proof.
  unfold renumber_citations.
  destruct (mapM int (findall cite_pattern response)) as [numbers|e] eqn:Hm;
    [|done].
  intros _. by apply mapM_int_Return, Forall2_int_short in Hm.
Qed.

Lemma renumber_citations_long response :
  ¬ short_numerals response → renumber_citations response = Raise ValueError.
Proof.
  intros Hlong. unfold renumber_citations. by rewrite mapM_int_long.
Qed.

(** ** The rewrite, for markers that are positive numerals *)

Lemma sub_text_of r repl s : sub r repl s = text_of (λ _, repl) (scan r s).
Proof. reflexivity. Qed.

Lemma text_of_ext g g' ps :
  (∀ w, Hit w ∈ ps → g w = g' w) → text_of g ps = text_of g' ps.
Proof.
  induction ps as [|[c|w] ps IH]; intros Hg; [done | |]; cbn [text_of foldr].
  - f_equal. apply IH. intros w Hw. apply Hg. by right.
  - fold (text_of g ps) (text_of g' ps). rewrite (Hg w) by (by left).
    f_equal. apply IH. intros w' Hw'. apply Hg. by right.
Qed.

Lemma sub_nil r repl : match_at r "" = None → sub r repl "" = "".
Proof. intros Hr. unfold sub. by rewrite scan_eq, Hr. Qed.

Lemma sub_keep r repl c x :
  match_at r (String c x) = None →
  sub r repl (String c x) = String c (sub r repl x).
Proof. intros Hr. unfold sub. by rewrite scan_eq, Hr. Qed.

Lemma sub_hit r repl s w c t :
  match_at r s = Some w → matched w = String c t →
  sub r repl s = repl +:+ sub r repl (rest w).
Proof. intros Hr Hm. unfold sub. by rewrite scan_eq, Hr, Hm. Qed.

(** Writing every hit as it was matched gives the text back. *)
Lemma scan_text r s : text_of matched (scan r s) = s.
Proof.
  remember (String.length s) as n eqn:Hn. revert s Hn.
  induction (lt_wf n) as [n _ IH]. intros s ->.
  assert (text_of matched (step_over (scan r) s) = s) as Hstep.
  { destruct s as [|c s']; [done |]. cbn [step_over text_of foldr].
    f_equal. apply (IH (String.length s')); [cbn; lia | done]. }
  rewrite scan_eq. destruct (match_at r s) as [w|] eqn:Hw; [|exact Hstep].
  destruct (matched w) as [|c t] eqn:Hm.
  - cbn [text_of foldr]. fold (text_of matched (step_over (scan r) s)).
    by rewrite Hm, Hstep.
  - cbn [text_of foldr]. fold (text_of matched (scan r (rest w))).
    rewrite (IH (String.length (rest w)));
      [|by eapply (match_at_shorter r) | done].
    symmetry. by apply (match_at_split r).
Qed.

Lemma marker_nonempty t d : marker t d → ∃ c t', t = String c t'.
Proof. intros []. eauto. Qed.

Lemma scan_settled s : settled matched (scan cite_pattern s).
Proof.
  remember (String.length s) as n eqn:Hn. revert s Hn.
  induction (lt_wf n) as [n _ IH]. intros s ->.
  rewrite scan_eq, match_at_cite. destruct (cite_at s) as [w|] eqn:Hw.
  - destruct (cite_at_marker s w Hw) as (d & Hm & _ & _).
    destruct (marker_nonempty _ _ Hm) as (c & t & Ht). rewrite Ht.
    cbn [settled]. split; [eauto |].
    apply (IH (String.length (rest w))); [|done].
    eapply match_at_shorter; [by rewrite match_at_cite | done].
  - destruct s as [|c s']; [done |]. cbn [step_over settled].
    split; [by rewrite scan_text |]. apply (IH (String.length s')); [cbn; lia | done].
Qed.

(** *** A marker is decided before the next opening bracket *)

Lemma no_bracket_app s t : no_bracket s → no_bracket t → no_bracket (s +:+ t).
Proof.
  intros Hs Ht. induction s as [|c s IH]; [done |].
  rewrite str_app_cons. destruct Hs as [Hc Hs]. split; [done | by apply IH].
Qed.

Lemma no_bracket_digits d : all_digits d = true → no_bracket d.
Proof.
  induction d as [|c d IH]; [done |]. cbn [all_digits no_bracket].
  intros [Hc Hd]%andb_true_iff. split; [by intros -> | by apply IH].
Qed.

Lemma marker_tail t d : marker t d → ∃ t', t = String "[" t' ∧ no_bracket t'.
Proof.
  intros [lp d' rp Hlp Hrp _ Hd]. exists (lp +:+ d' +:+ rp +:+ "]").
  split; [reflexivity |]. repeat apply no_bracket_app.
  - by destruct Hlp as [-> | ->].
  - by apply no_bracket_digits.
  - by destruct Hrp as [-> | ->].
  - done.
Qed.

Lemma same_prefix x x' t r' :
  same_until_bracket x x' → no_bracket t → x' = t +:+ r' → ∃ r, x = t +:+ r.
Proof.
  intros Hsame. revert t. induction Hsame as [|y y'|c y y' Hc _ IH]; intros t Ht Hx.
  - destruct t; [by exists "" | done].
  - destruct t as [|c t]; [by eexists |].
    rewrite str_app_cons in Hx. injection Hx as <- _. by destruct Ht.
  - destruct t as [|c' t]; [by eexists |].
    rewrite str_app_cons in Hx. injection Hx as <- Hy.
    destruct Ht as [_ Ht]. destruct (IH t Ht Hy) as [r ->].
    exists r. by rewrite str_app_cons.
Qed.

Lemma cite_at_local c x x' :
  same_until_bracket x x' →
  cite_at (String c x) = None → cite_at (String c x') = None.
Proof.
  intros Hsame Hx. destruct (cite_at (String c x')) as [w|] eqn:Hx'; [|done].
  apply cite_at_marker in Hx' as (d & Hm & _ & Hs).
  destruct (marker_tail _ _ Hm) as (t' & Ht & Hnb).
  rewrite Ht, str_app_cons in Hs. injection Hs as -> Hs.
  destruct (same_prefix _ _ _ _ Hsame Hnb Hs) as [r ->].
  rewrite <- str_app_cons, <- Ht, (marker_cite_at _ _ _ Hm) in Hx. done.
Qed.

Lemma text_of_same g g' ps :
  (∀ w, Hit w ∈ ps → (∃ d, marker (g w) d) ∧ (∃ d', marker (g' w) d')) →
  same_until_bracket (text_of g ps) (text_of g' ps).
Proof.
  induction ps as [|[c|w] ps IH]; intros Hg; cbn [text_of foldr].
  - constructor.
  - fold (text_of g ps) (text_of g' ps).
    destruct (decide (c = "["%char)) as [->|Hc]; [constructor |].
    constructor; [done |]. apply IH. intros w Hw. apply Hg. by right.
  - fold (text_of g ps) (text_of g' ps).
    destruct (Hg w) as [[d Hm] [d' Hm']]; [by left |].
    destruct (marker_tail _ _ Hm) as (t & -> & _).
    destruct (marker_tail _ _ Hm') as (t' & -> & _).
    rewrite !str_app_cons. constructor.
Qed.

(** Writing the hits as other markers leaves the pieces settled. *)
Lemma settled_change g g' ps :
  settled g ps → (∀ w, Hit w ∈ ps → ∃ d, marker (g' w) d) → settled g' ps.
Proof.
  induction ps as [|[c|w] ps IH]; intros Hs Hg'; [done | |]; cbn [settled] in *.
  - destruct Hs as [Hc Hs].
    assert (∀ w, Hit w ∈ ps → ∃ d, marker (g' w) d) as Hg''.
    { intros w Hw. apply Hg'. by right. }
    split; [|by apply IH].
    apply (cite_at_local c (text_of g ps)); [|done].
    apply text_of_same. intros w Hw. split; [|by apply Hg''].
    clear -Hs Hw. induction ps as [|[c'|w'] ps IH]; [by apply elem_of_nil in Hw | |].
    + apply elem_of_cons in Hw as [?|Hw]; [done |]. destruct Hs. by apply IH.
    + destruct Hs as [Hm Hs]. apply elem_of_cons in Hw as [[= ->]|Hw]; [done |].
      by apply IH.
  - destruct Hs as [_ Hs]. split; [apply Hg'; by left |].
    apply IH; [done |]. intros w' Hw'. apply Hg'. by right.
Qed.

(** *** The pattern of one old value *)

Lemma expect_str_app p y : expect_str p (p +:+ y) = Some y.
Proof.
  induction p as [|c p IH]; [done |].
  rewrite str_app_cons. cbn [expect_str]. by rewrite expect_cons.
Qed.

Lemma expect_str_Some p s y : expect_str p s = Some y → s = p +:+ y.
Proof.
  revert s. induction p as [|c p IH]; intros s; cbn [expect_str]; [by intros [= ->] |].
  destruct (expect c s) as [s'|] eqn:Hs; [|done]. cbn [mbind option_bind].
  intros ->%IH. apply expect_Some in Hs. by rewrite str_app_cons.
Qed.

Lemma strip_paren lp d y :
  lp = "" ∨ lp = "(" → all_digits d = true → d ≠ "" →
  strip "(" (lp +:+ d +:+ y) = (lp, d +:+ y).
Proof.
  intros Hlp Hd Hne. destruct d as [|c d]; [done |].
  apply all_digits_head in Hd. destruct Hlp as [-> | ->].
  - rewrite str_app_nil_l, str_app_cons. apply strip_other. by intros <-.
  - apply strip_cons.
Qed.

Lemma expect_str_paren p x :
  all_digits p = true → p ≠ "" → expect_str p (String "(" x) = None.
Proof.
  destruct p as [|c p]; [done |]. intros Hc%all_digits_head _.
  cbn [expect_str expect]. by destruct (Ascii.eqb_spec c "(") as [->|].
Qed.

Lemma match_at_old old s :
  (0 <= old)%Z → match_at (old_pattern old) s = old_at (str old) s.
Proof.
  intros [Hd Hne]%str_digits. unfold match_at, old_pattern. fold closing.
  rewrite ways_bracket_literal; [by destruct (old_at _ _) |].
  intros x. by apply expect_str_paren.
Qed.

Lemma old_at_bracket p c x : c ≠ "["%char → old_at p (String c x) = None.
Proof.
  intros Hc. unfold old_at. cbn [expect].
  by destruct (Ascii.eqb_spec "[" c) as [<-|].
Qed.

Lemma old_at_marker p t d r :
  marker t d → d = p → old_at p (t +:+ r) = Some (Way t r None).
Proof.
  intros [lp d' rp Hlp Hrp Hne Hd] ->. rewrite marker_text.
  unfold old_at. rewrite expect_cons. cbn [mbind option_bind].
  rewrite strip_paren by done. cbn [fst snd].
  rewrite expect_str_app. cbn [mbind option_bind].
  by rewrite (close_at_closing rp r Hrp).
Qed.

Lemma old_at_cite p s w :
  all_digits p = true → p ≠ "" → old_at p s = Some w →
  ∃ w', cite_at s = Some w' ∧ group1 w' = Some p.
Proof.
  intros Hp Hne. unfold old_at.
  destruct (expect "[" s) as [s1|] eqn:Hs; [|done]. cbn [mbind option_bind].
  destruct (expect_str p (strip "(" s1).2) as [s3|] eqn:Hs3; [|done].
  cbn [mbind option_bind].
  destruct (close_at s3) as [w0|] eqn:Hw0; [|done]. intros _.
  apply close_at_Some in Hw0 as (rp & Hrp & _ & ->).
  apply expect_str_Some in Hs3. apply expect_Some in Hs.
  pose proof (strip_split "(" s1) as Hs1. rewrite Hs3 in Hs1.
  assert (marker ("[" +:+ (strip "(" s1).1 +:+ p +:+ rp +:+ "]") p) as Hm.
  { constructor; [apply strip_cases | done..]. }
  exists (Way ("[" +:+ (strip "(" s1).1 +:+ p +:+ rp +:+ "]") (rest w0) (Some p)).
  split; [|done]. rewrite <- (marker_cite_at _ _ (rest w0) Hm). f_equal.
  rewrite marker_text, Hs. f_equal. exact Hs1.
Qed.

(** No old value matches inside a text without opening bracket. *)
Lemma sub_no_bracket old repl t x :
  (0 <= old)%Z → no_bracket t →
  sub (old_pattern old) repl (t +:+ x) = t +:+ sub (old_pattern old) repl x.
Proof.
  intros Hold. induction t as [|c t IH]; intros Ht; [done |].
  destruct Ht as [Hc Ht]. rewrite !str_app_cons, sub_keep.
  - by rewrite IH.
  - rewrite match_at_old by done. by apply old_at_bracket.
Qed.

Lemma marker_digits_unique t d d' : marker t d → marker t d' → d = d'.
Proof.
  intros Hm Hm'. pose proof (marker_cite_at t d "" Hm) as H.
  rewrite (marker_cite_at t d' "" Hm') in H. by injection H.
Qed.

(** One substitution on a settled text: the hits whose digits are the old
    value are written as the replacement, the other pieces stay. *)
Lemma sub_old_text_of old repl g g' ps :
  (0 <= old)%Z →
  settled g ps →
  (∀ w, Hit w ∈ ps →
        ∃ d, marker (g w) d ∧ g' w = if decide (d = str old) then repl else g w) →
  sub (old_pattern old) repl (text_of g ps) = text_of g' ps.
Proof.
  intros Hold. destruct (str_digits old Hold) as [Hp Hne].
  induction ps as [|[c|w] ps IH]; intros Hs Hg; cbn [text_of foldr settled] in *.
  - apply sub_nil. by rewrite match_at_old.
  - fold (text_of g ps) (text_of g' ps). destruct Hs as [Hc Hs].
    rewrite sub_keep.
    + f_equal. apply IH; [done |]. intros w Hw. apply Hg. by right.
    + rewrite match_at_old by done.
      destruct (old_at _ _) as [w|] eqn:Hw; [|done].
      apply old_at_cite in Hw as (w' & Hw' & _); [congruence | done..].
  - fold (text_of g ps) (text_of g' ps). destruct Hs as [_ Hs].
    destruct (Hg w) as (d & Hm & Hg'); [by left |].
    assert (sub (old_pattern old) repl (text_of g ps) = text_of g' ps) as IH'.
    { apply IH; [done |]. intros w' Hw'. apply Hg. by right. }
    rewrite Hg'. destruct (decide (d = str old)) as [Hd|Hd].
    + destruct (marker_nonempty _ _ Hm) as (c & t & Ht).
      rewrite (sub_hit _ _ _ (Way (g w) (text_of g ps) None) c t);
        [cbn [rest]; by rewrite IH' | | done].
      rewrite match_at_old by done. by apply (old_at_marker _ _ d).
    + destruct (marker_tail _ _ Hm) as (t & Ht & Hnb). rewrite Ht, str_app_cons.
      rewrite sub_keep.
      * f_equal. by rewrite sub_no_bracket, IH'.
      * rewrite match_at_old by done.
        destruct (old_at _ _) as [w0|] eqn:Hw0; [|done].
        apply old_at_cite in Hw0 as (w' & Hw' & Hgrp); [|done..].
        rewrite <- str_app_cons, <- Ht, (marker_cite_at _ _ _ Hm) in Hw'.
        injection Hw' as <-. cbn in Hgrp. congruence.
Qed.

(** *** All the substitutions *)

Lemma cites_number_of w v : cites w v → number_of w = Some v.
Proof.
  intros (Hv & _ & Hg & Hs). unfold number_of.
  rewrite Hg, int_str; [done | lia | done].
Qed.

Lemma plainly_cited_hits response w :
  plainly_cited response → short_numerals response →
  Hit w ∈ scan cite_pattern response → ∃ v, cites w v.
Proof.
  intros Hplain Hshort Hw. destruct (scan_hit_match _ _ _ Hw) as [x Hx].
  rewrite match_at_cite in Hx. apply cite_at_marker in Hx as (d & Hm & Hg & _).
  assert (d ∈ findall cite_pattern response) as Hd.
  { apply elem_of_findall. exists w. by rewrite Hg. }
  unfold plainly_cited in Hplain. rewrite Forall_forall in Hplain.
  unfold short_numerals in Hshort. rewrite Forall_forall in Hshort.
  specialize (Hshort d Hd). destruct (Hplain d Hd) as (v & Hv & ->).
  by exists v.
Qed.

Lemma bracketed_marker n : (0 <= n)%Z → marker ("[" +:+ str n +:+ "]") (str n).
Proof.
  intros [Hd Hne]%str_digits.
  by apply (marker_intro "" (str n) ""); [left | left | |].
Qed.

Lemma dict_get_app {K V} `{EqDecision K} (d1 d2 : dict K V) k :
  dict_get (d1 ++ d2) k =
  match dict_get d1 k with
  | Some v => Some v
  | None => dict_get d2 k
  end.
Proof.
  induction d1 as [|[k' v'] d1 IH]; [done |]. cbn [app dict_get].
  by case_decide.
Qed.

Lemma renumbered_marker m w v :
  cites w v → Forall (λ a, 0 <= a.2)%Z m → ∃ d, marker (renumbered m w) d.
Proof.
  intros Hw Hm. unfold renumbered. rewrite (cites_number_of w v Hw).
  cbn [mbind option_bind]. destruct (dict_get m v) as [j|] eqn:Hj.
  - eexists. apply bracketed_marker. apply dict_get_Some_elem in Hj.
    rewrite Forall_forall in Hm. by apply (Hm _ Hj).
  - destruct Hw as (_ & Hmk & _). eauto.
Qed.

Lemma rewrite_all_cons old new todo response :
  rewrite_all ((old, new) :: todo) response =
  rewrite_all todo (sub (old_pattern old) ("[" +:+ str new +:+ "]") response).
Proof. reflexivity. Qed.

Lemma rewrite_all_text_of ps done todo :
  settled matched ps →
  (∀ w, Hit w ∈ ps → ∃ v, cites w v) →
  StronglySorted (λ a b, a.2 < b.1)%Z (done ++ todo) →
  NoDup (keys (done ++ todo)) →
  Forall (λ a, 0 <= a.1 ∧ 0 <= a.2)%Z (done ++ todo) →
  rewrite_all todo (text_of (renumbered done) ps)
  = text_of (renumbered (done ++ todo)) ps.
Proof.
  intros Hps Hcites. revert done.
  induction todo as [|[old new] todo IH]; intros done Hsorted Hnd Hpos.
  { by rewrite app_nil_r. }
  assert (Forall (λ a, 0 <= a.2)%Z done) as Hdone.
  { apply Forall_app in Hpos as [Hpos _]. eapply Forall_impl; [exact Hpos |].
    by intros a [_ ?]. }
  assert (0 <= old ∧ 0 <= new)%Z as [Hold Hnew].
  { apply Forall_app in Hpos as [_ Hpos]. by apply Forall_cons in Hpos as [? _]. }
  rewrite rewrite_all_cons.
  rewrite (sub_old_text_of old _ (renumbered done) (renumbered (done ++ [(old, new)]))).
  - rewrite IH; rewrite <- app_assoc; done.
  - done.
  - apply (settled_change matched); [done |].
    intros w [v Hv]%Hcites. by eapply renumbered_marker.
  - intros w [v Hv]%Hcites. unfold renumbered.
    rewrite (cites_number_of w v Hv). cbn [mbind option_bind].
    rewrite dict_get_app. destruct (dict_get done v) as [j|] eqn:Hj.
    + eexists. split.
      * apply bracketed_marker. apply dict_get_Some_elem in Hj.
        rewrite Forall_forall in Hdone. by apply (Hdone _ Hj).
      * rewrite decide_False; [done |]. intros ->%str_inj.
        apply dict_get_Some_elem in Hj.
        pose proof (StronglySorted_app_1_elem_of _ _ _ (v, old) (old, new)
                      Hsorted Hj ltac:(by left)) as Hlt.
        cbn in Hlt. lia.
    + exists (str v). destruct Hv as (_ & Hmk & _). split; [done |].
      cbn [dict_get]. destruct (decide (old = v)) as [->|Hne].
      * by rewrite decide_True.
      * rewrite decide_False; [done |]. by intros ->%str_inj.
Qed.

Lemma zip_ascending (base : Z) (l : list Z) :
  StronglySorted Z.lt l → Forall (λ x, base <= x)%Z l →
  StronglySorted (λ a b, a.2 < b.1)%Z (zip l (seqZ base (Z.of_nat (length l)))).
Proof.
  intros Hl. revert base. induction Hl as [|x l Hl IH Hx]; intros base Hbase.
  { constructor. }
  apply Forall_cons in Hbase as [Hbx Hbase].
  cbn [length]. rewrite seqZ_cons by lia. cbn [zip zip_with].
  replace (Z.pred (Z.of_nat (S (length l)))) with (Z.of_nat (length l)) by lia.
  constructor.
  - apply IH. rewrite Forall_forall in Hx |- *. intros y Hy.
    specialize (Hx y Hy). lia.
  - apply Forall_forall. intros [y j] Hyj%elem_of_zip_l. cbn.
    rewrite Forall_forall in Hx. specialize (Hx y Hyj). lia.
Qed.

(** The i-th smallest of distinct numbers above [base] is at least
    [base + i]. *)
Lemma zip_rank (base : Z) (l : list Z) (v new : Z) :
  StronglySorted Z.lt l → Forall (λ x, base <= x)%Z l →
  (v, new) ∈ zip l (seqZ base (Z.of_nat (length l))) → (new <= v)%Z.
Proof.
  intros Hl. revert base. induction Hl as [|x l Hl IH Hx]; intros base Hbase.
  { by intros ?%elem_of_nil. }
  apply Forall_cons in Hbase as [Hbx Hbase].
  cbn [length]. rewrite seqZ_cons by lia. cbn [zip zip_with].
  replace (Z.pred (Z.of_nat (S (length l)))) with (Z.of_nat (length l)) by lia.
  intros [[= -> ->]|Hin]%elem_of_cons; [done|].
  apply (IH (Z.succ base)); [|done].
  rewrite Forall_forall in Hx |- *. intros y Hy. specialize (Hx y Hy). lia.
Qed.

Lemma citation_map_of_ascending numbers :
  Forall (λ n, 0 < n)%Z numbers →
  StronglySorted (λ a b, a.2 < b.1)%Z (citation_map_of numbers) ∧
  Forall (λ a, 0 <= a.1 ∧ 0 <= a.2)%Z (citation_map_of numbers).
Proof.
  intros Hpos. rewrite Forall_forall in Hpos. split.
  - apply zip_ascending; [apply sorted_set_sorted |].
    apply Forall_forall. intros x Hx%sorted_set_elem%Hpos. lia.
  - apply Forall_forall. intros [old new] Hin. cbn.
    pose proof (elem_of_zip_l _ _ _ _ Hin) as Hold%sorted_set_elem%Hpos.
    pose proof (elem_of_zip_r _ _ _ _ Hin) as Hnew%elem_of_seqZ. lia.
Qed.

(** The rewrite is right when every marker cites a positive number
    written without leading zeros: [renumber_citations] returns the text
    in which every marker found by the scan, in whichever of its four
    forms, is written as the plain marker of the new number of the number
    it cites, and every other character is kept. *)
Lemma renumber_citations_plain response :
  plainly_cited response →
  short_numerals response →
  ∃ numbers,
    Forall2 (λ d n, int d = Return n ∧ (0 <= n)%Z)
            (findall cite_pattern response) numbers ∧
    renumber_citations response =
      Return (text_of (renumbered (citation_map_of numbers))
                      (scan cite_pattern response),
              citation_map_of numbers).
Proof.
  intros Hplain Hshort.
  destruct (renumber_citations_map response Hshort)
    as (numbers & _ & Hnum & -> & _).
  exists numbers. split; [done |]. do 2 f_equal.
  pose proof (plain_numbers_positive _ _ Hplain Hnum) as Hpos.
  destruct (citation_map_of_ascending numbers Hpos) as [Hasc Hnonneg].
  rewrite <- (scan_text cite_pattern response) at 1.
  rewrite (text_of_ext matched (renumbered []));
    [|intros w _; unfold renumbered; by destruct (number_of w)].
  apply (rewrite_all_text_of _ []).
  - apply scan_settled.
  - intros w Hw. by eapply plainly_cited_hits.
  - done.
  - cbn [app]. rewrite citation_map_of_keys. apply sorted_set_NoDup.
  - done.
Qed.

(** *** Normalizing a normalized text *)

Lemma scan_text_of g ps :
  settled g ps →
  Forall2 (written_from g) (scan cite_pattern (text_of g ps)) ps.
Proof.
  induction ps as [|[c|w] ps IH]; intros Hs; cbn [text_of foldr settled] in *.
  - rewrite scan_eq, match_at_cite. constructor.
  - fold (text_of g ps). destruct Hs as [Hc Hs].
    rewrite scan_eq, match_at_cite, Hc. cbn [step_over].
    constructor; [done | by apply IH].
  - fold (text_of g ps). destruct Hs as [[d Hm] Hs].
    rewrite scan_eq, match_at_cite, (marker_cite_at _ _ _ Hm). cbn [matched rest].
    destruct (marker_nonempty _ _ Hm) as (c & t & Ht). rewrite Ht, <- Ht.
    constructor; [|by apply IH]. split; [done |]. by exists d.
Qed.

Lemma seqZ_sorted (m : Z) (n : nat) : StronglySorted Z.le (seqZ m (Z.of_nat n)).
Proof.
  revert m. induction n as [|n IH]; intros m; [constructor |].
  rewrite seqZ_cons by lia.
  replace (Z.pred (Z.of_nat (S n))) with (Z.of_nat n) by lia.
  constructor; [apply IH |]. apply Forall_forall. intros x Hx%elem_of_seqZ. lia.
Qed.

Lemma sorted_set_eq l k :
  StronglySorted Z.le k → NoDup k → (∀ x, x ∈ k ↔ x ∈ l) → sorted_set l = k.
Proof.
  intros Hk Hnd Hsame. apply (StronglySorted_unique Z.le).
  - unfold sorted_set. apply StronglySorted_merge_sort; apply _.
  - done.
  - apply NoDup_Permutation; [apply sorted_set_NoDup | done |].
    intros x. by rewrite sorted_set_elem, Hsame.
Qed.

Lemma dict_get_elem {K V} `{EqDecision K} (d : dict K V) k v :
  NoDup (keys d) → (k, v) ∈ d → dict_get d k = Some v.
Proof.
  induction d as [|[k' v'] d IH]; intros Hnd Hin; [by apply elem_of_nil in Hin |].
  rewrite keys_cons in Hnd. apply NoDup_cons in Hnd as [Hk' Hnd].
  cbn [dict_get]. apply elem_of_cons in Hin as [[= <- <-]|Hin].
  - by rewrite decide_True.
  - rewrite decide_False; [by apply IH |]. intros ->. apply Hk'.
    unfold keys. apply list_elem_of_fmap. by exists (k, v).
Qed.

Lemma citation_map_of_length numbers :
  length (citation_map_of numbers) = length (sorted_set numbers).
Proof.
  unfold citation_map_of. rewrite length_zip_with, length_seqZ. lia.
Qed.

Lemma identity_map_get K n :
  (1 <= n <= Z.of_nat K)%Z → dict_get (identity_map K) n = Some n.
Proof.
  intros Hn. apply dict_get_elem.
  - unfold keys, identity_map. rewrite fst_zip by done. apply NoDup_seqZ.
  - unfold identity_map. apply list_elem_of_lookup. exists (Z.to_nat (n - 1)).
    rewrite lookup_zip_with, lookup_seqZ_lt by lia. cbn. do 2 f_equal; lia.
Qed.

Section twice.
Context (response : string) (numbers : list Z).
Hypothesis Hplain : plainly_cited response.
Hypothesis Hnumbers :
  Forall2 (λ d n, int d = Return n ∧ (0 <= n)%Z)
          (findall cite_pattern response) numbers.

Local Abbreviation cm := (citation_map_of numbers).
Local Abbreviation ps := (scan cite_pattern response).
Local Abbreviation response' := (text_of (renumbered cm) ps).

Lemma response_short : short_numerals response.
Proof. exact (Forall2_int_short _ _ Hnumbers). Qed.

Lemma numbers_positive : Forall (λ n, 0 < n)%Z numbers.
Proof. exact (plain_numbers_positive _ _ Hplain Hnumbers). Qed.

Lemma cited_number w v : Hit w ∈ ps → cites w v → v ∈ numbers.
Proof.
  intros Hw (Hv & _ & Hg & _).
  assert (str v ∈ findall cite_pattern response) as Hd.
  { apply elem_of_findall. exists w. by rewrite Hg. }
  apply list_elem_of_lookup in Hd as [i Hi].
  destruct (Forall2_lookup_l _ _ _ _ _ Hnumbers Hi) as (n & Hn & Hint & _).
  apply int_str_inv in Hint as ->; [|lia].
  by eapply list_elem_of_lookup_2.
Qed.

Lemma number_cited v : v ∈ numbers → ∃ w, Hit w ∈ ps ∧ cites w v.
Proof.
  intros [i Hi]%list_elem_of_lookup.
  destruct (Forall2_lookup_r _ _ _ _ _ Hnumbers Hi) as (d & Hd & Hint & _).
  apply list_elem_of_lookup_2, elem_of_findall in Hd as (w & Hw & ->).
  exists w. split; [done |].
  destruct (plainly_cited_hits _ _ Hplain response_short Hw)
    as (v' & Hv' & Hm & Hg & Hs).
  rewrite Hg in Hint. cbn in Hint. apply int_str_inv in Hint as ->; [|lia].
  done.
Qed.

Lemma renumbered_cited w v :
  Hit w ∈ ps → cites w v →
  ∃ new, (v, new) ∈ cm ∧ (1 <= new <= Z.of_nat (length cm))%Z ∧
         short (str new) ∧
         renumbered cm w = "[" +:+ str new +:+ "]".
Proof.
  intros Hw Hv. pose proof (cited_number w v Hw Hv) as Hin.
  apply sorted_set_elem in Hin. rewrite <- citation_map_of_keys in Hin.
  apply dict_get_is_Some in Hin as [new Hnew].
  exists new. pose proof (dict_get_Some_elem _ _ _ Hnew) as Hpair.
  pose proof (elem_of_zip_r _ _ _ _ Hpair) as Hr%elem_of_seqZ.
  split; [done | split; [|split]].
  - rewrite citation_map_of_length. lia.
  - apply (short_str_mono new v); [|by destruct Hv as (_ & _ & _ & ?)].
    split; [lia|]. apply (zip_rank 1 (sorted_set numbers)); [| |done].
    + apply sorted_set_sorted.
    + pose proof numbers_positive as Hpos. rewrite Forall_forall in Hpos.
      apply Forall_forall. intros x Hx%sorted_set_elem%Hpos. lia.
  - unfold renumbered. rewrite (cites_number_of w v Hv). cbn. by rewrite Hnew.
Qed.

Lemma settled_renumbered : settled (renumbered cm) ps.
Proof.
  apply (settled_change matched); [apply scan_settled |].
  intros w Hw.
  destruct (plainly_cited_hits _ _ Hplain response_short Hw) as [v Hv].
  destruct (renumbered_cited w v Hw Hv) as (new & _ & Hnew & _ & ->).
  eexists. apply bracketed_marker. lia.
Qed.

(** The hits of the normalized text: plain markers of 1, ..., K. *)
Lemma normalized_hits w' :
  Hit w' ∈ scan cite_pattern response' →
  ∃ new, (1 <= new <= Z.of_nat (length cm))%Z ∧ short (str new) ∧
         matched w' = "[" +:+ str new +:+ "]" ∧ group1 w' = Some (str new).
Proof.
  intros [i Hi]%list_elem_of_lookup.
  destruct (Forall2_lookup_l _ _ _ _ _ (scan_text_of _ _ settled_renumbered) Hi)
    as ([c|w] & Hw & Hfrom); [done |].
  destruct Hfrom as (Hm & d & Hd & Hg).
  apply list_elem_of_lookup_2 in Hw.
  destruct (plainly_cited_hits _ _ Hplain response_short Hw) as [v Hv].
  destruct (renumbered_cited w v Hw Hv) as (new & _ & Hnew & Hs & Hr).
  exists new. rewrite Hm, Hg, Hr.
  split; [done | split; [done | split; [done |]]]. f_equal.
  rewrite Hr in Hd. eapply marker_digits_unique; [done |].
  apply bracketed_marker. lia.
Qed.

Lemma normalized_all_cited new :
  (1 <= new <= Z.of_nat (length cm))%Z →
  str new ∈ findall cite_pattern response'.
Proof.
  intros Hnew.
  assert (∃ v, (v, new) ∈ cm) as [v Hv].
  { rewrite citation_map_of_length in Hnew. unfold citation_map_of.
    destruct (lookup_lt_is_Some_2 (sorted_set numbers) (Z.to_nat (new - 1)))
      as [v Hv]; [lia |].
    exists v. apply list_elem_of_lookup. exists (Z.to_nat (new - 1)).
    rewrite lookup_zip_with, Hv, lookup_seqZ_lt by lia. cbn. do 2 f_equal. lia. }
  pose proof (proj1 (sorted_set_elem _ _) (elem_of_zip_l _ _ _ _ Hv)) as Hin.
  destruct (number_cited v Hin) as (w & Hw & Hc).
  apply list_elem_of_lookup in Hw as [i Hi].
  destruct (Forall2_lookup_r _ _ _ _ _ (scan_text_of _ _ settled_renumbered) Hi)
    as ([c|w'] & Hw' & Hfrom); [done |].
  destruct Hfrom as (Hm & d & Hd & Hg).
  apply elem_of_findall. exists w'. split; [by eapply list_elem_of_lookup_2 |].
  rewrite Hg. cbn.
  destruct (renumbered_cited w v (list_elem_of_lookup_2 _ _ _ Hi) Hc)
    as (new' & Hpair & Hn' & _ & Hr).
  assert (new' = new) as ->.
  { assert (NoDup (keys cm)) as Hnd.
    { rewrite citation_map_of_keys. apply sorted_set_NoDup. }
    pose proof (dict_get_elem _ _ _ Hnd Hv) as H1.
    pose proof (dict_get_elem _ _ _ Hnd Hpair) as H2. congruence. }
  rewrite Hr in Hd. eapply marker_digits_unique; [apply bracketed_marker; lia | done].
Qed.

Lemma normalized_plain : plainly_cited response'.
Proof.
  apply Forall_forall. intros d (w' & Hw' & ->)%elem_of_findall.
  destruct (normalized_hits w' Hw') as (new & Hnew & _ & _ & ->).
  exists new. split; [lia | done].
Qed.

Lemma normalized_short : short_numerals response'.
Proof.
  apply Forall_forall. intros d (w' & Hw' & ->)%elem_of_findall.
  by destruct (normalized_hits w' Hw') as (new & _ & Hs & _ & ->).
Qed.

(** Normalizing again: the text stays, the map is the identity. *)
Lemma renumber_citations_again :
  renumber_citations response' = Return (response', identity_map (length cm)).
Proof.
  destruct (renumber_citations_plain response' normalized_plain normalized_short)
    as (numbers' & Hnum' & ->).
  assert (sorted_set numbers' = seqZ 1 (Z.of_nat (length cm))) as Hsorted.
  { apply sorted_set_eq; [apply seqZ_sorted | apply NoDup_seqZ |].
    intros n. rewrite elem_of_seqZ. split.
    - intros Hn.
      assert (str n ∈ findall cite_pattern response') as Hd
        by (apply normalized_all_cited; lia).
      apply list_elem_of_lookup in Hd as [i Hi].
      destruct (Forall2_lookup_l _ _ _ _ _ Hnum' Hi) as (n' & Hn' & Hint & _).
      apply int_str_inv in Hint as ->; [|lia].
      by eapply list_elem_of_lookup_2.
    - intros [i Hi]%list_elem_of_lookup.
      destruct (Forall2_lookup_r _ _ _ _ _ Hnum' Hi) as (d & Hd & Hint & _).
      apply list_elem_of_lookup_2, elem_of_findall in Hd as (w' & Hw' & ->).
      destruct (normalized_hits w' Hw') as (new & Hnew & _ & _ & Hg).
      rewrite Hg in Hint. cbn in Hint. apply int_str_inv in Hint as ->; lia. }
  assert (citation_map_of numbers' = identity_map (length cm)) as ->.
  { unfold citation_map_of, identity_map. rewrite Hsorted, length_seqZ.
    by rewrite Nat2Z.id. }
  do 2 f_equal. rewrite <- (scan_text cite_pattern response') at 2.
  apply text_of_ext. intros w' Hw'.
  destruct (normalized_hits w' Hw') as (new & Hnew & Hs & Hm & Hg).
  unfold renumbered, number_of. rewrite Hg, int_str by (done || lia). cbn.
  by rewrite identity_map_get, Hm.
Qed.
End twice.

(** Normalizing twice, when every marker cites a positive number written
    without leading zeros: the second run returns the text of the first
    unchanged, and the identity on 1, ..., K as its map. *)
Lemma renumber_citations_idempotent response response' citation_map :
  plainly_cited response →
  renumber_citations response = Return (response', citation_map) →
  renumber_citations response' =
    Return (response', identity_map (length citation_map)).
Proof.
  intros Hplain Hfirst.
  pose proof (renumber_citations_short _ _ _ Hfirst) as Hshort.
  destruct (renumber_citations_plain response Hplain Hshort)
    as (numbers & Hnum & Heq).
  rewrite Heq in Hfirst. injection Hfirst as <- <-.
  by apply renumber_citations_again.
Qed.

(** ** The hits after the substitutions, for any text *)

Lemma digits_in_marker t d : marker t d → digits_in t = d.
Proof.
  intros Hm. unfold digits_in. rewrite <- (str_app_nil_r t) at 1.
  by rewrite (marker_cite_at _ _ _ Hm).
Qed.

Lemma written_marker ps done g w :
  written ps done g → Hit w ∈ ps → ∃ d, marker (g w) d.
Proof. intros Hg Hw. destruct (Hg w Hw) as (d & Hm & _). eauto. Qed.

(** All the substitutions, for any text: every hit ends up written in the
    plain form, or as it was matched with digits that are the numeral of
    no old value. *)
Lemma rewrite_all_written ps todo g done :
  settled matched ps →
  Forall (λ a, 0 <= a.1 ∧ 0 <= a.2)%Z todo →
  written ps done g →
  ∃ g', rewrite_all todo (text_of g ps) = text_of g' ps ∧
        written ps (done ++ todo) g'.
Proof.
  intros Hps. revert g done.
  induction todo as [|[old new] todo IH]; intros g done Hpos Hg.
  { exists g. by rewrite app_nil_r. }
  apply Forall_cons in Hpos as [[Hold Hnew] Hpos]. cbn [fst snd] in *.
  rewrite rewrite_all_cons.
  rewrite (sub_old_text_of old _ g (rewritten old new g)); [|done | |].
  - destruct (IH (rewritten old new g) (done ++ [(old, new)])) as (g' & -> & Hg');
      [done | |].
    + intros w Hw. destruct (Hg w Hw) as (d & Hm & Hd).
      unfold rewritten. rewrite (digits_in_marker _ _ Hm).
      destruct (decide (d = str old)) as [->|Hne].
      * exists (str new). split; [by apply bracketed_marker | by left].
      * exists d. split; [done |]. destruct Hd as [Hd|[Hd Hdone]]; [by left |].
        right. split; [done |]. intros o n [Hin|Hin]%elem_of_app; [by eapply Hdone |].
        apply list_elem_of_singleton in Hin as [= -> ->]. done.
    + exists g'. split; [done |]. by rewrite <- app_assoc in Hg'.
  - apply (settled_change matched); [done |]. intros w Hw. by eapply written_marker.
  - intros w Hw. destruct (Hg w Hw) as (d & Hm & _). exists d. split; [done |].
    unfold rewritten. by rewrite (digits_in_marker _ _ Hm).
Qed.

Lemma numbers_in_Forall2 s numbers :
  Forall2 (λ d n, int d = Return n ∧ (0 <= n)%Z) (findall cite_pattern s) numbers →
  numbers_in s = numbers.
Proof.
  unfold numbers_in. induction 1 as [|d n ds ns [Hd _] _ IH]; [done |].
  cbn. by rewrite Hd, IH.
Qed.

Lemma citation_map_of_nonneg numbers :
  Forall (λ n, 0 <= n)%Z numbers →
  Forall (λ a, 0 <= a.1 ∧ 0 <= a.2)%Z (citation_map_of numbers).
Proof.
  intros Hpos. rewrite Forall_forall in Hpos.
  apply Forall_forall. intros [old new] Hin. cbn.
  pose proof (proj1 (sorted_set_elem _ _) (elem_of_zip_l _ _ _ _ Hin)) as Hold.
  pose proof (elem_of_zip_r _ _ _ _ Hin) as Hnew%elem_of_seqZ.
  apply Hpos in Hold. lia.
Qed.

(** The hits of the first run's output are tidy. *)
Lemma renumber_citations_tidy response numbers :
  Forall2 (λ d n, int d = Return n ∧ (0 <= n)%Z)
          (findall cite_pattern response) numbers →
  ∃ g, rewrite_all (citation_map_of numbers) response
       = text_of g (scan cite_pattern response) ∧
       settled g (scan cite_pattern response) ∧
       (∀ w, Hit w ∈ scan cite_pattern response → tidy (g w)).
Proof.
  intros Hnum.
  assert (∀ w, Hit w ∈ scan cite_pattern response →
               ∃ d, marker (matched w) d ∧ group1 w = Some d) as Hhits.
  { intros w [x Hx]%scan_hit_match. rewrite match_at_cite in Hx.
    apply cite_at_marker in Hx as (d & Hm & Hg & _). eauto. }
  destruct (rewrite_all_written (scan cite_pattern response)
              (citation_map_of numbers) matched []) as (g & Hg & Hw).
  - apply scan_settled.
  - apply citation_map_of_nonneg. clear -Hnum.
    induction Hnum as [|d n ds ns [_ Hn] _ IH]; by constructor.
  - intros w Hw. destruct (Hhits w Hw) as (d & Hm & _). exists d.
    split; [done |]. right. split; [done |]. by intros o n ?%elem_of_nil.
  - rewrite scan_text in Hg. exists g. split; [done |]. split.
    + apply (settled_change matched); [apply scan_settled |].
      intros w Hin. by eapply written_marker.
    + intros w Hin. destruct (Hw w Hin) as (d & Hm & Hd). exists d.
      split; [done |]. destruct Hd as [Hd|[Hd Hkeys]]; [by left |]. right.
      intros i Hi ->. destruct (Hhits w Hin) as (d' & Hm' & Hgrp).
      rewrite Hd in Hm. rewrite (marker_digits_unique _ _ _ Hm' Hm) in Hgrp.
      assert (str i ∈ findall cite_pattern response) as Hfa.
      { apply elem_of_findall. exists w. by rewrite Hgrp. }
      apply list_elem_of_lookup in Hfa as [k Hk].
      destruct (Forall2_lookup_l _ _ _ _ _ Hnum Hk) as (n & Hn & Hint & _).
      apply int_str_inv in Hint; [|done]. subst n.
      apply list_elem_of_lookup_2, sorted_set_elem in Hn.
      rewrite <- citation_map_of_keys in Hn.
      apply dict_get_is_Some in Hn as [new Hnew%dict_get_Some_elem].
      by apply (Hkeys i new).
Qed.

(** * Further properties *)

(** ** Retrieval without evidence *)




Lemma as_completed_lookup order fs f :
  f ∈ as_completed order fs → ∃ i, i ∈ order ∧ fs !! i = Some f.
Proof. unfold as_completed. by rewrite list_elem_of_omap. Qed.




(** ** Exceptions that the fetcher does not catch *)

Lemma collect_first_raise pre e post d :
  Forall (λ f : future, ∃ r, f = Return r) pre →
  collect (pre ++ Raise e :: post) d = Raise e.
Proof.
  intros Hpre. revert d.
  induction Hpre as [|f pre [r ->] _ IH]; intros d; [done|].
  cbn [app collect]. cbn.
  destruct (truthy r.1); [|apply IH].
  destruct r.2 as [page_text|]; [|apply IH].
  destruct (truthy page_text); apply IH.
Qed.

Lemma fetch_webpage_uncaught url t w e :
  Forall (λ now, now <= clock_start w + TOTAL_TIMEOUT)%Q (trace_clock w) →
  requests_get w = Raise e → caught_by_fetch e = false →
  (fetch_webpage url t w).2 = Raise e.
Proof.
  intros Hticks He Hc. rewrite fetch_webpage_in_time by done.
  unfold fetch_block. rewrite He. cbn. by rewrite Hc.
Qed.

Lemma as_completed_app order1 order2 fs :
  as_completed (order1 ++ order2) fs
  = as_completed order1 fs ++ as_completed order2 fs.
Proof. apply omap_app. Qed.

Lemma as_completed_cons i order fs f :
  fs !! i = Some f → as_completed (i :: order) fs = f :: as_completed order fs.
Proof. intros Hf. unfold as_completed. cbn. by rewrite Hf. Qed.

(** X2: [google_parse_webpages] is not shielded from a fetch that ends in
    an exception other than a request exception or a [TimeoutError]: when
    the first future to complete with such an exception is reached, the
    call raises it, and the pages collected so far are lost. *)
Theorem google_parse_webpages_uncaught (query : string) (num_search : nat)
    (t : Q) (w : Pool) (pre post : list nat) (i : nat) (url : string)
    (e : exn) :
  completion w = pre ++ i :: post →
  (∀ j, j ∈ pre → declared (task w j)) →
  search w query num_search !! i = Some url →
  Forall (λ now, now <= clock_start (task w i) + TOTAL_TIMEOUT)%Q
         (trace_clock (task w i)) →
  requests_get (task w i) = Raise e →
  caught_by_fetch e = false →
  google_parse_webpages query num_search t w = Raise e.
Proof.
  intros Horder Hpre Hurl Hticks He Hc.
  unfold google_parse_webpages. rewrite Horder, as_completed_app.
  rewrite (as_completed_cons _ _ _ (Raise e)).
  2:{ rewrite submit_all_lookup, Hurl.
      exact (f_equal Some (fetch_webpage_uncaught url t (task w i) e Hticks He Hc)). }
  apply collect_first_raise.
  apply Forall_forall. intros f (j & Hj & Hf)%as_completed_lookup.
  rewrite submit_all_lookup in Hf.
  destruct (search w query num_search !! j) as [u|]; [|done].
  injection Hf as <-.
  destruct (fetch_webpage_returns u t (task w j)) as [x Hx]; [by apply Hpre|].
  eauto.
Qed.

Lemma google_parse_webpages_uncaught_witness :
  google_parse_webpages "q" NUM_SEARCH SEARCH_TIME_LIMIT broken_pool
  = Raise (OtherError "MemoryError").
Proof.
  apply (google_parse_webpages_uncaught "q" NUM_SEARCH SEARCH_TIME_LIMIT
           broken_pool [2] [0] 1 "http://b").
  - reflexivity.
  - intros j Hj. apply list_elem_of_singleton in Hj as ->. exact I.
  - reflexivity.
  - apply Forall_cons. split; [|apply Forall_nil_2]. cbn. unfold Qle. cbn. lia.
  - reflexivity.
  - reflexivity.
Defined.

(** ** The order of the evidence map *)

Lemma omap_cons {A B} (f : A → option B) x l :
  omap f (x :: l) = match f x with
                    | Some y => y :: omap f l
                    | None => omap f l
                    end.
Proof. reflexivity. Qed.

Lemma evidence_of_url urls t w i u text :
  evidence_of urls t w i = Some (u, text) → urls !! i = Some u.
Proof.
  unfold evidence_of. destruct (urls !! i) as [url|]; [|done].
  cbn [mbind option_bind].
  destruct (fetch_webpage url t (task w i)).2 as [[u' [text'|]]|] eqn:Hf;
    [|done..].
  apply fetch_webpage_fst in Hf. cbn [fst] in Hf. subst u'.
  destruct (truthy url && truthy text'); [|done]. by intros [= -> _].
Qed.

Lemma evidence_of_NoDup urls t w order :
  NoDup urls → NoDup order → NoDup (omap (evidence_of urls t w) order).*1.
Proof.
  intros Hurls. induction 1 as [|i order Hi _ IH]; [constructor|].
  rewrite omap_cons.
  destruct (evidence_of urls t w i) as [[u text]|] eqn:Hev; [|done].
  cbn. apply NoDup_cons. split; [|done].
  intros ([u' text'] & [= <-] & (j & Hj & Hev')%list_elem_of_omap)%list_elem_of_fmap.
  apply evidence_of_url in Hev, Hev'.
  by rewrite (NoDup_lookup _ _ _ _ Hurls Hev Hev') in Hi.
Qed.

Lemma keep_in_order urls t w order d :
  NoDup (keys d ++ (omap (evidence_of urls t w) order).*1) →
  fold_left keep (returned (as_completed order (submit_all urls t w))) d
  = d ++ omap (evidence_of urls t w) order.
Proof.
  revert d. induction order as [|i order IH]; intros d Hnd.
  { cbn. by rewrite app_nil_r. }
  rewrite omap_cons in Hnd |- *.
  unfold as_completed, returned. rewrite omap_cons, submit_all_lookup.
  unfold evidence_of at 1. unfold evidence_of at 1 in Hnd.
  destruct (urls !! i) as [url|]; cbn [fmap option_fmap option_map mbind option_bind];
    [|by apply IH].
  cbn [mbind option_bind] in Hnd.
  destruct (fetch_webpage url t (task w i)).2 as [[u x]|e]; rewrite ?omap_cons;
    [|by apply IH].
  cbn [fold_left]. unfold keep at 2, kept. cbn [fst snd].
  destruct x as [text|]; cbn [truthy_opt default];
    [|rewrite andb_false_r; by apply IH].
  destruct (truthy u && truthy text); [|by apply IH].
  cbn [fmap list_fmap fst] in Hnd.
  rewrite dict_set_fresh.
  - etrans; [apply (IH (d ++ [(u, text)]))|by rewrite <- app_assoc].
    unfold keys in *. rewrite fmap_app, <- app_assoc. exact Hnd.
  - apply NoDup_app in Hnd as (_ & Hnd & _). intros Hin.
    apply (Hnd u Hin). apply list_elem_of_here.
Qed.

(** X3: when the search yields distinct URLs, every fetch succeeds, fails
    or times out, and every future completes once, the dictionary that
    [google_parse_webpages] returns lists the pages that arrived with a
    non-empty text in the order in which their fetches completed, not in
    the order of the search results. *)
Theorem google_parse_webpages_in_completion_order (query : string)
    (num_search : nat) (t : Q) (w : Pool) :
  all_declared w (length (search w query num_search)) →
  NoDup (search w query num_search) →
  NoDup (completion w) →
  google_parse_webpages query num_search t w
  = Return (omap (evidence_of (search w query num_search) t w) (completion w)).
Proof.
  intros Hw Hurls Horder.
  rewrite google_parse_webpages_returned by done.
  rewrite keep_in_order; [done|].
  cbn. by apply evidence_of_NoDup.
Qed.

Lemma google_parse_webpages_in_completion_order_witness :
  google_parse_webpages "q" NUM_SEARCH SEARCH_TIME_LIMIT shuffled_pool
  = Return [("http://c", "third"); ("http://a", "first"); ("http://b", "second")].
Proof.
  apply (google_parse_webpages_in_completion_order "q" NUM_SEARCH
           SEARCH_TIME_LIMIT shuffled_pool).
  - intros [|[|i]] _; exact I.
  - apply (bool_decide_unpack _). vm_compute. reflexivity.
  - apply (bool_decide_unpack _). vm_compute. reflexivity.
Defined.

(** ** What the pattern finds *)

Lemma scan_cite_hit_at s w :
  Hit w ∈ scan cite_pattern s →
  ∃ pre d, marker (matched w) d ∧ group1 w = Some d ∧
           s = pre +:+ matched w +:+ rest w.
Proof.
  remember (String.length s) as n eqn:Hn. revert s Hn.
  induction (lt_wf n) as [n _ IH]. intros s -> Hin.
  rewrite scan_eq, match_at_cite in Hin.
  destruct (cite_at s) as [w0|] eqn:Hw0.
  - destruct (cite_at_marker s w0 Hw0) as (d0 & Hm0 & Hg0 & Hs).
    destruct (marker_nonempty _ _ Hm0) as (c & t & Ht). rewrite Ht in Hin.
    apply elem_of_cons in Hin as [[= ->]|Hin].
    + exists "", d0. by rewrite str_app_nil_l.
    + assert (String.length (rest w0) < String.length s)%nat as Hlt
        by (apply (match_at_shorter cite_pattern s w0 c t);
            [by rewrite match_at_cite|done]).
      destruct (IH _ Hlt (rest w0) eq_refl Hin) as (pre & d & Hm & Hg & Hrest).
      exists (matched w0 +:+ pre), d. split_and!; [done..|].
      by rewrite str_app_assoc, <- Hrest.
  - destruct s as [|c s']; [by apply elem_of_nil in Hin |].
    cbn [step_over] in Hin. apply elem_of_cons in Hin as [?|Hin]; [done |].
    assert (String.length s' < String.length (String c s'))%nat as Hlt
      by (cbn; lia).
    destruct (IH _ Hlt s' eq_refl Hin) as (pre & d & Hm & Hg & Hrest).
    exists (String c pre), d. split_and!; [done..|].
    by rewrite str_app_cons, <- Hrest.
Qed.

Lemma no_bracket_prefix a x b y :
  no_bracket a → a +:+ x = b +:+ String "[" y → ∃ b', b = a +:+ b'.
Proof.
  revert b. induction a as [|c a IH]; intros b Ha Heq.
  - exists b. by rewrite str_app_nil_l.
  - destruct Ha as [Hc Ha]. rewrite str_app_cons in Heq.
    destruct b as [|c' b].
    + rewrite str_app_nil_l in Heq. by injection Heq as -> _.
    + rewrite str_app_cons in Heq. injection Heq as <- Heq.
      destruct (IH b Ha Heq) as [b' ->]. exists b'. by rewrite str_app_cons.
Qed.

Lemma str_app_inv_head a x y : a +:+ x = a +:+ y → x = y.
Proof.
  induction a as [|c a IH]; [by rewrite !str_app_nil_l|].
  rewrite !str_app_cons. intros [= H]. by apply IH.
Qed.

Lemma marker_scan_at pre t d post :
  marker t d →
  Hit (Way t post (Some d)) ∈ scan cite_pattern (pre +:+ t +:+ post).
Proof.
  intros Hm.
  remember (String.length pre) as n eqn:Hn. revert pre Hn.
  induction (lt_wf n) as [n _ IH]. intros pre ->.
  rewrite scan_eq, match_at_cite.
  destruct pre as [|c pre].
  - rewrite str_app_nil_l, (marker_cite_at _ _ _ Hm). cbn [matched].
    destruct (marker_nonempty _ _ Hm) as (c & t' & ->). left.
  - rewrite str_app_cons.
    destruct (cite_at _) as [w0|] eqn:Hw0.
    + destruct (cite_at_marker _ _ Hw0) as (d0 & Hm0 & _ & Hs).
      destruct (marker_tail _ _ Hm0) as (t0 & Ht0 & Hnb).
      destruct (marker_tail _ _ Hm) as (t1 & Ht1 & _).
      rewrite Ht0. right.
      rewrite Ht0, str_app_cons in Hs. injection Hs as -> Hs.
      rewrite Ht1, str_app_cons in Hs.
      destruct (no_bracket_prefix t0 (rest w0) pre (t1 +:+ post)) as [pre' ->];
        [done..|].
      rewrite str_app_assoc in Hs. apply str_app_inv_head in Hs.
      rewrite <- Hs, <- str_app_cons, <- Ht1.
      apply (IH (String.length pre')); [|done].
      cbn. rewrite str_app_length. lia.
    + cbn [step_over]. right. apply (IH (String.length pre)); [cbn; lia|done].
Qed.

(** X4: [re.findall] with the citation pattern returns exactly the digit
    strings of the citation markers that occur in the text: a string is
    among the results if and only if the text contains an opening bracket,
    an optional parenthesis, that string as a non-empty run of digits, an
    optional parenthesis and a closing bracket. *)
Theorem findall_cite_pattern_markers (s d : string) :
  d ∈ findall cite_pattern s ↔
  ∃ pre t post, marker t d ∧ s = pre +:+ t +:+ post.
Proof.
  rewrite elem_of_findall. split.
  - intros (w & (pre & d' & Hm & Hg & Hs)%scan_cite_hit_at & ->).
    rewrite Hg. cbn. by exists pre, (matched w), (rest w).
  - intros (pre & t & post & Hm & ->).
    exists (Way t post (Some d)). split; [by apply marker_scan_at|done].
Qed.

(** ** The map of every text *)

(** X5: [renumber_citations] returns exactly when no marker of the text
    has more digits than [int] accepts (4300, leading zeros counted), and
    raises [ValueError] otherwise.  When it returns, the keys of the map
    are the distinct numbers cited in the text in ascending order, and
    the values are 1, 2, ..., K in that order, so the map sends the i-th
    smallest cited number to i. *)
Theorem renumber_citations_returns_map (response : string) :
  (short_numerals response →
   ∃ y cm,
     renumber_citations response = Return (y, cm) ∧
     Forall2 (λ d n, int d = Return n ∧ (0 <= n)%Z)
             (findall cite_pattern response) (numbers_in response) ∧
     keys cm = sorted_set (numbers_in response) ∧
     cm.*2 = seqZ 1 (Z.of_nat (length cm)) ∧
     StronglySorted Z.lt (keys cm) ∧
     (∀ v, v ∈ keys cm ↔ v ∈ numbers_in response)) ∧
  (¬ short_numerals response →
   renumber_citations response = Raise ValueError).
Proof.
  split; [|apply renumber_citations_long].
  intros Hshort.
  destruct (renumber_citations_map response Hshort)
    as (numbers & _ & Hnum & Heq & Hkeys & Hvalues & Hsorted & Helem).
  rewrite (numbers_in_Forall2 _ _ Hnum).
  eexists _, _. split; [exact Heq|].
  rewrite Hkeys. done.
Qed.

Lemma renumber_citations_returns_map_witness :
  (∃ y cm, renumber_citations "[5] [2] [5]" = Return (y, cm) ∧
           keys cm = sorted_set (numbers_in "[5] [2] [5]")) ∧
  renumber_citations ("[" +:+ nines 4301 +:+ "]") = Raise ValueError.
Proof.
  split.
  - destruct (proj1 (renumber_citations_returns_map "[5] [2] [5]"))
      as (y & cm & Heq & _ & Hk & _).
    + apply (bool_decide_unpack _). vm_compute. reflexivity.
    + by exists y, cm.
  - apply (proj2 (renumber_citations_returns_map _)).
    apply (bool_decide_unpack _). vm_compute. reflexivity.
Defined.

(** A marker of 4300 digits is read, one of 4301 digits is not. *)
Example renumber_citations_digit_limit :
  renumber_citations ("[" +:+ nines 4300 +:+ "]")
    = Return ("[1]", [(10 ^ 4300 - 1, 1)]%Z) ∧
  renumber_citations ("[" +:+ nines 4301 +:+ "]") = Raise ValueError.
Proof. split; vm_compute; reflexivity. Qed.

(** ** The rewrite, marker by marker *)

(** X6: when every marker of the text cites a positive number written
    without leading zeros, the text that [renumber_citations] returns is
    the input with every marker replaced by the bracketed new number of
    the number it cites, in the plain form without parentheses, and with
    every other character kept. *)
Theorem renumber_citations_rewrites_plain (response y : string)
    (cm : dict Z Z) :
  plainly_cited response →
  renumber_citations response = Return (y, cm) →
  response = text_of matched (scan cite_pattern response) ∧
  y = text_of (renumbered cm) (scan cite_pattern response) ∧
  ∀ w, Hit w ∈ scan cite_pattern response →
       ∃ old new,
         marker (matched w) (str old) ∧
         dict_get cm old = Some new ∧
         (1 <= new <= Z.of_nat (length cm))%Z ∧
         renumbered cm w = "[" +:+ str new +:+ "]".
Proof.
  intros Hplain Hfirst.
  pose proof (renumber_citations_short _ _ _ Hfirst) as Hshort.
  destruct (renumber_citations_plain response Hplain Hshort)
    as (numbers & Hnum & Heq).
  rewrite Heq in Hfirst. injection Hfirst as <- <-.
  split; [by rewrite scan_text|]. split; [done|].
  intros w Hw.
  destruct (plainly_cited_hits response w Hplain Hshort Hw) as [old Hold].
  destruct (renumbered_cited response numbers Hplain Hnum w old Hw Hold)
    as (new & Hin & Hnew & _ & Hg).
  exists old, new.
  split; [by destruct Hold as (_ & ? & _)|]. split; [|by split].
  apply dict_get_elem; [|done].
  rewrite citation_map_of_keys. apply sorted_set_NoDup.
Qed.

Lemma renumber_citations_rewrites_plain_witness :
  "a [2] b [1] c [2]."
  = text_of (renumbered [(2, 1); (5, 2)]%Z)
            (scan cite_pattern "a [5] b [(2)] c [5].").
Proof.
  destruct (renumber_citations_rewrites_plain "a [5] b [(2)] c [5]."
              "a [2] b [1] c [2]." [(2, 1); (5, 2)]%Z) as (_ & H & _).
  - unfold plainly_cited.
    replace (findall cite_pattern "a [5] b [(2)] c [5].") with ["5"; "2"; "5"]
      by (vm_compute; reflexivity).
    apply Forall_cons. split; [by exists 5%Z|].
    apply Forall_cons. split; [by exists 2%Z|].
    apply Forall_cons. split; [by exists 5%Z|apply Forall_nil_2].
  - vm_compute. reflexivity.
  - exact H.
Defined.

(** X7: when every marker of the text cites a positive number written
    without leading zeros, the text that [renumber_citations] returns
    cites exactly 1, ..., K, again in that plain way, and normalizing it
    once more returns it unchanged with the identity map. *)
Theorem renumber_citations_plain_fixed (response y : string)
    (cm : dict Z Z) :
  plainly_cited response →
  renumber_citations response = Return (y, cm) →
  plainly_cited y ∧
  sorted_set (numbers_in y) = seqZ 1 (Z.of_nat (length cm)) ∧
  renumber_citations y = Return (y, identity_map (length cm)).
Proof.
  intros Hplain Hfirst.
  pose proof (renumber_citations_idempotent _ _ _ Hplain Hfirst) as Hagain.
  pose proof (renumber_citations_short _ _ _ Hfirst) as Hshort.
  destruct (renumber_citations_plain response Hplain Hshort)
    as (numbers & Hnum & Heq).
  rewrite Heq in Hfirst. injection Hfirst as <- <-.
  split_and!; [| |done].
  - by apply normalized_plain.
  - destruct (renumber_citations_map
                (text_of (renumbered (citation_map_of numbers))
                         (scan cite_pattern response))
                (renumber_citations_short _ _ _ Hagain))
      as (numbers' & _ & Hnum' & Heq' & Hkeys' & _).
    rewrite Heq' in Hagain. injection Hagain as _ Hmap.
    rewrite (numbers_in_Forall2 _ _ Hnum'), <- Hkeys', Hmap.
    unfold identity_map, keys. rewrite fst_zip; [done|].
    by rewrite !length_seqZ.
Qed.

Lemma renumber_citations_plain_fixed_witness :
  renumber_citations "a [2] b [1] c [2]."
  = Return ("a [2] b [1] c [2].", identity_map 2).
Proof.
  destruct (renumber_citations_plain_fixed "a [5] b [(2)] c [5]."
              "a [2] b [1] c [2]." [(2, 1); (5, 2)]%Z) as (_ & _ & H).
  - unfold plainly_cited.
    replace (findall cite_pattern "a [5] b [(2)] c [5].") with ["5"; "2"; "5"]
      by (vm_compute; reflexivity).
    apply Forall_cons. split; [by exists 5%Z|].
    apply Forall_cons. split; [by exists 2%Z|].
    apply Forall_cons. split; [by exists 5%Z|apply Forall_nil_2].
  - vm_compute. reflexivity.
  - exact H.
Defined.

(** ** What the rewrite leaves alone *)

(** X8: whenever [renumber_citations] returns, the text it returns has
    the same characters outside citation markers as the input and a
    citation marker exactly where the input has one: the substitutions
    neither add nor remove a marker, and change nothing else. *)
Theorem renumber_citations_keeps_rest (response y : string)
    (cm : dict Z Z) :
  renumber_citations response = Return (y, cm) →
  Forall2 aligned (scan cite_pattern y) (scan cite_pattern response) ∧
  length (findall cite_pattern y) = length (findall cite_pattern response).
Proof.
  intros Hfirst.
  destruct (renumber_citations_map response
              (renumber_citations_short _ _ _ Hfirst))
    as (numbers & _ & Hnum & Heq & _).
  rewrite Heq in Hfirst. injection Hfirst as <- <-.
  destruct (renumber_citations_tidy response numbers Hnum) as (g & Hy & Hs & _).
  rewrite Hy.
  assert (Forall2 aligned (scan cite_pattern (text_of g (scan cite_pattern response)))
                  (scan cite_pattern response)) as Hal.
  { eapply Forall2_impl; [by apply scan_text_of|].
    intros [c'|w'] [c|w]; cbn; tauto. }
  split; [done|].
  unfold findall. revert Hal.
  generalize (scan cite_pattern (text_of g (scan cite_pattern response))).
  generalize (scan cite_pattern response).
  intros ps ps' Hal. induction Hal as [|p' p ps' ps Hp _ IH]; [done|].
  rewrite !omap_cons. destruct p' as [c'|w'], p as [c|w]; cbn in Hp |- *;
    try done. by rewrite IH.
Qed.

Lemma renumber_citations_keeps_rest_witness :
  Forall2 aligned (scan cite_pattern "see [1] and [07], [3].")
                  (scan cite_pattern "see [4] and [07], [(9)].") ∧
  length (findall cite_pattern "see [1] and [07], [3].")
  = length (findall cite_pattern "see [4] and [07], [(9)].").
Proof.
  apply (renumber_citations_keeps_rest "see [4] and [07], [(9)]."
           "see [1] and [07], [3]." [(4, 1); (7, 2); (9, 3)]%Z).
  vm_compute. reflexivity.
Defined.

(** ** When the file is written *)

Lemma index_source d old :
  d ≠ [] → (0 <= old <= Z.of_nat (length d))%Z →
  index (keys d) (old - 1) = Return (source_of d old).
Proof.
  intros Hd Hold. unfold source_of.
  assert (length (keys d) = length d) as Hlen by (unfold keys; apply length_fmap).
  assert (0 < length d)%nat as Hpos by (destruct d; [done|cbn; lia]).
  destruct (decide (old = 0%Z)) as [->|Hne].
  - unfold index. rewrite last_lookup, Hlen.
    change (0 - 1 <? 0)%Z with true. cbv iota.
    replace (Z.of_nat (length d) + (0 - 1) <? 0)%Z with false by (symmetry; lia).
    replace (Z.to_nat (Z.of_nat (length d) + (0 - 1))) with (pred (length d))
      by lia.
    destruct (lookup_lt_is_Some_2 (keys d) (pred (length d))) as [url Hurl];
      [lia|].
    by rewrite Hurl.
  - destruct (lookup_lt_is_Some_2 (keys d) (Z.to_nat (old - 1))) as [url Hurl];
      [lia|].
    rewrite (index_in_range _ _ url) by (done || lia).
    by rewrite (nth_lookup_Some _ _ _ _ Hurl).
Qed.

Lemma mapM_cited_link_sources d citation_map :
  d ≠ [] →
  Forall (λ pair, 0 <= pair.1 <= Z.of_nat (length d))%Z citation_map →
  mapM (cited_link d) citation_map =
  Return (map (λ pair, str pair.2 +:+ ". " +:+ source_of d pair.1) citation_map).
Proof.
  intros Hd. induction 1 as [|[old new] cm Hold _ IH]; [done |].
  rewrite mapM_outcome_cons, IH, cited_link_pair. cbn [map fst snd] in *.
  by rewrite index_source.
Qed.

Lemma index_nil {A} (i : Z) : index (@nil A) i = Raise IndexError.
Proof. unfold index. rewrite lookup_nil. by repeat case_match. Qed.

Lemma mapM_cited_link_empty pair citation_map :
  mapM (cited_link []) (pair :: citation_map) = Raise IndexError.
Proof.
  destruct pair as [old new]. rewrite mapM_outcome_cons, cited_link_pair.
  change (keys []) with (@nil string). by rewrite index_nil.
Qed.

Lemma generate_citation_links_None pair citation_map :
  generate_citation_links (pair :: citation_map) None = Raise AttributeError.
Proof. by destruct pair. Qed.

Lemma generate_citation_links_returns citation_map search_dic :
  citation_map ≠ [] →
  Forall (λ pair, 0 <= pair.1)%Z citation_map →
  (∃ links, generate_citation_links citation_map search_dic = Return links) ↔
  ∃ d, search_dic = Some d ∧ d ≠ [] ∧
       Forall (λ pair, pair.1 <= Z.of_nat (length d))%Z citation_map.
Proof.
  intros Hcm Hnonneg. destruct citation_map as [|pair cm]; [done|].
  destruct search_dic as [d|].
  2:{ rewrite generate_citation_links_None.
      split; [by intros [? ?]|by intros (? & ? & _)]. }
  rewrite generate_citation_links_Some.
  destruct d as [|kv d].
  { rewrite mapM_cited_link_empty.
    split; [by intros [? ?]|by intros (? & [= <-] & ? & _)]. }
  destruct (decide (Forall (λ pair, pair.1 <= Z.of_nat (length (kv :: d)))%Z
                           (pair :: cm))) as [Hin|Hout].
  - rewrite mapM_cited_link_sources; [|done|].
    + split; [|by eexists]. intros _. by exists (kv :: d).
    + apply Forall_forall. intros x Hx.
      rewrite Forall_forall in Hnonneg, Hin.
      specialize (Hnonneg x Hx). specialize (Hin x Hx). cbn in *. lia.
  - apply not_Forall_Exists in Hout; [|apply _].
    rewrite mapM_cited_link_too_large.
    + split; [by intros [? ?]|]. intros (d' & [= <-] & _ & Hin).
      apply Exists_exists in Hout as (x & Hx & Hgt).
      rewrite Forall_forall in Hin. destruct Hgt. by apply Hin.
    + eapply Exists_impl; [exact Hout|]. intros x Hx.
      unfold compose in Hx. cbn [length] in *. lia.
Qed.

Lemma save_markdown_eq query response search_dic y citation_map :
  renumber_citations response = Return (y, citation_map) →
  save_markdown query response search_dic =
  match citation_map with
  | [] => Return (query +:+ ".md",
                  "# " +:+ query +:+ nl +:+ nl +:+ "## Answer" +:+ nl +:+ y)
  | _ :: _ =>
      links_block ← generate_citation_links citation_map search_dic;
      Return (query +:+ ".md",
              "# " +:+ query +:+ nl +:+ nl +:+ "## Sources" +:+ nl
              +:+ links_block +:+ nl +:+ nl +:+ "## Answer" +:+ nl +:+ y)
  end.
Proof. intros H. unfold save_markdown. rewrite H. by destruct citation_map. Qed.

Lemma citation_map_of_marker response numbers :
  Forall2 (λ d n, int d = Return n ∧ (0 <= n)%Z)
          (findall cite_pattern response) numbers →
  has_marker response ↔ citation_map_of numbers ≠ [].
Proof.
  intros Hnum. rewrite has_marker_findall.
  assert (citation_map_of numbers = [] ↔ numbers = []) as ->.
  { split.
    - intros Hnil. destruct numbers as [|n ns]; [done|].
      assert (n ∈ keys (citation_map_of (n :: ns))) as Hn
        by (rewrite citation_map_of_keys, sorted_set_elem; left).
      rewrite Hnil in Hn. by apply elem_of_nil in Hn.
    - by intros ->. }
  split; intros Hne Hnil; apply Hne.
  - subst. by apply Forall2_nil_inv_r in Hnum.
  - rewrite Hnil in Hnum. by apply Forall2_nil_inv_l in Hnum.
Qed.

Lemma citation_map_of_Forall (P : Z → Prop) numbers :
  Forall P numbers ↔ Forall (λ pair, P pair.1) (citation_map_of numbers).
Proof.
  rewrite <- (Forall_fmap fst P (citation_map_of numbers)).
  fold (keys (citation_map_of numbers)). rewrite citation_map_of_keys.
  rewrite !Forall_forall. by setoid_rewrite sorted_set_elem.
Qed.

Lemma save_markdown_raise query response search_dic e :
  renumber_citations response = Raise e →
  save_markdown query response search_dic = Raise e.
Proof. intros H. unfold save_markdown. by rewrite H. Qed.

Lemma save_markdown_short query response search_dic file :
  save_markdown query response search_dic = Return file →
  short_numerals response.
Proof.
  destruct (renumber_citations response) as [[y cm]|e] eqn:Hfirst.
  - intros _. by eapply renumber_citations_short.
  - by rewrite (save_markdown_raise _ _ _ _ Hfirst).
Qed.

Lemma save_markdown_returns query response search_dic :
  short_numerals response →
  (∃ file, save_markdown query response search_dic = Return file) ↔
  ¬ has_marker response ∨
  ∃ d, search_dic = Some d ∧ d ≠ [] ∧
       Forall (λ n, n <= Z.of_nat (length d))%Z (numbers_in response).
Proof.
  intros Hshort.
  destruct (renumber_citations_map response Hshort)
    as (numbers & _ & Hnum & Heq & _).
  rewrite (numbers_in_Forall2 _ _ Hnum).
  rewrite (save_markdown_eq _ _ _ _ _ Heq).
  pose proof (citation_map_of_marker response numbers Hnum) as Hmarker.
  assert (Forall (λ n, 0 <= n)%Z numbers) as Hnonneg.
  { clear -Hnum. induction Hnum as [|???? [_ ?]]; by constructor. }
  apply citation_map_of_Forall in Hnonneg.
  setoid_rewrite (citation_map_of_Forall (λ n, n <= _)%Z numbers).
  destruct (citation_map_of numbers) as [|pair cm] eqn:Hcm.
  - split; [|by eexists]. intros _. left. rewrite Hmarker. by intros [].
  - rewrite <- (generate_citation_links_returns (pair :: cm) search_dic)
      by done.
    split.
    + intros [file Hfile]. right.
      destruct (generate_citation_links _ _) as [links|]; [by eexists|done].
    + intros [Hno|[links ->]]; [|by eexists].
      destruct Hno. by apply Hmarker.
Qed.

Lemma save_markdown_long query response search_dic :
  ¬ short_numerals response →
  save_markdown query response search_dic = Raise ValueError.
Proof.
  intros Hlong. by apply save_markdown_raise, renumber_citations_long.
Qed.

Lemma save_markdown_None query response :
  has_marker response → short_numerals response →
  save_markdown query response None = Raise AttributeError.
Proof.
  intros Hm Hshort.
  destruct (renumber_citations_map response Hshort)
    as (numbers & _ & Hnum & Heq & _).
  rewrite (save_markdown_eq _ _ _ _ _ Heq).
  apply (citation_map_of_marker response numbers Hnum) in Hm.
  destruct (citation_map_of numbers) as [|pair cm]; [done|].
  by rewrite generate_citation_links_None.
Qed.


Lemma save_markdown_plain query response search_dic :
  ¬ has_marker response →
  save_markdown query response search_dic =
    Return (query +:+ ".md",
            "# " +:+ query +:+ nl +:+ nl +:+ "## Answer" +:+ nl +:+ response).
Proof.
  intros Hm.
  by rewrite (save_markdown_eq _ _ _ _ _ (renumber_citations_no_marker _ Hm)).
Qed.

(** X9: [save_markdown] gets as far as writing its file, with no
    exception raised before the call of [open], exactly when no marker of
    the answer has more than 4300 digits and, besides, either the answer
    contains no citation marker, or a search was made, its evidence map
    is not empty and no number cited in the answer exceeds the number of
    entries of the map.  What [open] does with the path is outside the
    statement. *)
Theorem save_markdown_returns_iff (query response : string)
    (search_dic : option (dict string string)) :
  (∃ file, save_markdown query response search_dic = Return file) ↔
  short_numerals response ∧
  (¬ has_marker response ∨
   ∃ d, search_dic = Some d ∧ d ≠ [] ∧
        Forall (λ n, n <= Z.of_nat (length d))%Z (numbers_in response)).
Proof.
  split.
  - intros [file Hfile].
    pose proof (save_markdown_short _ _ _ _ Hfile) as Hshort.
    split; [done|].
    apply (proj1 (save_markdown_returns query response search_dic Hshort)).
    by eexists.
  - intros [Hshort H].
    by apply (proj2 (save_markdown_returns query response search_dic Hshort)).
Qed.

(** X10: when no search was made and the answer contains a citation
    marker, [save_markdown] raises and writes no file: [ValueError] if
    some marker has more than 4300 digits, and otherwise
    [AttributeError], for the keys of [None]. *)
Theorem save_markdown_without_search (query response : string) :
  has_marker response →
  (short_numerals response →
   save_markdown query response None = Raise AttributeError) ∧
  (¬ short_numerals response →
   save_markdown query response None = Raise ValueError).
Proof.
  intros Hm. split.
  - by apply save_markdown_None.
  - apply save_markdown_long.
Qed.

Lemma save_markdown_without_search_witness :
  save_markdown "who?" "Somebody [1]." None = Raise AttributeError.
Proof.
  refine (proj1 (save_markdown_without_search "who?" "Somebody [1]." _) _).
  - exists "Somebody ", "[1]", "1", ".". split; [|reflexivity].
    by apply (marker_intro "" "1" ""); [left|left| |].
  - apply (bool_decide_unpack _). vm_compute. reflexivity.
Defined.

Lemma map_zip_imap {A} (g : Z → Z → A) (start : Z) (l : list Z) :
  map (λ pair, g pair.1 pair.2) (zip l (seqZ start (Z.of_nat (length l))))
  = imap (λ k old, g old (start + Z.of_nat k)%Z) l.
Proof.
  revert start g. induction l as [|x l IH]; intros start g; [done|].
  cbn [length]. rewrite Nat2Z.inj_succ, seqZ_cons by lia.
  cbn [zip zip_with map imap fst snd]. f_equal.
  - by rewrite Z.add_0_r.
  - replace (Z.pred (Z.succ (Z.of_nat (length l)))) with (Z.of_nat (length l))
      by lia.
    rewrite (IH (Z.succ start) g). apply imap_ext. intros k old _.
    cbn. f_equal. lia.
Qed.

(** X11: when the answer contains a citation marker, no marker has more
    than 4300 digits, the evidence map is not empty and no cited number
    exceeds its size, [save_markdown] hands to [open] the file named
    after the query with the title, a source list and the normalized
    answer.  The source list has one line per distinct cited number, in
    ascending order of the cited numbers, numbered 1, 2, ...; the line of
    a cited number n carries the n-th URL of the evidence map, and the
    line of a cited 0 carries the last URL. *)
Theorem save_markdown_sources (query response : string)
    (d : dict string string) :
  has_marker response →
  short_numerals response →
  d ≠ [] →
  Forall (λ n, n <= Z.of_nat (length d))%Z (numbers_in response) →
  ∃ y cm,
    renumber_citations response = Return (y, cm) ∧
    save_markdown query response (Some d) =
      Return (query +:+ ".md",
              "# " +:+ query +:+ nl +:+ nl +:+ "## Sources" +:+ nl
              +:+ join nl (imap (λ k old, str (Z.of_nat k + 1) +:+ ". "
                                          +:+ source_of d old)
                                (sorted_set (numbers_in response)))
              +:+ nl +:+ nl +:+ "## Answer" +:+ nl +:+ y).
Proof.
  intros Hm Hshort Hd Hin.
  destruct (renumber_citations_map response Hshort)
    as (numbers & _ & Hnum & Heq & _).
  rewrite (numbers_in_Forall2 _ _ Hnum) in *.
  eexists _, _. split; [exact Heq|].
  rewrite (save_markdown_eq _ _ _ _ _ Heq).
  apply (citation_map_of_marker response numbers Hnum) in Hm.
  assert (Forall (λ n, 0 <= n <= Z.of_nat (length d))%Z numbers) as Hrange.
  { clear -Hnum Hin. induction Hnum as [|???? [_ ?] _ IH]; [constructor|].
    apply Forall_cons in Hin as [? ?]. constructor; [lia|by apply IH]. }
  apply citation_map_of_Forall in Hrange.
  destruct (citation_map_of numbers) as [|pair cm] eqn:Hcm; [done|].
  rewrite generate_citation_links_Some, mapM_cited_link_sources by done.
  rewrite <- Hcm. unfold citation_map_of.
  rewrite (map_zip_imap (λ old new, str new +:+ ". " +:+ source_of d old)).
  cbn [mbind outcome_bind Py.bind].
  rewrite (imap_ext _ (λ k old, str (Z.of_nat k + 1) +:+ ". "
                                +:+ source_of d old)); [done|].
  intros k old _. cbn. by rewrite Z.add_comm.
Qed.

Lemma save_markdown_sources_witness :
  ∃ y cm,
    renumber_citations "x [3] y [0]." = Return (y, cm) ∧
    save_markdown "q" "x [3] y [0]." (Some three_pages) =
      Return ("q.md",
              "# q" +:+ nl +:+ nl +:+ "## Sources" +:+ nl
              +:+ join nl (imap (λ k old, str (Z.of_nat k + 1) +:+ ". "
                                          +:+ source_of three_pages old)
                                (sorted_set (numbers_in "x [3] y [0].")))
              +:+ nl +:+ nl +:+ "## Answer" +:+ nl +:+ y).
Proof.
  apply (save_markdown_sources "q" "x [3] y [0]." three_pages).
  - exists "x ", "[3]", "3", " y [0].". split; [|reflexivity].
    by apply (marker_intro "" "3" ""); [left|left| |].
  - apply (bool_decide_unpack _). vm_compute. reflexivity.
  - done.
  - vm_compute. repeat constructor; discriminate.
Defined.

(** ** The context block *)

Lemma enumerate_lookup {A} (start : Z) (l : list A) (k : nat) (x : A) :
  l !! k = Some x → enumerate start l !! k = Some ((start + Z.of_nat k)%Z, x).
Proof.
  revert start k. induction l as [|y l IH]; intros start k Hk; [done|].
  destruct k as [|k]; cbn in *.
  - injection Hk as ->. by rewrite Z.add_0_r.
  - rewrite (IH _ _ Hk). do 2 f_equal. lia.
Qed.

Lemma substring_prefix (n : nat) (s : string) :
  ∃ rest, s = substring 0 n s +:+ rest ∧
          String.length (substring 0 n s) = Nat.min (String.length s) n.
Proof.
  revert n. induction s as [|c s IH]; intros n.
  - exists "". by destruct n.
  - destruct n as [|n]; cbn [substring].
    + exists (String c s). by rewrite str_app_nil_l.
    + destruct (IH n) as (rest & Hrest & Hlen). exists rest.
      rewrite str_app_cons, <- Hrest. cbn. by rewrite Hlen.
Qed.

(** X12: in the prompt that [build_prompt] makes from a non-empty
    evidence map, the line of the entry at position k (from 0) starts
    with the number k + 1 in brackets and the entry's URL in parentheses,
    and carries the first [max_content] characters of the page text, the
    whole text if it is shorter.  The number agrees with the source list:
    [generate_citation_links] gives for the old number k + 1 the same
    URL. *)
Theorem build_prompt_context_line (query : string) (d : dict string string)
    (max_content : Z) (k : nat) (url text : string) (new : Z) :
  d !! k = Some (url, text) →
  (0 <= max_content)%Z →
  build_prompt query (Some d) max_content =
    [ {| role := "system";
         content := answer_head +:+ join nl (context_list d max_content)
                    +:+ answer_tail |};
      {| role := "user"; content := query |} ] ∧
  (∃ p rest,
      context_list d max_content !! k =
        Some ("[" +:+ str (Z.of_nat k + 1) +:+ "](" +:+ url +:+ "): " +:+ p) ∧
      text = p +:+ rest ∧
      String.length p = Nat.min (String.length text) (Z.to_nat max_content)) ∧
  generate_citation_links [(Z.of_nat k + 1, new)%Z] (Some d)
    = Return (str new +:+ ". " +:+ url).
Proof.
  intros Hk Hmax. split; [|split].
  - by destruct d.
  - destruct (substring_prefix (Z.to_nat max_content) text) as (rest & Hrest & Hlen).
    exists (Str.slice_to text max_content), rest.
    unfold Str.slice_to.
    replace (max_content <? 0)%Z with false by (symmetry; lia).
    split; [|done].
    unfold context_list. rewrite list_lookup_fmap.
    rewrite (enumerate_lookup 0 d k (url, text) Hk). cbn.
    unfold Str.slice_to.
    by replace (max_content <? 0)%Z with false by (symmetry; lia).
  - rewrite generate_citation_links_Some.
    rewrite mapM_outcome_cons, cited_link_pair.
    rewrite (index_in_range _ _ url); [done|lia|].
    replace (Z.to_nat (Z.of_nat k + 1 - 1)) with k by lia.
    unfold keys. by rewrite list_lookup_fmap, Hk.
Qed.

Lemma build_prompt_context_line_witness :
  ∃ p rest,
    context_list three_pages 3 !! 2%nat = Some ("[3](u3): " +:+ p) ∧
    "three" = p +:+ rest ∧
    String.length p = Nat.min 5 3.
Proof.
  destruct (build_prompt_context_line "q" three_pages 3 2 "u3" "three" 1)
    as (_ & H & _).
  - reflexivity.
  - lia.
  - exact H.
Defined.

(** ** The reply that declines the search *)

Lemma lower_char_space c : Str.is_space (Str.lower_char c) = Str.is_space c.
Proof. by destruct c as [[] [] [] [] [] [] [] []]. Qed.

Lemma lower_char_n c :
  Str.lower_char c = "n"%char ↔ (c = "n" ∨ c = "N")%char.
Proof.
  split; [|by intros [-> | ->]].
  destruct c as [[] [] [] [] [] [] [] []]; cbv; intros H;
    first [discriminate H | by left | by right].
Qed.

Lemma lower_char_o c :
  Str.lower_char c = "o"%char ↔ (c = "o" ∨ c = "O")%char.
Proof.
  split; [|by intros [-> | ->]].
  destruct c as [[] [] [] [] [] [] [] []]; cbv; intros H;
    first [discriminate H | by left | by right].
Qed.

Lemma lower_app s t : Str.lower (s +:+ t) = Str.lower s +:+ Str.lower t.
Proof.
  induction s as [|c s IH]; [by rewrite !str_app_nil_l|].
  rewrite str_app_cons. cbn [Str.lower]. by rewrite str_app_cons, IH.
Qed.

Lemma lower_app_inv s a b :
  Str.lower s = a +:+ b →
  ∃ sa sb, s = sa +:+ sb ∧ Str.lower sa = a ∧ Str.lower sb = b.
Proof.
  revert s. induction a as [|c a IH]; intros s Hs.
  - exists "", s. by rewrite !str_app_nil_l in *.
  - rewrite str_app_cons in Hs. destruct s as [|c' s]; [done|].
    cbn [Str.lower] in Hs. injection Hs as Hc Hs.
    destruct (IH s Hs) as (sa & sb & -> & Ha & Hb).
    exists (String c' sa), sb. rewrite str_app_cons. cbn [Str.lower].
    by rewrite Hc, Ha.
Qed.

Lemma lower_all_space s : all_space (Str.lower s) = all_space s.
Proof.
  induction s as [|c s IH]; [done|].
  cbn [Str.lower all_space]. by rewrite lower_char_space, IH.
Qed.

Lemma lstrip_split s :
  ∃ pre, s = pre +:+ Str.lstrip s ∧ all_space pre = true.
Proof.
  induction s as [|c s (pre & Hs & Hpre)]; [by exists ""|].
  cbn [Str.lstrip]. destruct (Str.is_space c) eqn:Hc.
  - exists (String c pre). rewrite str_app_cons, <- Hs. cbn. by rewrite Hc.
  - exists "". by rewrite str_app_nil_l.
Qed.

Lemma rstrip_split s :
  ∃ post, s = Str.rstrip s +:+ post ∧ all_space post = true.
Proof.
  induction s as [|c s (post & Hs & Hpost)]; [by exists ""|].
  cbn [Str.rstrip]. destruct (Str.rstrip s) as [|c' t] eqn:Ht.
  - rewrite str_app_nil_l in Hs. subst post.
    destruct (Str.is_space c) eqn:Hc.
    + exists (String c s). rewrite str_app_nil_l. cbn. by rewrite Hc.
    + by exists s.
  - exists post. by rewrite str_app_cons, <- Hs.
Qed.

Lemma lstrip_all_space pre s :
  all_space pre = true → Str.lstrip (pre +:+ s) = Str.lstrip s.
Proof.
  induction pre as [|c pre IH]; [by rewrite str_app_nil_l|].
  cbn [all_space]. intros [Hc Hpre]%andb_true_iff.
  rewrite str_app_cons. cbn [Str.lstrip]. rewrite Hc. by apply IH.
Qed.

Lemma rstrip_all_space post : all_space post = true → Str.rstrip post = "".
Proof.
  induction post as [|c post IH]; [done|].
  cbn [all_space]. intros [Hc Hpost]%andb_true_iff.
  cbn [Str.rstrip]. by rewrite IH, Hc.
Qed.

Lemma strip_lower_no response :
  Str.strip (Str.lower response) = "no" ↔ says_no response.
Proof.
  unfold Str.strip. split.
  - intros Hno.
    destruct (lstrip_split (Str.lower response)) as (pre' & Hl & Hpre').
    destruct (rstrip_split (Str.lstrip (Str.lower response)))
      as (post' & Hr & Hpost').
    rewrite Hno in Hr. rewrite Hr in Hl.
    apply lower_app_inv in Hl as (pre & s & -> & <- & Hs).
    rewrite !str_app_cons, str_app_nil_l in Hs.
    destruct s as [|n [|o post]]; [done..|].
    cbn [Str.lower] in Hs. injection Hs as Hn Ho <-.
    exists pre, n, o, post.
    rewrite lower_all_space in Hpre', Hpost'.
    by rewrite <- lower_char_n, <- lower_char_o.
  - intros (pre & n & o & post & -> & Hpre & Hpost & Hn & Ho).
    rewrite lower_app. cbn [Str.lower].
    apply lower_char_n in Hn as ->. apply lower_char_o in Ho as ->.
    rewrite lstrip_all_space by by rewrite lower_all_space.
    cbn [Str.lstrip]. change (Str.is_space "n") with false. cbv iota.
    cbn [Str.rstrip].
    rewrite rstrip_all_space by by rewrite lower_all_space.
    done.
Qed.

Lemma llm_check_search_no query w response :
  chat w (check_search_prompt query) = Return response →
  says_no response →
  llm_check_search query w = Return None.
Proof.
  intros Hchat Hno%strip_lower_no. unfold llm_check_search, llm_openai.
  rewrite Hchat. cbn [mbind outcome_bind Py.bind].
  by rewrite decide_False by (by intros []).
Qed.

Lemma llm_check_search_yes query w response :
  chat w (check_search_prompt query) = Return response →
  ¬ says_no response →
  llm_check_search query w =
    search_dic ← google_parse_webpages response NUM_SEARCH SEARCH_TIME_LIMIT
                   (pool w);
    Return (Some search_dic).
Proof.
  intros Hchat Hno. rewrite <- strip_lower_no in Hno.
  unfold llm_check_search, llm_openai.
  rewrite Hchat. cbn [mbind outcome_bind Py.bind].
  by rewrite decide_True.
Qed.

(** X13: [llm_check_search] makes no search exactly when the model's
    reply is the word "no", in upper or lower case and with nothing but
    white space around it; it then returns [None].  For any other reply,
    the empty one included, it searches for the reply as it is, with the
    default number of results and time limit, and returns that evidence
    map. *)
Theorem llm_check_search_cases (query : string) (w : World)
    (response : string) :
  chat w (check_search_prompt query) = Return response →
  (says_no response → llm_check_search query w = Return None) ∧
  (¬ says_no response →
   llm_check_search query w =
     search_dic ← google_parse_webpages response NUM_SEARCH SEARCH_TIME_LIMIT
                    (pool w);
     Return (Some search_dic)).
Proof.
  intros Hchat. split.
  - by apply llm_check_search_no.
  - by apply llm_check_search_yes.
Qed.

Lemma llm_check_search_cases_witness :
  llm_check_search "who?" quiet_world = Return None.
Proof.
  destruct (llm_check_search_cases "who?" quiet_world (" No" +:+ nl)) as [H _].
  - vm_compute. reflexivity.
  - apply H. exists " ", "N"%char, "o"%char, nl.
    split; [reflexivity|]. split; [reflexivity|]. split; [reflexivity|].
    split; [by right|by left].
Defined.

(** ** The whole run *)

(** The two prompts of a run are never the same, so the model's replies
    to them are independent of each other. *)
Lemma prompts_differ query query' search_dic max_content :
  check_search_prompt query ≠ build_prompt query' search_dic max_content.
Proof.
  intros H. discriminate H.
Qed.

Lemma collect_Return done d0 d :
  collect done d0 = Return d → d = fold_left keep (returned done) d0.
Proof.
  revert d0. induction done as [|[r|e] done IH]; intros d0 Hd; [| |done].
  { cbn in Hd. by injection Hd as ->. }
  change (returned (Return r :: done)) with (r :: returned done).
  cbn [fold_left]. apply IH. rewrite <- Hd. cbn [collect].
  cbn [mbind outcome_bind Py.bind]. unfold keep, kept.
  destruct (truthy r.1); [|done].
  destruct r.2 as [page_text|]; [|done].
  cbn [truthy_opt default andb]. by destruct (truthy page_text).
Qed.

Lemma google_parse_webpages_keys query num_search t w d u :
  google_parse_webpages query num_search t w = Return d →
  u ∈ keys d → u ∈ search w query num_search.
Proof.
  unfold google_parse_webpages. intros -> %collect_Return Hu.
  apply keep_keys in Hu as [Hu|(r & Hr & _ & <-)];
    [by apply elem_of_nil in Hu|].
  apply returned_elem, as_completed_elem, submit_all_elem in Hr
    as (i & url & Hurl & Hf).
  symmetry in Hf. apply fetch_webpage_fst in Hf as ->.
  by eapply list_elem_of_lookup_2.
Qed.

Lemma source_of_elem d old :
  d ≠ [] → (0 <= old <= Z.of_nat (length d))%Z → source_of d old ∈ keys d.
Proof.
  intros Hd Hold. unfold source_of.
  assert (length (keys d) = length d) as Hlen by (unfold keys; apply length_fmap).
  assert (0 < length d)%nat as Hpos by (destruct d; [done|cbn; lia]).
  destruct (decide (old = 0%Z)) as [->|Hne].
  - rewrite last_lookup.
    destruct (lookup_lt_is_Some_2 (keys d) (pred (length (keys d))))
      as [url Hurl]; [lia|].
    rewrite Hurl. cbn. by eapply list_elem_of_lookup_2.
  - destruct (lookup_lt_is_Some_2 (keys d) (Z.to_nat (old - 1)))
      as [url Hurl]; [lia|].
    rewrite (nth_lookup_Some _ _ _ _ Hurl). by eapply list_elem_of_lookup_2.
Qed.

Lemma save_markdown_written query answer search_dic path text :
  save_markdown query answer search_dic = Return (path, text) →
  path = query +:+ ".md" ∧
  ∃ urls y,
    match search_dic with
    | Some d => Forall (λ url, url ∈ keys d) urls
    | None => urls = []
    end ∧
    text = "# " +:+ query +:+ nl +:+ nl +:+ sources_section urls
           +:+ "## Answer" +:+ nl +:+ y.
Proof.
  intros Hsave. pose proof (save_markdown_short _ _ _ _ Hsave) as Hshort.
  revert Hsave.
  destruct (renumber_citations_map answer Hshort)
    as (numbers & _ & Hnum & Heq & _).
  rewrite (save_markdown_eq _ _ _ _ _ Heq).
  assert (Forall (λ n, 0 <= n)%Z numbers) as Hnonneg.
  { clear -Hnum. induction Hnum as [|???? [_ ?]]; by constructor. }
  destruct (citation_map_of numbers) as [|pair cm] eqn:Hcm.
  { intros [= <- <-]. split; [done|]. exists [], (rewrite_all [] answer).
    split; [by destruct search_dic|done]. }
  destruct (generate_citation_links (pair :: cm) search_dic) as [links|e]
    eqn:Hlinks; [|done].
  intros [= <- <-]. split; [done|].
  destruct (proj1 (generate_citation_links_returns (pair :: cm) search_dic
                     ltac:(done)
                     ltac:(rewrite <- Hcm; by apply citation_map_of_Forall)))
    as (d & -> & Hd & Hle); [by eexists|].
  assert (Forall (λ pair, 0 <= pair.1 <= Z.of_nat (length d))%Z
                 (citation_map_of numbers)) as Hrange.
  { rewrite <- Hcm in Hle.
    apply (citation_map_of_Forall (λ n, n <= Z.of_nat (length d))%Z) in Hle.
    apply (citation_map_of_Forall (λ n, 0 <= n <= Z.of_nat (length d))%Z).
    clear -Hnonneg Hle.
    induction Hnonneg as [|n ns Hn _ IH]; [constructor|].
    apply Forall_cons in Hle as [? ?]. constructor; [lia|by apply IH]. }
  rewrite generate_citation_links_Some, <- Hcm in Hlinks.
  rewrite mapM_cited_link_sources in Hlinks by done.
  injection Hlinks as <-.
  exists (map (source_of d) (sorted_set numbers)), (rewrite_all (pair :: cm) answer).
  split.
  - apply Forall_fmap, Forall_forall. intros old Hold. cbn.
    apply source_of_elem; [done|].
    rewrite <- citation_map_of_keys in Hold.
    apply list_elem_of_fmap in Hold as (pr & -> & Hpr).
    rewrite Forall_forall in Hrange. by apply Hrange.
  - unfold citation_map_of.
    rewrite (map_zip_imap (λ old new, str new +:+ ". " +:+ source_of d old)).
    assert (sorted_set numbers ≠ []) as Hne.
    { intros Hnil. unfold citation_map_of in Hcm. by rewrite Hnil in Hcm. }
    destruct (sorted_set numbers) as [|n0 ns]; [done|].
    cbn [map sources_section]. rewrite <- (fmap_cons (source_of d)).
    unfold fmap at 1. rewrite imap_fmap.
    rewrite (imap_ext (λ k, (λ url, str (Z.of_nat k + 1) +:+ ". " +:+ url)
                            ∘ source_of d)
                      (λ k old, str (1 + Z.of_nat k) +:+ ". "
                                +:+ source_of d old)).
    2:{ intros k old _. cbn. by rewrite Z.add_comm. }
    by rewrite !str_app_assoc.
Qed.

(** X14: when the model declines the search, [main] sends the answer
    prompt with an empty context block, and what it does next depends on
    the answer alone.  An answer without citation markers is handed to
    [open] under the file name made from the query, with the title and
    the heading of the answer and with no source list.  An answer with a
    citation marker makes the run end in an exception with no file
    written: [ValueError] if some marker has more than 4300 digits, and
    [AttributeError] otherwise. *)
Theorem main_without_search (w : World) (reply answer : string) :
  chat w (check_search_prompt (console_input w)) = Return reply →
  says_no reply →
  chat w (build_prompt (console_input w) None (Z.of_nat MAX_CONTENT))
    = Return answer →
  build_prompt (console_input w) None (Z.of_nat MAX_CONTENT) =
    [ {| role := "system"; content := answer_head +:+ answer_tail |};
      {| role := "user"; content := console_input w |} ] ∧
  (¬ has_marker answer →
   main w = Return (console_input w +:+ ".md",
                    "# " +:+ console_input w +:+ nl +:+ nl
                    +:+ "## Answer" +:+ nl +:+ answer)) ∧
  (has_marker answer → short_numerals answer →
   main w = Raise AttributeError) ∧
  (¬ short_numerals answer → main w = Raise ValueError).
Proof.
  intros Hreply Hno Hanswer. split; [done|].
  assert (main w = save_markdown (console_input w) answer None) as ->.
  { unfold main, get_query.
    rewrite (llm_check_search_no _ _ _ Hreply Hno).
    cbn [mbind outcome_bind Py.bind]. unfold llm_openai. by rewrite Hanswer. }
  split; [apply save_markdown_plain|].
  split; [apply save_markdown_None|apply save_markdown_long].
Qed.

Lemma main_without_search_witness :
  main quiet_world
  = Return ("who?.md", "# who?" +:+ nl +:+ nl +:+ "## Answer" +:+ nl +:+ "Nobody.").
Proof.
  destruct (main_without_search quiet_world (" No" +:+ nl) "Nobody.")
    as (_ & H & _).
  - vm_compute. reflexivity.
  - exists " ", "N"%char, "o"%char, nl.
    split; [reflexivity|]. split; [reflexivity|]. split; [reflexivity|].
    split; [by right|by left].
  - vm_compute. reflexivity.
  - apply H. intros Hm%has_marker_findall. by apply Hm.
Defined.

(** X15: whenever [main] writes a file, the file is named after the
    query, it consists of the title, the source list if the answer cites
    anything, and the answer, and every URL in the source list is one of
    the URLs that the search provider returned for the model's first
    reply: the source list never shows a URL that the search did not
    yield. *)
Theorem main_sources_searched (w : World) (path text : string) :
  main w = Return (path, text) →
  path = console_input w +:+ ".md" ∧
  ∃ reply urls y,
    chat w (check_search_prompt (console_input w)) = Return reply ∧
    Forall (λ url, url ∈ search (pool w) reply NUM_SEARCH) urls ∧
    text = "# " +:+ console_input w +:+ nl +:+ nl +:+ sources_section urls
           +:+ "## Answer" +:+ nl +:+ y.
Proof.
  unfold main, get_query, llm_check_search, llm_openai.
  destruct (chat w (check_search_prompt (console_input w))) as [reply|e]
    eqn:Hreply; [|done].
  cbn [mbind outcome_bind Py.bind].
  destruct (decide _) as [_|_]; cbn [mbind outcome_bind Py.bind].
  - destruct (google_parse_webpages reply NUM_SEARCH SEARCH_TIME_LIMIT (pool w))
      as [d|e] eqn:Hd; [|done].
    cbn [mbind outcome_bind Py.bind].
    destruct (chat w (build_prompt (console_input w) (Some d)
                                   (Z.of_nat MAX_CONTENT)))
      as [answer|e]; [|done].
    cbn [mbind outcome_bind Py.bind].
    intros (-> & urls & y & Hurls & ->)%save_markdown_written.
    split; [done|]. exists reply, urls, y. split_and!; [done| |done].
    eapply Forall_impl; [exact Hurls|]. intros u Hu.
    by eapply google_parse_webpages_keys.
  - destruct (chat w (build_prompt (console_input w) None
                                   (Z.of_nat MAX_CONTENT)))
      as [answer|e]; [|done].
    cbn [mbind outcome_bind Py.bind].
    intros (-> & urls & y & -> & ->)%save_markdown_written.
    split; [done|]. by exists reply, [], y.
Qed.

Lemma main_sources_searched_witness :
  "who?.md" = console_input cited_world +:+ ".md" ∧
  ∃ reply urls y,
    chat cited_world (check_search_prompt (console_input cited_world))
      = Return reply ∧
    Forall (λ url, url ∈ search (pool cited_world) reply NUM_SEARCH) urls ∧
    "# who?" +:+ nl +:+ nl +:+ "## Sources" +:+ nl +:+ "1. http://a"
      +:+ nl +:+ nl +:+ "## Answer" +:+ nl +:+ "It is [1]."
    = "# " +:+ console_input cited_world +:+ nl +:+ nl +:+ sources_section urls
      +:+ "## Answer" +:+ nl +:+ y.
Proof.
  apply (main_sources_searched cited_world).
  vm_compute. reflexivity.
Defined.



(** ** Markers with leading zeros *)

Lemma rewritten_marker old new g w :
  (0 <= new)%Z → (∃ d, marker (g w) d) → ∃ d, marker (rewritten old new g w) d.
Proof.
  intros Hnew [d Hd]. unfold rewritten.
  destruct (decide _); [|by exists d].
  exists (str new). by apply bracketed_marker.
Qed.

Lemma rewrite_all_padded ps todo g :
  settled g ps →
  (∀ w, Hit w ∈ ps → ∃ d, marker (g w) d) →
  Forall (λ a, 0 <= a.1 ∧ 0 <= a.2)%Z todo →
  ∃ g', rewrite_all todo (text_of g ps) = text_of g' ps ∧
        ∀ w, Hit w ∈ ps → padded (digits_in (g w)) → g' w = g w.
Proof.
  revert g. induction todo as [|[old new] todo IH]; intros g Hs Hm Hpos.
  { by exists g. }
  apply Forall_cons in Hpos as [[Hold Hnew] Hpos]. cbn [fst snd] in *.
  rewrite rewrite_all_cons.
  rewrite (sub_old_text_of old _ g (rewritten old new g)); [|done..|].
  - destruct (IH (rewritten old new g)) as (g' & -> & Hg'); [| |done|].
    + apply (settled_change g); [done|].
      intros w Hw. apply rewritten_marker; [done|by apply Hm].
    + intros w Hw. apply rewritten_marker; [done|by apply Hm].
    + exists g'. split; [done|]. intros w Hw Hpad.
      assert (rewritten old new g w = g w) as Heq.
      { unfold rewritten. rewrite decide_False; [done|by apply Hpad]. }
      rewrite <- Heq. apply Hg'; [done|]. by rewrite Heq.
  - intros w Hw. destruct (Hm w Hw) as [d Hd]. exists d. split; [done|].
    unfold rewritten. by rewrite (digits_in_marker _ _ Hd).
Qed.

(** X17: a citation marker whose digits have a leading zero is counted
    but not rewritten: whenever [renumber_citations] returns, the number
    such a marker stands for is a key of the returned map, while the
    marker itself stands unchanged in the returned text. *)
Theorem renumber_citations_keeps_padded (response y : string)
    (cm : dict Z Z) :
  renumber_citations response = Return (y, cm) →
  ∃ g,
    y = text_of g (scan cite_pattern response) ∧
    ∀ w d, Hit w ∈ scan cite_pattern response →
           group1 w = Some d →
           padded d →
           g w = matched w ∧ ∃ n, int d = Return n ∧ n ∈ keys cm.
Proof.
  intros Hfirst.
  destruct (renumber_citations_map response
              (renumber_citations_short _ _ _ Hfirst))
    as (numbers & _ & Hnum & Heq & Hkeys & _).
  rewrite Heq in Hfirst. injection Hfirst as <- <-.
  assert (∀ w, Hit w ∈ scan cite_pattern response →
               ∃ d, marker (matched w) d ∧ group1 w = Some d) as Hhits.
  { intros w [x Hx]%scan_hit_match. rewrite match_at_cite in Hx.
    apply cite_at_marker in Hx as (d & Hm & Hg & _). eauto. }
  destruct (rewrite_all_padded (scan cite_pattern response)
              (citation_map_of numbers) matched) as (g & Hg & Hpad).
  - apply scan_settled.
  - intros w Hw. destruct (Hhits w Hw) as (d & Hm & _). eauto.
  - apply citation_map_of_nonneg. clear -Hnum.
    induction Hnum as [|d n ds ns [_ Hn] _ IH]; by constructor.
  - rewrite scan_text in Hg. exists g.
    split; [done|]. intros w d Hw Hd Hp.
    destruct (Hhits w Hw) as (d' & Hm & Hd'). rewrite Hd in Hd'.
    injection Hd' as <-. split.
    + apply Hpad; [done|]. by rewrite (digits_in_marker _ _ Hm).
    + assert (d ∈ findall cite_pattern response) as Hfa.
      { apply elem_of_findall. exists w. by rewrite Hd. }
      apply list_elem_of_lookup in Hfa as [k Hk].
      destruct (Forall2_lookup_l _ _ _ _ _ Hnum Hk) as (n & Hn & Hint & _).
      exists n. split; [done|]. rewrite Hkeys.
      apply sorted_set_elem. by eapply list_elem_of_lookup_2.
Qed.

Lemma renumber_citations_keeps_padded_witness :
  ∃ g,
    "see [07], not [1]." = text_of g (scan cite_pattern "see [07], not [3].") ∧
    ∀ w d, Hit w ∈ scan cite_pattern "see [07], not [3]." →
           group1 w = Some d →
           padded d →
           g w = matched w ∧
           ∃ n, int d = Return n ∧ n ∈ keys [(3, 1); (7, 2)]%Z.
Proof.
  apply (renumber_citations_keeps_padded "see [07], not [3]."
           "see [07], not [1]." [(3, 1); (7, 2)]%Z).
  vm_compute. reflexivity.
Defined.

(** The marker with the digits 07 is such a one. *)
Example renumber_citations_07 :
  padded "07" ∧
  renumber_citations "see [07]." = Return ("see [07].", [(7, 1)]%Z).
Proof.
  split; [|vm_compute; reflexivity].
  intros i Hi Heq.
  assert (int "07" = Return 7%Z) as Hint by (vm_compute; reflexivity).
  rewrite Heq in Hint. apply int_str_inv in Hint; [|done]. subst i.
  vm_compute in Heq. discriminate Heq.
Qed.
